(** * Workspace provisioning engine of opencode-manager

    A shallow embedding of [backend/src/services/repo.ts], of the record
    store [backend/src/db/queries.ts] it drives and of the handlers of
    [backend/src/routes/repos.ts] that call it, together with the
    properties of the provisioning, worktree, deletion, branch, pull and
    reconciliation operations.

    The engine orchestrates two collaborators: an external command executor
    (git, rm, ls, test) and a table of workspace rows.  Both are threaded
    through a small monad: a computation takes the current store, and returns
    an outcome (a value or a thrown error), the next store, and the events it
    produced (commands with their results, log lines, row mutations), in
    program order. *)

From Stdlib Require Import List String Ascii ZArith Bool Lia DecimalString
  Permutation Sorted.
Import ListNotations.
Open Scope list_scope.
Open Scope string_scope.

Set Implicit Arguments.

(* ================================================================= *)
(** ** JavaScript string operations used by the engine *)

Module Js.

(** Characters removed by [String.prototype.trim].  Strings are modelled as
    byte strings, so only the ASCII white space and line terminators are
    recognised: TAB, LF, VT, FF, CR and SPACE. *)
Definition isSpace (c : ascii) : bool :=
  let n := nat_of_ascii c in
  ((9 <=? n)%nat && (n <=? 13)%nat) || (n =? 32)%nat.

Fixpoint trimStart (s : string) : string :=
  match s with
  | EmptyString => EmptyString
  | String c r => if isSpace c then trimStart r else s
  end.

Fixpoint trimEnd (s : string) : string :=
  match s with
  | EmptyString => EmptyString
  | String c r =>
      match trimEnd r with
      | EmptyString => if isSpace c then EmptyString else String c EmptyString
      | r' => String c r'
      end
  end.

(** [s.trim()] *)
Definition trim (s : string) : string := trimEnd (trimStart s).

(** [s.startsWith(p)] *)
Fixpoint startsWith (p s : string) : bool :=
  match p with
  | EmptyString => true
  | String a p' =>
      match s with
      | EmptyString => false
      | String b s' => Ascii.eqb a b && startsWith p' s'
      end
  end.

(** [s.includes(needle)] *)
Fixpoint includes (needle s : string) : bool :=
  startsWith needle s ||
  match s with
  | EmptyString => false
  | String _ r => includes needle r
  end.

Fixpoint drop (n : nat) (s : string) : string :=
  match n with
  | 0 => s
  | S k => match s with EmptyString => EmptyString | String _ r => drop k r end
  end.

(** [s.replace(pat, rep)] with a string pattern: the first occurrence only.
    The replacement is inserted literally. *)
Fixpoint replace (pat rep s : string) : string :=
  if startsWith pat s then rep ++ drop (String.length pat) s
  else match s with
       | EmptyString => EmptyString
       | String c r => String c (replace pat rep r)
       end.

(** [s.replace(/[\\/]/g, '-')]: every backslash and slash becomes a dash. *)
Fixpoint replaceSlashes (s : string) : string :=
  match s with
  | EmptyString => EmptyString
  | String c r =>
      String (if Ascii.eqb c "\" || Ascii.eqb c "/" then "-"%char else c)
             (replaceSlashes r)
  end.

(** [s.split(sep)] for a one-character separator; never the empty list. *)
Fixpoint split (sep : ascii) (s : string) : list string :=
  match s with
  | EmptyString => [EmptyString]
  | String c r =>
      if Ascii.eqb c sep then EmptyString :: split sep r
      else match split sep r with
           | h :: t => String c h :: t
           | [] => [String c EmptyString]
           end
  end.

(** [xs.pop()] read as a value: the last element, [undefined] on []. *)
Definition pop (xs : list string) : option string :=
  match rev xs with
  | [] => None
  | x :: _ => Some x
  end.

(** A string is truthy when it is not empty. *)
Definition nonEmpty (s : string) : bool := negb (s =? "").

(** An optional string ([string | undefined]) is truthy when it is present
    and not empty. *)
Definition truthy (o : option string) : bool :=
  match o with
  | Some s => nonEmpty s
  | None => false
  end.

(** [o || d] on optional strings. *)
Definition orElse (o : option string) (d : string) : string :=
  match o with
  | Some s => if nonEmpty s then s else d
  | None => d
  end.

(** [o || undefined] *)
Definition orUndefined (o : option string) : option string :=
  if truthy o then o else None.

(** The text a template literal splices in for a number. *)
Definition ofZ (z : Z) : string := NilZero.string_of_int (Z.to_int z).
Definition ofNat (n : nat) : string := ofZ (Z.of_nat n).

(** [xs.join(sep)] *)
Definition join (sep : string) (xs : list string) : string :=
  String.concat sep xs.

Definition newline : ascii := ascii_of_nat 10.

End Js.

(* ================================================================= *)
(** ** Data model: rows, workspaces, and the record store *)

(** A thrown [Error]: its [message]. *)
Definition Error := string.

(** [RepoRow]: one row of table [repos]. *)
Module RepoRow.
Record t := mk {
  id : Z;
  repo_url : string;
  local_path : string;
  branch : option string;
  default_branch : string;
  clone_status : string;
  cloned_at : Z;
  last_pulled : option Z;
  opencode_config_name : option string;
  is_worktree : option Z
}.
End RepoRow.

(** [Repo]: the workspace entity handed to callers. *)
Module Repo.
Record t := mk {
  id : Z;
  repoUrl : string;
  localPath : string;
  fullPath : string;
  branch : option string;
  defaultBranch : string;
  cloneStatus : string;
  clonedAt : Z;
  lastPulled : option Z;
  openCodeConfigName : option string;
  isWorktree : option bool
}.

(** [{ ...repo, cloneStatus: status }] *)
Definition withCloneStatus (r : t) (status : string) : t :=
  mk (id r) (repoUrl r) (localPath r) (fullPath r) (branch r)
     (defaultBranch r) status (clonedAt r) (lastPulled r)
     (openCodeConfigName r) (isWorktree r).
End Repo.

(** [CreateRepoInput] *)
Module CreateRepoInput.
Record t := mk {
  repoUrl : string;
  localPath : string;
  branch : option string;
  defaultBranch : string;
  cloneStatus : string;
  clonedAt : Z;
  isWorktree : option bool
}.

(** [input.isWorktree = true] *)
Definition flagWorktree (i : t) : t :=
  mk (repoUrl i) (localPath i) (branch i) (defaultBranch i)
     (cloneStatus i) (clonedAt i) (Some true).
End CreateRepoInput.

(** The database: table [repos] in row order, and the one setting the engine
    reads. *)
Record Database := mkDatabase {
  repos : list RepoRow.t;
  (** Modelled from the spec: the Credential Provider of the settings store
      ([SettingsService], whose source is not available) "optionally
      supplies a token"; [settings.preferences.gitToken]. *)
  gitToken : option string
}.

Inductive Level := Info | Warn | Err.

(** What a computation does that a caller or an observer can see. *)
Inductive Event :=
| EvExec (argv : list string) (cwd : option string) (res : string + Error)
| EvEnsureDir (path : string) (res : unit + Error)
| EvLog (lvl : Level) (msg : string) (detail : option string)
| EvInsert (input : CreateRepoInput.t) (changes : nat)
| EvUpdateStatus (id : Z) (status : string)
| EvDelete (id : Z).

(** The collaborators of the engine that are not part of its sources: the
    command executor ([utils/process]), [ensureDirectoryExists]
    ([services/file-operations]), the clock, the configured workspaces root
    ([config]), Node's [path], and the constraints of table [repos] that make
    [INSERT OR IGNORE] skip a row (the schema). *)
Class Host := {
  Env : Type;
  host_execute : list string -> option string -> Env -> (string + Error) * Env;
  host_ensureDirectory : string -> Env -> (unit + Error) * Env;
  host_now : Env -> Z;
  getReposPath : string;
  path_resolve : list string -> string;
  path_join : list string -> string;
  insert_ignored : CreateRepoInput.t -> list RepoRow.t -> bool
}.

(* ================================================================= *)
(** ** The record store: [db/queries.ts] *)

Section RecordStore.
Context {host : Host}.

(** [rowToRepo] *)
Definition rowToRepo (row : RepoRow.t) : Repo.t :=
  Repo.mk (RepoRow.id row)
          (RepoRow.repo_url row)
          (RepoRow.local_path row)
          (path_join [getReposPath; RepoRow.local_path row])
          (RepoRow.branch row)
          (RepoRow.default_branch row)
          (RepoRow.clone_status row)
          (RepoRow.cloned_at row)
          (RepoRow.last_pulled row)
          (RepoRow.opencode_config_name row)
          (match RepoRow.is_worktree row with
           | Some n => if (n =? 0)%Z then None else Some true
           | None => None
           end).

Definition hasId (id : Z) (row : RepoRow.t) : bool :=
  (RepoRow.id row =? id)%Z.

(** [getRepoById]: [SELECT * FROM repos WHERE id = ?], first row. *)
Definition getRepoById (d : Database) (id : Z) : option Repo.t :=
  option_map rowToRepo (find (hasId id) (repos d)).

(** The two [WHERE] clauses of [getRepoByUrlAndBranch]. *)
Definition matchesUrlAndBranch (repoUrl : string) (branch : option string)
           (row : RepoRow.t) : bool :=
  if Js.truthy branch then
    (RepoRow.repo_url row =? repoUrl) &&
    match RepoRow.branch row, branch with
    | Some rb, Some b => rb =? b
    | _, _ => false
    end
  else
    (RepoRow.repo_url row =? repoUrl) &&
    match RepoRow.branch row with
    | None => true
    | Some _ => false
    end.

(** [getRepoByUrlAndBranch] *)
Definition getRepoByUrlAndBranch (d : Database) (repoUrl : string)
           (branch : option string) : option Repo.t :=
  option_map rowToRepo (find (matchesUrlAndBranch repoUrl branch) (repos d)).

(** Modelled from the spec: the table declaration is not part of the
    sources; the spec has [id] an "opaque identifier, assigned by the store
    on creation".  [lastInsertRowid] is taken one above every id in the
    table, as SQLite assigns row ids. *)
Definition lastInsertRowid (rows : list RepoRow.t) : Z :=
  Z.succ (fold_right Z.max 0%Z (map RepoRow.id rows)).

(** The row written by the [INSERT] of [createRepo]. *)
Definition insertedRow (rows : list RepoRow.t) (repo : CreateRepoInput.t)
  : RepoRow.t :=
  RepoRow.mk (lastInsertRowid rows)
             (CreateRepoInput.repoUrl repo)
             (CreateRepoInput.localPath repo)
             (Js.orUndefined (CreateRepoInput.branch repo))
             (CreateRepoInput.defaultBranch repo)
             (CreateRepoInput.cloneStatus repo)
             (CreateRepoInput.clonedAt repo)
             None
             None
             (Some (match CreateRepoInput.isWorktree repo with
                    | Some true => 1%Z
                    | _ => 0%Z
                    end)).

Definition setRepos (d : Database) (rows : list RepoRow.t) : Database :=
  mkDatabase rows (gitToken d).

Definition setStatus (status : string) (row : RepoRow.t) : RepoRow.t :=
  RepoRow.mk (RepoRow.id row) (RepoRow.repo_url row) (RepoRow.local_path row)
             (RepoRow.branch row) (RepoRow.default_branch row) status
             (RepoRow.cloned_at row) (RepoRow.last_pulled row)
             (RepoRow.opencode_config_name row) (RepoRow.is_worktree row).

(** [UPDATE repos SET clone_status = ? WHERE id = ?] *)
Definition updateRepoStatus_db (d : Database) (id : Z) (status : string)
  : Database :=
  setRepos d (map (fun row => if hasId id row then setStatus status row
                              else row) (repos d)).

(** [DELETE FROM repos WHERE id = ?] *)
Definition deleteRepo_db (d : Database) (id : Z) : Database :=
  setRepos d (filter (fun row => negb (hasId id row)) (repos d)).

(** [ORDER BY cloned_at DESC]: insertion into a list that is already in
    descending order; rows of equal time keep their table order. *)
Fixpoint insertByClonedAt (row : RepoRow.t) (sorted : list RepoRow.t)
  : list RepoRow.t :=
  match sorted with
  | [] => [row]
  | r :: rest =>
      if (RepoRow.cloned_at r <? RepoRow.cloned_at row)%Z
      then row :: sorted
      else r :: insertByClonedAt row rest
  end.

Definition orderByClonedAtDesc (rows : list RepoRow.t) : list RepoRow.t :=
  fold_left (fun acc row => insertByClonedAt row acc) rows [].

(** [listRepos] *)
Definition listRepos (d : Database) : list Repo.t :=
  map rowToRepo (orderByClonedAtDesc (repos d)).

End RecordStore.

(* ================================================================= *)
(** ** Computations: store passing, thrown errors, and the event log *)

Inductive Outcome (A : Type) :=
| Ok (a : A)
| Throw (e : Error).
Arguments Ok {A} a.
Arguments Throw {A} e.

Section Monad.
Context {host : Host}.

Record Store := mkStore {
  db : Database;
  env : Env
}.

Definition M (A : Type) : Type := Store -> Outcome A * Store * list Event.

Definition ret {A} (a : A) : M A := fun s => (Ok a, s, []).

Definition throw {A} (e : Error) : M A := fun s => (Throw e, s, []).

Definition bind {A B} (m : M A) (f : A -> M B) : M B :=
  fun s =>
    match m s with
    | (Ok a, s1, ev1) =>
        match f a s1 with
        | (r, s2, ev2) => (r, s2, (ev1 ++ ev2)%list)
        end
    | (Throw e, s1, ev1) => (Throw e, s1, ev1)
    end.

(** [try { m } catch (error) { handler(error) }] *)
Definition tryCatch {A} (m : M A) (handler : Error -> M A) : M A :=
  fun s =>
    match m s with
    | (Ok a, s1, ev1) => (Ok a, s1, ev1)
    | (Throw e, s1, ev1) =>
        match handler e s1 with
        | (r, s2, ev2) => (r, s2, (ev1 ++ ev2)%list)
        end
    end.

(** [await executeCommand(argv, cwd)] *)
Definition executeCommand (argv : list string) (cwd : option string)
  : M string :=
  fun s =>
    match host_execute argv cwd (env s) with
    | (inl out, e') => (Ok out, mkStore (db s) e', [EvExec argv cwd (inl out)])
    | (inr err, e') => (Throw err, mkStore (db s) e', [EvExec argv cwd (inr err)])
    end.

(** [await ensureDirectoryExists(path)] *)
Definition ensureDirectoryExists (path : string) : M unit :=
  fun s =>
    match host_ensureDirectory path (env s) with
    | (inl _, e') => (Ok tt, mkStore (db s) e', [EvEnsureDir path (inl tt)])
    | (inr err, e') => (Throw err, mkStore (db s) e', [EvEnsureDir path (inr err)])
    end.

(** [Date.now()] *)
Definition dateNow : M Z := fun s => (Ok (host_now (env s)), s, []).

(** [logger.info], [logger.warn], [logger.error]; [detail] is the error
    (or its message) passed after the text. *)
Definition logger (lvl : Level) (msg : string) (detail : option string)
  : M unit :=
  fun s => (Ok tt, s, [EvLog lvl msg detail]).

Definition readDb : M Database := fun s => (Ok (db s), s, []).

(** [db.createRepo]: [INSERT OR IGNORE]; when no row was written, the row
    already there for the URL and branch, or an error. *)
Definition createRepo (repo : CreateRepoInput.t) : M Repo.t :=
  fun s =>
    let d := db s in
    if insert_ignored repo (repos d) then
      match getRepoByUrlAndBranch d (CreateRepoInput.repoUrl repo)
                                  (CreateRepoInput.branch repo) with
      | Some existing => (Ok existing, s, [EvInsert repo 0])
      | None => (Throw "Failed to create repo and no existing repo found",
                 s, [EvInsert repo 0])
      end
    else
      let row := insertedRow (repos d) repo in
      let d' := setRepos d (repos d ++ [row])%list in
      match getRepoById d' (RepoRow.id row) with
      | Some newRepo => (Ok newRepo, mkStore d' (env s), [EvInsert repo 1])
      | None => (Throw "TypeError: null is not an object",
                 mkStore d' (env s), [EvInsert repo 1])
      end.

(** [db.updateRepoStatus] *)
Definition updateRepoStatus (id : Z) (status : string) : M unit :=
  fun s => (Ok tt, mkStore (updateRepoStatus_db (db s) id status) (env s),
            [EvUpdateStatus id status]).

(** [db.deleteRepo] *)
Definition deleteRepo (id : Z) : M unit :=
  fun s => (Ok tt, mkStore (deleteRepo_db (db s) id) (env s), [EvDelete id]).

(** [for (const x of xs) { body(x) }] *)
Fixpoint forEach {A} (xs : list A) (body : A -> M unit) : M unit :=
  match xs with
  | [] => ret tt
  | x :: rest => bind (body x) (fun _ => forEach rest body)
  end.

End Monad.

Declare Scope engine_scope.
Delimit Scope engine_scope with engine.
Notation "x <- m ;; k" := (bind m (fun x => k))
  (at level 61, m at next level, right associativity) : engine_scope.
Notation "m ;;; k" := (bind m (fun _ => k))
  (at level 61, right associativity) : engine_scope.
Open Scope engine_scope.

(* ================================================================= *)
(** ** The provisioning engine: [services/repo.ts] *)

Section Engine.
Context {host : Host}.

(** The first capture group of [/\/([^\/]+?)(\.git)?$/] on the text after
    the last slash: the shortest non-empty prefix that is followed by the
    end of the text or by [.git] and the end. *)
Fixpoint stripDotGit (s : string) : string :=
  match s with
  | EmptyString => EmptyString
  | String c r => if r =? ".git" then String c EmptyString
                  else String c (stripDotGit r)
  end.

(** [url.match(/\/([^\/]+?)(\.git)?$/)?.[1]]: the pattern matches exactly
    when the URL has a slash and the text after its last slash is not
    empty. *)
Definition matchRepoName (url : string) : option string :=
  match rev (Js.split "/" url) with
  | last :: _ :: _ => if Js.nonEmpty last then Some (stripDotGit last) else None
  | _ => None
  end.

(** [extractRepoName] *)
Definition extractRepoName (url : string) : M string :=
  match matchRepoName url with
  | Some name => ret name
  | None => now <- dateNow ;; ret ("repo-" ++ Js.ofZ now)
  end.

(** The text [${branch ? `#${branch}` : ''}] of the log lines. *)
Definition branchSuffix (branch : option string) : string :=
  match branch with
  | Some b => if Js.nonEmpty b then "#" ++ b else ""
  | None => ""
  end.

(** [${branch}] where the code has established that [branch] is truthy. *)
Definition branchText (branch : option string) : string :=
  match branch with
  | Some b => b
  | None => "undefined"
  end.

Definition git (repoPath : string) (args : list string) : list string :=
  "git" :: "-C" :: repoPath :: args.

(** [await executeCommand(argv).then(() => yes).catch(() => no)], and the
    [try { await executeCommand(argv); x = yes } catch { x = no }] idiom. *)
Definition succeeds {A} (argv : list string) (cwd : option string)
           (yes no : A) : M A :=
  tryCatch (executeCommand argv cwd ;;; ret yes) (fun _ => ret no).

(* --------------------------------------------------------------- *)
(** *** Worktree safety subroutines *)

(** [pruneWorktreeReferences] *)
Definition pruneWorktreeReferences (baseRepoPath : string) : M unit :=
  tryCatch
    (logger Info ("Pruning worktree references for: " ++ baseRepoPath) None ;;;
     executeCommand (git baseRepoPath ["worktree"; "prune"]) None ;;;
     logger Info "Successfully pruned worktree references" None)
    (fun error =>
       logger Warn "Failed to prune worktree references:" (Some error)).

(** [cleanupStaleWorktree] *)
Definition cleanupStaleWorktree (baseRepoPath worktreePath : string)
  : M bool :=
  tryCatch
    (logger Info ("Cleaning up stale worktree: " ++ worktreePath) None ;;;
     worktreeList <- executeCommand
                       (git baseRepoPath ["worktree"; "list"; "--porcelain"])
                       None ;;
     let lines := filter (fun line => Js.nonEmpty (Js.trim line))
                         (Js.split Js.newline worktreeList) in
     match find (fun line => Js.includes worktreePath line) lines with
     | Some line =>
         logger Info ("Found worktree reference: " ++ line) None ;;;
         executeCommand
           (git baseRepoPath ["worktree"; "remove"; "--force"; worktreePath])
           None ;;;
         logger Info ("Successfully removed worktree: " ++ worktreePath) None ;;;
         ret true
     | None =>
         logger Info ("No worktree reference found for " ++ worktreePath
                      ++ ", attempting prune") None ;;;
         pruneWorktreeReferences baseRepoPath ;;;
         ret true
     end)
    (fun error =>
       logger Warn ("Failed to cleanup worktree " ++ worktreePath ++ ":")
              (Some error) ;;;
       ret false).

Definition maxRetries : nat := 3.

(** The text [(attempt ${attempt}/${maxRetries})]. *)
Definition attemptText (attempt : nat) : string :=
  "(attempt " ++ Js.ofNat attempt ++ "/" ++ Js.ofNat maxRetries ++ ")".

(** The [git worktree add] command of one attempt: lines 582 and 585. *)
Definition worktreeAddCommand (baseRepoPath worktreePath branch : string)
           (branchExists : bool) : list string :=
  if branchExists
  then git baseRepoPath ["worktree"; "add"; worktreePath; branch]
  else git baseRepoPath ["worktree"; "add"; "-b"; branch; worktreePath].

(** How one iteration of the retry loop ends, when it does not throw. *)
Inductive Iteration := Returned | NextAttempt.

(** The body of [for (let attempt = 1; attempt <= maxRetries; attempt++)]. *)
Definition worktreeAttempt (baseRepoPath worktreePath branch : string)
           (branchExists : bool) (attempt : nat) : M Iteration :=
  tryCatch
    (logger Info ("Creating worktree " ++ attemptText attempt ++ ": "
                  ++ branch ++ " -> " ++ worktreePath) None ;;;
     (if branchExists then
        executeCommand
          (git baseRepoPath ["worktree"; "add"; worktreePath; branch]) None ;;;
        ret tt
      else
        logger Info ("Branch '" ++ branch
                     ++ "' does not exist, creating it in worktree") None ;;;
        executeCommand
          (git baseRepoPath ["worktree"; "add"; "-b"; branch; worktreePath])
          None ;;;
        ret tt) ;;;
     logger Info ("Successfully created worktree: " ++ worktreePath) None ;;;
     ret Returned)
    (fun error =>
       let isLastAttempt := (attempt =? maxRetries)%nat in
       let errorMessage := error in
       if Js.includes "already used by worktree" errorMessage then
         logger Warn ("Worktree already exists, attempting cleanup "
                      ++ attemptText attempt) None ;;;
         cleaned <- cleanupStaleWorktree baseRepoPath worktreePath ;;
         if negb cleaned && isLastAttempt then
           throw ("Failed to create worktree: '" ++ branch
                  ++ "' is already used by a worktree and cleanup failed. Manual intervention may be required.")
         else if negb cleaned then
           logger Warn "Cleanup failed, will retry..." None ;;;
           ret NextAttempt
         else ret NextAttempt
       else if isLastAttempt then
         throw ("Failed to create worktree after " ++ Js.ofNat maxRetries
                ++ " attempts: " ++ errorMessage)
       else
         logger Warn ("Worktree creation failed " ++ attemptText attempt
                      ++ ": " ++ errorMessage ++ ", retrying...") None ;;;
         ret NextAttempt).

(** The retry loop.  [remaining] counts the iterations that are left:
    with [attempt + remaining = maxRetries + 1] the loop condition
    [attempt <= maxRetries] holds exactly when [remaining] is not 0. *)
Fixpoint worktreeRetryLoop (baseRepoPath worktreePath branch : string)
         (branchExists : bool) (remaining attempt : nat) : M unit :=
  match remaining with
  | 0 => ret tt
  | S k =>
      it <- worktreeAttempt baseRepoPath worktreePath branch branchExists
                            attempt ;;
      match it with
      | Returned => ret tt
      | NextAttempt =>
          worktreeRetryLoop baseRepoPath worktreePath branch branchExists
                            k (S attempt)
      end
  end.

(** Lines 547-560 of [createWorktreeSafely]: when the base repository is
    on the requested branch, it is switched away from it. *)
Definition switchAwayIfCheckedOut (baseRepoPath branch : string) : M unit :=
  currentBranch <- executeCommand
                     (git baseRepoPath ["rev-parse"; "--abbrev-ref"; "HEAD"])
                     None ;;
  if Js.trim currentBranch =? branch then
    logger Info ("Branch '" ++ branch
                 ++ "' is checked out in main repo, switching away...")
           None ;;;
    defaultBranch <-
      tryCatch
        (ref <- executeCommand
                  (git baseRepoPath
                       ["rev-parse"; "--abbrev-ref"; "origin/HEAD"]) None ;;
         ret (Js.replace "origin/" "" (Js.trim ref)))
        (fun _ => ret "main") ;;
    tryCatch
      (executeCommand (git baseRepoPath ["checkout"; defaultBranch]) None ;;;
       ret tt)
      (fun _ =>
         logger Warn ("Could not switch to " ++ defaultBranch
                      ++ ", trying 'main'") None ;;;
         executeCommand (git baseRepoPath ["checkout"; "main"]) None ;;;
         ret tt)
  else ret tt.

(** Lines 562-573: does the branch exist, locally or on the remote? *)
Definition branchExistsAnywhere (baseRepoPath branch : string) : M bool :=
  tryCatch
    (executeCommand
       (git baseRepoPath ["rev-parse"; "--verify"; "refs/heads/" ++ branch])
       None ;;;
     ret true)
    (fun _ =>
       succeeds
         (git baseRepoPath
              ["rev-parse"; "--verify"; "refs/remotes/origin/" ++ branch])
         None true false).

(** [createWorktreeSafely] *)
Definition createWorktreeSafely (baseRepoPath worktreePath branch : string)
  : M unit :=
  switchAwayIfCheckedOut baseRepoPath branch ;;;
  branchExists <- branchExistsAnywhere baseRepoPath branch ;;
  worktreeRetryLoop baseRepoPath worktreePath branch branchExists
                    maxRetries 1.

(* --------------------------------------------------------------- *)
(** *** Branch operations *)

(** [getCurrentBranch] *)
Definition getCurrentBranch (repo : Repo.t) : M (option string) :=
  tryCatch
    (let repoPath := path_resolve [getReposPath; Repo.localPath repo] in
     currentBranch <- executeCommand
                        (git repoPath ["rev-parse"; "--abbrev-ref"; "HEAD"])
                        None ;;
     ret (Some (Js.trim currentBranch)))
    (fun error =>
       logger Warn ("Failed to get current branch for repo "
                    ++ Js.ofZ (Repo.id repo) ++ ":") (Some error) ;;;
       ret None).

(** The branch resolution shared by [switchBranch] and the re-use of an
    existing clone: which [git checkout] to run. *)
Definition checkoutResolved (repoPath branch : string)
           (localBranchExists remoteBranchExists : bool) : M unit :=
  if localBranchExists then
    logger Info ("Checking out existing local branch: " ++ branch) None ;;;
    executeCommand (git repoPath ["checkout"; branch]) None ;;;
    ret tt
  else if remoteBranchExists then
    logger Info ("Checking out remote branch: " ++ branch) None ;;;
    executeCommand
      (git repoPath ["checkout"; "-b"; branch; "origin/" ++ branch]) None ;;;
    ret tt
  else
    logger Info ("Creating new branch: " ++ branch) None ;;;
    executeCommand (git repoPath ["checkout"; "-b"; branch]) None ;;;
    ret tt.

(** [switchBranch] *)
Definition switchBranch (repoId : Z) (branch : string) : M unit :=
  database <- readDb ;;
  match getRepoById database repoId with
  | None => throw ("Repo not found: " ++ Js.ofZ repoId)
  | Some repo =>
      tryCatch
        (let repoPath := path_resolve [getReposPath; Repo.localPath repo] in
         logger Info ("Switching to branch: " ++ branch ++ " in "
                      ++ Repo.localPath repo) None ;;;
         executeCommand (git repoPath ["fetch"; "--all"]) None ;;;
         localBranchExists <-
           succeeds (git repoPath
                         ["rev-parse"; "--verify"; "refs/heads/" ++ branch])
                    None true false ;;
         remoteBranchExists <-
           succeeds (git repoPath
                         ["rev-parse"; "--verify";
                          "refs/remotes/origin/" ++ branch])
                    None true false ;;
         checkoutResolved repoPath branch localBranchExists
                          remoteBranchExists ;;;
         logger Info ("Successfully switched to branch: " ++ branch) None)
        (fun error =>
           logger Err ("Failed to switch branch for repo " ++ Js.ofZ repoId
                       ++ ":") (Some error) ;;;
           throw error)
  end.

(* --------------------------------------------------------------- *)
(** *** Provisioning: [cloneRepo] *)

Definition testDirCommand (dirName absent : string) : list string :=
  ["bash"; "-c"; "test -d " ++ dirName ++ " && echo exists || echo " ++ absent].

(** Lines 81-94 and 171-184: an existing workspace directory is removed,
    and the removal is verified.  The two places differ in the working
    directory of the first test only. *)
Definition removeExistingWorkspaceDir (worktreeDirName : string)
           (testCwd : string) : M unit :=
  worktreeExists <- executeCommand (testDirCommand worktreeDirName "missing")
                                   (Some testCwd) ;;
  if Js.trim worktreeExists =? "exists" then
    logger Info ("Workspace directory exists, removing it: "
                 ++ worktreeDirName) None ;;;
    tryCatch
      (executeCommand ["rm"; "-rf"; worktreeDirName] (Some getReposPath) ;;;
       verifyRemoved <- executeCommand
                          (testDirCommand worktreeDirName "removed")
                          (Some getReposPath) ;;
       if Js.trim verifyRemoved =? "exists" then
         throw ("Failed to remove existing directory: " ++ worktreeDirName)
       else ret tt)
      (fun cleanupError =>
         logger Err ("Failed to clean up existing directory: "
                     ++ worktreeDirName) (Some cleanupError) ;;;
         throw ("Cannot clone: directory " ++ worktreeDirName
                ++ " exists and could not be removed"))
  else ret tt.

(** Lines 106-119 and 200-214: clone the default branch, then create the
    requested branch or check it out when the clone already has it. *)
Definition cloneDefaultThenBranch (cloneUrl worktreeDirName branch : string)
  : M unit :=
  executeCommand ["git"; "clone"; cloneUrl; worktreeDirName]
                 (Some getReposPath) ;;;
  let repoPath := path_resolve [getReposPath; worktreeDirName] in
  localBranchExists <-
    succeeds (git repoPath ["rev-parse"; "--verify"; "refs/heads/" ++ branch])
             None "exists" "missing" ;;
  if Js.trim localBranchExists =? "missing" then
    executeCommand (git repoPath ["checkout"; "-b"; branch]) None ;;; ret tt
  else
    executeCommand (git repoPath ["checkout"; branch]) None ;;; ret tt.

Definition destinationExists (message : string) : bool :=
  Js.includes "destination path" message &&
  Js.includes "already exists" message.

(** Lines 58-76: the worktree path. *)
Definition cloneViaWorktree (branch : option string)
           (baseRepoDirName worktreeDirName : string) : M unit :=
  logger Info ("Creating worktree for branch: " ++ branchText branch) None ;;;
  let baseRepoPath := path_resolve [getReposPath; baseRepoDirName] in
  let worktreePath := path_resolve [getReposPath; worktreeDirName] in
  executeCommand (git baseRepoPath ["fetch"; "--all"]) None ;;;
  createWorktreeSafely baseRepoPath worktreePath (branchText branch) ;;;
  worktreeVerified <- succeeds ["test"; "-d"; worktreePath] None true false ;;
  if negb worktreeVerified then
    throw ("Worktree directory was not created at: " ++ worktreePath)
  else
    logger Info ("Worktree verified at: " ++ worktreePath) None.

(** Lines 78-120: the branch is cloned on its own. *)
Definition cloneBranchSeparately (branch : option string)
           (cloneUrl worktreeDirName : string) : M unit :=
  logger Info
    "Base repo exists but worktree creation failed, cloning branch separately"
    None ;;;
  removeExistingWorkspaceDir worktreeDirName (path_resolve [getReposPath]) ;;;
  tryCatch
    (executeCommand
       ["git"; "clone"; "-b"; branchText branch; cloneUrl; worktreeDirName]
       (Some getReposPath) ;;;
     ret tt)
    (fun error =>
       if destinationExists error then
         logger Err "Clone failed: directory still exists after cleanup attempt"
                None ;;;
         throw ("Workspace directory " ++ worktreeDirName
                ++ " already exists. Please delete it manually or contact support.")
       else
         logger Info ("Branch '" ++ branchText branch
                      ++ "' not found during clone, cloning default branch and creating branch locally")
                None ;;;
         cloneDefaultThenBranch cloneUrl worktreeDirName (branchText branch)).

(** Lines 129-159: an existing clone is put on the requested branch. *)
Definition switchExistingClone (basePath : string) (branch : option string)
  : M unit :=
  if Js.truthy branch then
    let b := branchText branch in
    logger Info ("Switching to branch: " ++ b) None ;;;
    executeCommand (git basePath ["fetch"; "--all"]) None ;;;
    remoteBranchExists <-
      succeeds (git basePath ["rev-parse"; "--verify";
                              "refs/remotes/origin/" ++ b])
               None true false ;;
    localBranchExists <-
      succeeds (git basePath ["rev-parse"; "--verify"; "refs/heads/" ++ b])
               None true false ;;
    checkoutResolved basePath b localBranchExists remoteBranchExists
  else ret tt.

(** Lines 122-167: an existing base directory is re-used when it is a git
    repository ([Some] of the workspace returned early), removed
    otherwise. *)
Definition reuseExistingClone (repo : Repo.t) (repoUrl : string)
           (branch : option string) (baseRepoDirName : string)
  : M (option Repo.t) :=
  logger Info ("Repository directory already exists, verifying it's a valid git repo: "
               ++ baseRepoDirName) None ;;;
  let basePath := path_resolve [getReposPath; baseRepoDirName] in
  isValidRepo <- succeeds (git basePath ["rev-parse"; "--git-dir"])
                          (Some (path_resolve [getReposPath]))
                          "valid" "invalid" ;;
  if Js.trim isValidRepo =? "valid" then
    logger Info ("Valid repository found: " ++ repoUrl) None ;;;
    switchExistingClone basePath branch ;;;
    updateRepoStatus (Repo.id repo) "ready" ;;;
    ret (Some (Repo.withCloneStatus repo "ready"))
  else
    logger Warn ("Invalid repository directory found, removing and recloning: "
                 ++ baseRepoDirName) None ;;;
    executeCommand ["rm"; "-rf"; baseRepoDirName] (Some getReposPath) ;;;
    ret None.

(** Lines 169-218: a fresh clone. *)
Definition cloneFresh (repoUrl : string) (branch : option string)
           (cloneUrl worktreeDirName : string) : M unit :=
  logger Info ("Cloning repo: " ++ repoUrl
               ++ (if Js.truthy branch
                   then " to branch " ++ branchText branch else ""))
         None ;;;
  removeExistingWorkspaceDir worktreeDirName getReposPath ;;;
  tryCatch
    (let cloneCmd :=
       if Js.truthy branch
       then ["git"; "clone"; "-b"; branchText branch; cloneUrl; worktreeDirName]
       else ["git"; "clone"; cloneUrl; worktreeDirName] in
     executeCommand cloneCmd (Some getReposPath) ;;;
     ret tt)
    (fun error =>
       if destinationExists error then
         logger Err "Clone failed: directory still exists after cleanup attempt"
                None ;;;
         throw ("Workspace directory " ++ worktreeDirName
                ++ " already exists. Please delete it manually or contact support.")
       else if Js.truthy branch &&
               (Js.includes "Remote branch" error
                || Js.includes "not found" error) then
         logger Info ("Branch '" ++ branchText branch
                      ++ "' not found, cloning default branch and creating branch locally")
                None ;;;
         cloneDefaultThenBranch cloneUrl worktreeDirName (branchText branch)
       else throw error).

(** [shouldUseWorktree], line 32, as a truth value. *)
Definition shouldUseWorktree (useWorktree : bool) (branch : option string)
           (baseRepoExists : string) : bool :=
  useWorktree && Js.truthy branch && (Js.trim baseRepoExists =? "exists").

(** The guard of the [else if] of line 78, as a truth value. *)
Definition separateCloneGuard (useWorktree : bool) (branch : option string)
           (baseRepoExists : string) : bool :=
  Js.truthy branch && (Js.trim baseRepoExists =? "exists") && useWorktree.

(** Lines 54-56: the URL handed to [git clone]. *)
Definition cloneUrlOf (token : option string) (repoUrl : string) : string :=
  if Js.truthy token && Js.startsWith "https://github.com" repoUrl
  then Js.replace "https://" ("https://" ++ Js.orElse token "" ++ "@") repoUrl
  else repoUrl.

(** Lines 121-219, the final [else]: an existing clone is re-used, or a
    fresh clone is made; [Some] is the workspace that the re-use returns
    early. *)
Definition cloneOrReuse (repo : Repo.t) (repoUrl : string)
           (branch : option string)
           (baseRepoExists baseRepoDirName worktreeDirName cloneUrl : string)
  : M (option Repo.t) :=
  reused <-
    (if Js.trim baseRepoExists =? "exists"
     then reuseExistingClone repo repoUrl branch baseRepoDirName
     else ret None) ;;
  match reused with
  | Some ready => ret (Some ready)
  | None =>
      cloneFresh repoUrl branch cloneUrl worktreeDirName ;;; ret None
  end.

(** Lines 58-219: the [if], [else if], [else] of the provisioning
    paths. *)
Definition cloneRepoPath (repo : Repo.t) (repoUrl : string)
           (branch : option string) (useWorktree : bool)
           (baseRepoExists baseRepoDirName worktreeDirName cloneUrl : string)
  : M (option Repo.t) :=
  if shouldUseWorktree useWorktree branch baseRepoExists then
    cloneViaWorktree branch baseRepoDirName worktreeDirName ;;; ret None
  else if separateCloneGuard useWorktree branch baseRepoExists then
    cloneBranchSeparately branch cloneUrl worktreeDirName ;;; ret None
  else
    cloneOrReuse repo repoUrl branch baseRepoExists baseRepoDirName
                 worktreeDirName cloneUrl.

(** Lines 50-223: the body of the [try]. *)
Definition cloneRepoBody (repo : Repo.t) (repoUrl : string)
           (branch : option string) (useWorktree : bool)
           (baseRepoExists baseRepoDirName worktreeDirName : string)
  : M Repo.t :=
  database <- readDb ;;
  let cloneUrl := cloneUrlOf (gitToken database) repoUrl in
  early <- cloneRepoPath repo repoUrl branch useWorktree baseRepoExists
                         baseRepoDirName worktreeDirName cloneUrl ;;
  match early with
  | Some ready => ret ready
  | None =>
      updateRepoStatus (Repo.id repo) "ready" ;;;
      logger Info ("Repo ready: " ++ repoUrl ++ branchSuffix branch
                   ++ (if shouldUseWorktree useWorktree branch baseRepoExists
                       then " (worktree)" else "")) None ;;;
      ret (Repo.withCloneStatus repo "ready")
  end.

(** Lines 34-45: the row to insert. *)
Definition createRepoInput (repoUrl localPath : string)
           (branch : option string) (useWorktree : bool)
           (baseRepoExists : string) (now : Z) : CreateRepoInput.t :=
  let input := CreateRepoInput.mk repoUrl localPath (Js.orUndefined branch)
                                  (Js.orElse branch "main") "cloning" now
                                  None in
  if shouldUseWorktree useWorktree branch baseRepoExists
  then CreateRepoInput.flagWorktree input
  else input.

(** Line 19: the directory name of the workspace. *)
Definition worktreeDirNameOf (repoName : string) (branch : option string)
           (useWorktree : bool) : string :=
  if Js.truthy branch && useWorktree
  then repoName ++ "-" ++ Js.replaceSlashes (branchText branch)
  else repoName.

(** [cloneRepo] *)
Definition cloneRepo (repoUrl : string) (branch : option string)
           (useWorktree : bool) : M Repo.t :=
  repoName <- extractRepoName repoUrl ;;
  let baseRepoDirName := repoName in
  let worktreeDirName := worktreeDirNameOf repoName branch useWorktree in
  let localPath := worktreeDirName in
  database <- readDb ;;
  match getRepoByUrlAndBranch database repoUrl branch with
  | Some existing =>
      logger Info ("Repo branch already exists: " ++ repoUrl
                   ++ branchSuffix branch) None ;;;
      ret existing
  | None =>
      ensureDirectoryExists getReposPath ;;;
      baseRepoExists <- executeCommand
                          (testDirCommand baseRepoDirName "missing")
                          (Some (path_resolve [getReposPath])) ;;
      now <- dateNow ;;
      repo <- createRepo (createRepoInput repoUrl localPath branch
                                          useWorktree baseRepoExists now) ;;
      tryCatch
        (cloneRepoBody repo repoUrl branch useWorktree baseRepoExists
                       baseRepoDirName worktreeDirName)
        (fun error =>
           logger Err ("Failed to create repo: " ++ repoUrl
                       ++ branchSuffix branch) (Some error) ;;;
           deleteRepo (Repo.id repo) ;;;
           throw error)
  end.

(* --------------------------------------------------------------- *)
(** *** Deletion: [deleteRepoFiles] *)

(** [repo.isWorktree && repo.branch] *)
Definition isBranchWorktree (repo : Repo.t) : bool :=
  match Repo.isWorktree repo with
  | Some true => Js.truthy (Repo.branch repo)
  | _ => false
  end.

(** [repo.localPath.split('/').pop() || repo.localPath] *)
Definition dirNameOf (repo : Repo.t) : string :=
  Js.orElse (Js.pop (Js.split "/" (Repo.localPath repo))) (Repo.localPath repo).

(** Lines 350-381: the worktree is unregistered from the base repository,
    gracefully, then by force, then by force after a prune; a failure of
    all three is logged only. *)
Definition removeWorktreeRegistration (baseRepoPath fullPath dirName : string)
  : M unit :=
  logger Info ("Removing worktree: " ++ dirName ++ " from base repo: "
               ++ baseRepoPath) None ;;;
  tryCatch
    (executeCommand (git baseRepoPath ["worktree"; "remove"; fullPath]) None ;;;
     logger Info ("Successfully removed worktree: " ++ dirName) None)
    (fun worktreeError =>
       logger Warn ("Failed to remove worktree with normal command, trying force: "
                    ++ worktreeError) None ;;;
       tryCatch
         (executeCommand
            (git baseRepoPath ["worktree"; "remove"; "--force"; fullPath])
            None ;;;
          logger Info ("Successfully force-removed worktree: " ++ dirName) None)
         (fun forceError =>
            logger Warn ("Force worktree removal failed, trying prune: "
                         ++ forceError) None ;;;
            tryCatch
              (executeCommand (git baseRepoPath ["worktree"; "prune"]) None ;;;
               executeCommand
                 (git baseRepoPath ["worktree"; "remove"; "--force"; fullPath])
                 None ;;;
               logger Info ("Successfully removed worktree after prune: "
                            ++ dirName) None)
              (fun pruneError =>
                 logger Err ("All worktree removal methods failed: "
                             ++ pruneError) None))).

(** [deleteRepoFiles] *)
Definition deleteRepoFiles (repoId : Z) : M unit :=
  database <- readDb ;;
  match getRepoById database repoId with
  | None => throw ("Repo not found: " ++ Js.ofZ repoId)
  | Some repo =>
      tryCatch
        (logger Info ("Deleting repo files: " ++ Repo.repoUrl repo) None ;;;
         let dirName := dirNameOf repo in
         let fullPath := path_resolve [getReposPath; dirName] in
         (if isBranchWorktree repo then
            repoName <- extractRepoName (Repo.repoUrl repo) ;;
            let baseRepoPath := path_resolve [getReposPath; repoName] in
            removeWorktreeRegistration baseRepoPath fullPath dirName
          else ret tt) ;;;
         logger Info ("Removing directory: " ++ dirName ++ " from "
                      ++ getReposPath) None ;;;
         executeCommand ["rm"; "-rf"; dirName] (Some getReposPath) ;;;
         checkExists <- executeCommand (testDirCommand dirName "deleted")
                                       (Some getReposPath) ;;
         (if Js.trim checkExists =? "exists" then
            logger Err ("Directory still exists after deletion: " ++ dirName)
                   None ;;;
            throw ("Failed to delete workspace directory: " ++ dirName)
          else ret tt) ;;;
         (if isBranchWorktree repo then
            repoName <- extractRepoName (Repo.repoUrl repo) ;;
            let baseRepoPath := path_resolve [getReposPath; repoName] in
            tryCatch
              (logger Info ("Pruning worktree references in base repo: "
                            ++ baseRepoPath) None ;;;
               executeCommand (git baseRepoPath ["worktree"; "prune"]) None ;;;
               ret tt)
              (fun pruneError =>
                 logger Warn ("Failed to prune worktree references: "
                              ++ pruneError) None)
          else ret tt) ;;;
         deleteRepo repoId ;;;
         logger Info ("Repo deleted successfully: " ++ Repo.repoUrl repo) None)
        (fun error =>
           logger Err ("Failed to delete repo: " ++ Repo.repoUrl repo)
                  (Some error) ;;;
           throw error)
  end.

(* --------------------------------------------------------------- *)
(** *** Orphan reconciliation: [cleanupOrphanedDirectories] *)

(** [dirResult.split('\n').filter(d => d.trim())] *)
Definition listedDirectories (dirResult : string) : list string :=
  filter (fun d => Js.nonEmpty (Js.trim d)) (Js.split Js.newline dirResult).

(** [new Set(allRepos.map(r => r.localPath.split('/').pop()))]: the set is
    only asked for membership, so the list of its elements stands for it. *)
Definition trackedPaths (allRepos : list Repo.t) : list (option string) :=
  map (fun r => Js.pop (Js.split "/" (Repo.localPath r))) allRepos.

(** [trackedPaths.has(dir)] *)
Definition isTracked (tracked : list (option string)) (dir : string) : bool :=
  existsb (fun t => match t with
                    | Some name => name =? dir
                    | None => false
                    end) tracked.

(** [directories.filter(dir => !trackedPaths.has(dir))] *)
Definition orphanedDirs (directories : list string)
           (tracked : list (option string)) : list string :=
  filter (fun dir => negb (isTracked tracked dir)) directories.

(** The body of the removal loop, with its own [try]. *)
Definition removeOrphan (reposPath dir : string) : M unit :=
  tryCatch
    (logger Info ("Removing orphaned directory: " ++ dir) None ;;;
     executeCommand ["rm"; "-rf"; dir] (Some reposPath) ;;;
     ret tt)
    (fun error =>
       logger Warn ("Failed to remove orphaned directory " ++ dir ++ ":")
              (Some error)).

(** [cleanupOrphanedDirectories] *)
Definition cleanupOrphanedDirectories : M unit :=
  tryCatch
    (let reposPath := getReposPath in
     ensureDirectoryExists reposPath ;;;
     dirResult <- tryCatch (executeCommand ["ls"; "-1"] (Some reposPath))
                           (fun _ => ret "") ;;
     let directories := listedDirectories dirResult in
     if (List.length directories =? 0)%nat then ret tt
     else
       database <- readDb ;;
       let allRepos := listRepos database in
       let tracked := trackedPaths allRepos in
       let orphaned := orphanedDirs directories tracked in
       if (0 <? List.length orphaned)%nat then
         logger Info ("Found " ++ Js.ofNat (List.length orphaned)
                      ++ " orphaned directories: " ++ Js.join ", " orphaned)
                None ;;;
         forEach orphaned (removeOrphan reposPath)
       else ret tt)
    (fun error =>
       logger Warn "Failed to cleanup orphaned directories:" (Some error)).

End Engine.

(* ================================================================= *)
(** ** Observations on a run *)

Definition outcomeOf {A S} (r : Outcome A * S * list Event) : Outcome A :=
  fst (fst r).
Definition storeOf {A S} (r : Outcome A * S * list Event) : S :=
  snd (fst r).
Definition eventsOf {A S} (r : Outcome A * S * list Event) : list Event :=
  snd r.

(** The commands a run executed, with their results, in order. *)
Fixpoint execs (evs : list Event) : list (list string * (string + Error)) :=
  match evs with
  | [] => []
  | EvExec argv _ res :: rest => (argv, res) :: execs rest
  | _ :: rest => execs rest
  end.

(** The commands alone. *)
Definition commands (evs : list Event) : list (list string) :=
  map fst (execs evs).

(** The commands of a run, each with the working directory it was given,
    in order. *)
Fixpoint invocations (evs : list Event)
  : list (list string * option string) :=
  match evs with
  | [] => []
  | EvExec argv cwd _ :: rest => (argv, cwd) :: invocations rest
  | _ :: rest => invocations rest
  end.

Definition succeeded {A} (res : A + Error) : bool :=
  match res with
  | inl _ => true
  | inr _ => false
  end.

(** The checkout that the branch resolution tie-break asks for. *)
Definition resolvedCheckout (repoPath branch : string)
           (localExists remoteExists : bool) : list string :=
  if localExists then git repoPath ["checkout"; branch]
  else if remoteExists
       then git repoPath ["checkout"; "-b"; branch; "origin/" ++ branch]
       else git repoPath ["checkout"; "-b"; branch].

(** The command that removes one directory of the workspaces root. *)
Definition removalCommand (dir : string) : list string := ["rm"; "-rf"; dir].

(** The text after the last slash of a path. *)
Definition lastSegment (localPath : string) : option string :=
  Js.pop (Js.split "/" localPath).

(** What [ls -1] reported: its output, or nothing when it failed. *)
Definition listingOf (res : string + Error) : string :=
  match res with
  | inl out => out
  | inr _ => ""
  end.

(** The default branch that [createWorktreeSafely] switches to, from the
    result of the [origin/HEAD] lookup. *)
Definition defaultBranchOf (resolution : string + Error) : string :=
  match resolution with
  | inl ref => Js.replace "origin/" "" (Js.trim ref)
  | inr _ => "main"
  end.

(** The base repository was switched to [target]: the checkout succeeded. *)
Definition switchedTo (baseRepoPath target : string) (e : Event) : Prop :=
  exists out,
    e = EvExec (git baseRepoPath ["checkout"; target]) None (inl out).

(** A worktree-creation attempt in the base repository. *)
Definition isWorktreeAdd (baseRepoPath : string) (e : Event) : Prop :=
  exists args cwd res,
    e = EvExec (git baseRepoPath ("worktree" :: "add" :: args)) cwd res.

(** The same, as a test on a command line. *)
Definition isWorktreeAddCommand (argv : list string) : bool :=
  match argv with
  | g :: c :: _ :: w :: a :: _ =>
      (g =? "git") && (c =? "-C") && (w =? "worktree") && (a =? "add")
  | _ => false
  end.

(** The results of the worktree-creation attempts of a run, in order. *)
Definition worktreeAddResults (evs : list Event) : list (string + Error) :=
  map snd (filter (fun x => isWorktreeAddCommand (fst x)) (execs evs)).


(** The log line that opens the separate clone of lines 78-120. *)
Definition isSeparateCloneLog (msg : string) : bool :=
  msg =? "Base repo exists but worktree creation failed, cloning branch separately".

(** The log line that opens the worktree path of lines 58-76. *)
Definition isWorktreePathLog (msg : string) : bool :=
  Js.startsWith "Creating worktree for branch: " msg.

(** Events of the steps that only run commands and write log lines, none of
    which is a [forbidden] one. *)
Definition benign (forbidden : string -> bool) (e : Event) : Prop :=
  match e with
  | EvLog _ msg _ => forbidden msg = false
  | EvInsert _ _ => False
  | EvDelete _ => False
  | _ => True
  end.

(** The log line of the short-circuit of [cloneRepo]. *)
Definition alreadyExistsLog (repoUrl : string) (branch : option string)
  : Event :=
  EvLog Info ("Repo branch already exists: " ++ repoUrl ++ branchSuffix branch)
        None.


(** A log line that opens the separate clone of lines 78-120. *)
Definition entersSeparateClone (e : Event) : Prop :=
  exists lvl msg detail, e = EvLog lvl msg detail /\ isSeparateCloneLog msg = true.


(** A row is deleted. *)
Definition isDelete (e : Event) : Prop := exists id, e = EvDelete id.

(** No [B]-event of the list occurs before its first [A]-event; there is
    none at all when no [A]-event occurs. *)
Fixpoint comesAfter (A B : Event -> Prop) (evs : list Event) : Prop :=
  match evs with
  | [] => True
  | e :: rest => ~ B e /\ (A e \/ comesAfter A B rest)
  end.

Section Observations.
Context {host : Host}.

(** The directory of a workspace under the workspaces root. *)
Definition repoPathOf (repo : Repo.t) : string :=
  path_resolve [getReposPath; Repo.localPath repo].

(** The HEAD lookup of [getCurrentBranch]. *)
Definition headCommand (repo : Repo.t) : list string :=
  git (repoPathOf repo) ["rev-parse"; "--abbrev-ref"; "HEAD"].

(** The existence check of [deleteRepoFiles] answered that the directory
    is gone (anything but [exists]). *)
Definition confirmsGone (dirName : string) (e : Event) : Prop :=
  exists out,
    e = EvExec (testDirCommand dirName "deleted") (Some getReposPath) (inl out)
    /\ Js.trim out <> "exists".

(** The existence check answered that the directory is still there. *)
Definition reportsPresent (dirName : string) (e : Event) : Prop :=
  exists out,
    e = EvExec (testDirCommand dirName "deleted") (Some getReposPath) (inl out)
    /\ Js.trim out = "exists".

(** C6 as the spec words it: whenever HEAD of the base repository is on
    the requested branch, every worktree-creation attempt comes after a
    successful checkout of the default branch. *)
Definition switchesToDefaultFirst (base wt branch : string) (s : Store)
  : Prop :=
  forall out env1,
    host_execute (git base ["rev-parse"; "--abbrev-ref"; "HEAD"]) None (env s)
      = (inl out, env1) ->
    Js.trim out = branch ->
    comesAfter
      (switchedTo base
         (defaultBranchOf
            (fst (host_execute
                    (git base ["rev-parse"; "--abbrev-ref"; "origin/HEAD"])
                    None env1))))
      (isWorktreeAdd base)
      (eventsOf (createWorktreeSafely base wt branch s)).


(** A computation that leaves the table alone and whose events are all
    benign. *)
Definition quiet (forbidden : string -> bool) {A} (m : M A) : Prop :=
  forall s, db (storeOf (m s)) = db s
            /\ Forall (benign forbidden) (eventsOf (m s)).

(** What a provisioning path leaves behind: benign events; the table as it
    was, except that a workspace returned early has been marked ready. *)
Definition settled (forbidden : string -> bool) (repo : Repo.t) (s : Store)
           (o : Outcome (option Repo.t)) (s' : Store) (evs : list Event)
  : Prop :=
  Forall (benign forbidden) evs
  /\ match o with
     | Ok (Some ready) =>
         ready = Repo.withCloneStatus repo "ready"
         /\ db s' = updateRepoStatus_db (db s) (Repo.id repo) "ready"
     | Ok None => db s' = db s
     | Throw _ => db s' = db s
     end.

(** The repository name [cloneRepo] works with: the name in the URL, or
    [repo-] and the time of the call. *)
Definition repoNameAt (repoUrl : string) (s : Store) : string :=
  match matchRepoName repoUrl with
  | Some name => name
  | None => "repo-" ++ Js.ofZ (host_now (env s))
  end.

(** The events of [cloneRepo] up to and including the insertion. *)
Definition insertionEvents (repoName out : string)
           (input : CreateRepoInput.t) (changes : nat) : list Event :=
  [ EvEnsureDir getReposPath (inl tt);
    EvExec (testDirCommand repoName "missing")
           (Some (path_resolve [getReposPath])) (inl out);
    EvInsert input changes ].

(** The log line of the [catch] of [cloneRepo]. *)
Definition failureLog (repoUrl : string) (branch : option string)
           (error : Error) : Event :=
  EvLog Err ("Failed to create repo: " ++ repoUrl ++ branchSuffix branch)
        (Some error).



(** The shapes a run of [cloneRepo] can take. *)
Inductive CloneRun (repoUrl : string) (branch : option string)
          (useWorktree : bool) (s : Store)
  : Outcome Repo.t -> Store -> list Event -> Prop :=
| RunExisting : forall existing,
    getRepoByUrlAndBranch (db s) repoUrl branch = Some existing ->
    CloneRun repoUrl branch useWorktree s (Ok existing) s
             [EvLog Info ("Repo branch already exists: " ++ repoUrl
                          ++ branchSuffix branch) None]
| RunNoRoot : forall e env1,
    getRepoByUrlAndBranch (db s) repoUrl branch = None ->
    host_ensureDirectory getReposPath (env s) = (inr e, env1) ->
    CloneRun repoUrl branch useWorktree s (Throw e) (mkStore (db s) env1)
             [EvEnsureDir getReposPath (inr e)]
| RunNoTest : forall e env1 env2,
    getRepoByUrlAndBranch (db s) repoUrl branch = None ->
    host_ensureDirectory getReposPath (env s) = (inl tt, env1) ->
    host_execute (testDirCommand (repoNameAt repoUrl s) "missing")
                 (Some (path_resolve [getReposPath])) env1 = (inr e, env2) ->
    CloneRun repoUrl branch useWorktree s (Throw e) (mkStore (db s) env2)
             [EvEnsureDir getReposPath (inl tt);
              EvExec (testDirCommand (repoNameAt repoUrl s) "missing")
                     (Some (path_resolve [getReposPath])) (inr e)]
| RunIgnored : forall env1 out env2,
    let repoName := repoNameAt repoUrl s in
    let input := createRepoInput
                   repoUrl (worktreeDirNameOf repoName branch useWorktree)
                   branch useWorktree out (host_now env2) in
    getRepoByUrlAndBranch (db s) repoUrl branch = None ->
    host_ensureDirectory getReposPath (env s) = (inl tt, env1) ->
    host_execute (testDirCommand repoName "missing")
                 (Some (path_resolve [getReposPath])) env1 = (inl out, env2) ->
    insert_ignored input (repos (db s)) = true ->
    CloneRun repoUrl branch useWorktree s
             (Throw "Failed to create repo and no existing repo found")
             (mkStore (db s) env2)
             (insertionEvents repoName out input 0)
| RunBody : forall env1 out env2 ob sb evb,
    let repoName := repoNameAt repoUrl s in
    let dir := worktreeDirNameOf repoName branch useWorktree in
    let input := createRepoInput repoUrl dir branch useWorktree out
                                 (host_now env2) in
    let row := insertedRow (repos (db s)) input in
    let inserted := setRepos (db s) (repos (db s) ++ [row])%list in
    getRepoByUrlAndBranch (db s) repoUrl branch = None ->
    host_ensureDirectory getReposPath (env s) = (inl tt, env1) ->
    host_execute (testDirCommand repoName "missing")
                 (Some (path_resolve [getReposPath])) env1 = (inl out, env2) ->
    insert_ignored input (repos (db s)) = false ->
    cloneRepoBody (rowToRepo row) repoUrl branch useWorktree out repoName dir
                  (mkStore inserted env2) = (ob, sb, evb) ->
    CloneRun repoUrl branch useWorktree s
             ob
             (match ob with
              | Ok _ => sb
              | Throw _ => mkStore (deleteRepo_db (db sb) (RepoRow.id row))
                                   (env sb)
              end)
             (insertionEvents repoName out input 1 ++ evb
              ++ match ob with
                 | Ok _ => []
                 | Throw e => [failureLog repoUrl branch e;
                               EvDelete (RepoRow.id row)]
                 end)%list.

End Observations.

(* ================================================================= *)
(** ** A scripted host, to run the engine on concrete inputs

    The executor answers the n-th command with the n-th entry of a script,
    whatever the command; paths are joined with a slash; a row is refused
    when its directory, or its URL and branch, is already in the table. *)

Module Scripted.

Definition execute (argv : list string) (cwd : option string)
           (script : list (string + Error))
  : (string + Error) * list (string + Error) :=
  match script with
  | r :: rest => (r, rest)
  | [] => (inr "script exhausted", [])
  end.

Definition sameKey (i : CreateRepoInput.t) (row : RepoRow.t) : bool :=
  (RepoRow.local_path row =? CreateRepoInput.localPath i) ||
  ((RepoRow.repo_url row =? CreateRepoInput.repoUrl i) &&
   match RepoRow.branch row, Js.orUndefined (CreateRepoInput.branch i) with
   | Some a, Some b => a =? b
   | _, _ => false
   end).

#[local] Instance host : Host := {
  Env := list (string + Error);
  host_execute := execute;
  host_ensureDirectory := fun _ script => (inl tt, script);
  host_now := fun _ => 1700000000000%Z;
  getReposPath := "/workspace/repos";
  path_resolve := Js.join "/";
  path_join := Js.join "/";
  insert_ignored := fun i rows => existsb (sameKey i) rows
}.

Definition emptyDb : Database := mkDatabase [] None.

(** The output of a command that prints one entry per line. *)
Definition lines (entries : list string) : string :=
  Js.join (String Js.newline EmptyString) entries.

Definition store (d : Database) (script : list (string + Error)) : Store :=
  mkStore d script.

(** A ready workspace row for [https://example.com/acme/app.git]. *)
Definition appRow (id : Z) (localPath : string) (branch : option string)
           (worktree : Z) : RepoRow.t :=
  RepoRow.mk id "https://example.com/acme/app.git" localPath branch
             (Js.orElse branch "main") "ready" 1690000000000%Z None None
             (Some worktree).

End Scripted.

(** Runs of the worktree subroutines on the scripted host. *)
Module Scenario.
Definition base : string := "/workspace/repos/app".
Definition worktree : string := "/workspace/repos/app-feature".

(** The base repository is on [feature]; its default branch [develop] is
    checked out in another worktree, so the checkout of [develop] fails
    and the one of [main] succeeds; the worktree is then created. *)
Definition defaultBusy : Store :=
  Scripted.store Scripted.emptyDb
    [inl "feature"; inl "origin/develop";
     inr "fatal: 'develop' is already used by worktree at '/workspace/repos/app-develop'";
     inl ""; inl "4f2a9c1"; inl "Preparing worktree"].

Definition conflict : string + Error :=
  inr "fatal: 'feature' is already used by worktree at '/workspace/repos/old'".

(** What [git worktree list --porcelain] prints when [feature] is checked
    out in a worktree at another place than the one asked for. *)
Definition listing : string :=
  Scripted.lines
    ["worktree /workspace/repos/app"; "HEAD 4f2a9c1"; "branch refs/heads/main";
     ""; "worktree /workspace/repos/old"; "HEAD 4f2a9c1";
     "branch refs/heads/feature"; ""].

(** The base repository is on [main]; [feature] is checked out in the
    worktree [/workspace/repos/old].  Each of the three attempts fails on
    that conflict, and each cleanup succeeds: the listing does not name the
    requested path, and the prune goes through. *)
Definition heldElsewhere : Store :=
  Scripted.store Scripted.emptyDb
    [inl "main"; inl "4f2a9c1";
     conflict; inl listing; inl "";
     conflict; inl listing; inl "";
     conflict; inl listing; inl ""].
End Scenario.

(** Runs of [cloneRepo] on the scripted host. *)
Module Provision.
#[local] Existing Instance Scripted.host.

Definition url : string := "https://example.com/acme/app.git".

(** Nothing is on disk and the clone fails. *)
Definition cloneFails : Store :=
  Scripted.store Scripted.emptyDb
    [inl "missing"; inl "missing"; inr "fatal: repository not found"].

Definition failedClone : Outcome Repo.t * Store * list Event :=
  cloneRepo url None false cloneFails.

(** Nothing is on disk and the clone succeeds. *)
Definition cloneSucceeds : Store :=
  Scripted.store Scripted.emptyDb
    [inl "missing"; inl "missing"; inl "Cloning into 'app'..."].

Definition freshClone : Outcome Repo.t * Store * list Event :=
  cloneRepo url None false cloneSucceeds.

(** The row of an independent clone of the default branch. *)
Definition appInput : CreateRepoInput.t :=
  createRepoInput url "app" None false "missing" 1700000000000%Z.

Definition appReady : Repo.t :=
  Repo.withCloneStatus (rowToRepo (insertedRow [] appInput)) "ready".


End Provision.

(* ================================================================= *)
(** ** The rest of the record store and of the engine *)

(** [Array.from(new Set(xs))]: the elements of [xs] in the order of their
    first occurrence, each once. *)
Definition setFrom (xs : list string) : list string :=
  fold_left (fun acc x => if existsb (String.eqb x) acc then acc
                          else (acc ++ [x])%list)
            xs [].

(** The value [listBranches] returns. *)
Module BranchList.
Record t := mk {
  local : list string;
  remote : list string;
  current : option string
}.
End BranchList.

Section RecordStoreUpdates.
Context {host : Host}.

(** [getRepoByUrl]: [SELECT * FROM repos WHERE repo_url = ?], first row. *)
Definition getRepoByUrl (d : Database) (repoUrl : string) : option Repo.t :=
  option_map rowToRepo
             (find (fun row => RepoRow.repo_url row =? repoUrl) (repos d)).

Definition setLastPulled (time : Z) (row : RepoRow.t) : RepoRow.t :=
  RepoRow.mk (RepoRow.id row) (RepoRow.repo_url row) (RepoRow.local_path row)
             (RepoRow.branch row) (RepoRow.default_branch row)
             (RepoRow.clone_status row) (RepoRow.cloned_at row) (Some time)
             (RepoRow.opencode_config_name row) (RepoRow.is_worktree row).

(** [UPDATE repos SET last_pulled = ? WHERE id = ?] *)
Definition updateLastPulled_db (d : Database) (id : Z) (time : Z) : Database :=
  setRepos d (map (fun row => if hasId id row then setLastPulled time row
                              else row) (repos d)).

(** [db.updateLastPulled]: the time is [Date.now()].  Row updates other than
    the status leave no event; the table itself is observed. *)
Definition updateLastPulled (id : Z) : M unit :=
  fun s => (Ok tt,
            mkStore (updateLastPulled_db (db s) id (host_now (env s))) (env s),
            []).

End RecordStoreUpdates.

Section EngineRest.
Context {host : Host}.

(** [listBranches] *)
Definition listBranches (repo : Repo.t) : M BranchList.t :=
  tryCatch
    (let repoPath := path_resolve [getReposPath; Repo.localPath repo] in
     executeCommand (git repoPath ["fetch"; "--all"]) None ;;;
     localBranchesOutput <-
       executeCommand (git repoPath ["branch"; "--format=%(refname:short)"])
                      None ;;
     let localBranches :=
       filter (fun b => Js.nonEmpty (Js.trim b))
              (Js.split Js.newline (Js.trim localBranchesOutput)) in
     remoteBranchesOutput <-
       executeCommand
         (git repoPath ["branch"; "-r"; "--format=%(refname:short)"]) None ;;
     let remoteBranches :=
       map (fun b => Js.replace "origin/" "" b)
           (filter (fun b => Js.nonEmpty (Js.trim b)
                             && negb (Js.includes "HEAD" b))
                   (Js.split Js.newline (Js.trim remoteBranchesOutput))) in
     current <- getCurrentBranch repo ;;
     let allBranches := setFrom (localBranches ++ remoteBranches)%list in
     ret (BranchList.mk localBranches allBranches current))
    (fun error =>
       logger Err ("Failed to list branches for repo "
                   ++ Js.ofZ (Repo.id repo) ++ ":") (Some error) ;;;
       throw error).

(** [pullRepo] *)
Definition pullRepo (repoId : Z) : M unit :=
  database <- readDb ;;
  match getRepoById database repoId with
  | None => throw ("Repo not found: " ++ Js.ofZ repoId)
  | Some repo =>
      tryCatch
        (logger Info ("Pulling repo: " ++ Repo.repoUrl repo) None ;;;
         executeCommand
           (git (path_resolve [getReposPath; Repo.localPath repo]) ["pull"])
           None ;;;
         updateLastPulled repoId ;;;
         logger Info ("Repo pulled successfully: " ++ Repo.repoUrl repo) None)
        (fun error =>
           logger Err ("Failed to pull repo: " ++ Repo.repoUrl repo)
                  (Some error) ;;;
           throw error)
  end.

(** [checkWorktreeExists] *)
Definition checkWorktreeExists (baseRepoPath worktreePath : string) : M bool :=
  tryCatch
    (worktreeList <- executeCommand
                       (git baseRepoPath ["worktree"; "list"; "--porcelain"])
                       None ;;
     ret (Js.includes worktreePath worktreeList))
    (fun _ => ret false).

(** [removeStaleWorktree] *)
Definition removeStaleWorktree (baseRepoPath worktreePath : string) : M bool :=
  tryCatch
    (logger Info ("Attempting to remove stale worktree: " ++ worktreePath)
            None ;;;
     executeCommand
       (git baseRepoPath ["worktree"; "remove"; "--force"; worktreePath])
       None ;;;
     logger Info ("Successfully removed stale worktree: " ++ worktreePath)
            None ;;;
     ret true)
    (fun error =>
       logger Warn ("Failed to remove stale worktree " ++ worktreePath ++ ":")
              (Some error) ;;;
       ret false).

(** [isBranchCheckedOutInMainWorktree] *)
Definition isBranchCheckedOutInMainWorktree (baseRepoPath branch : string)
  : M bool :=
  tryCatch
    (currentBranch <- executeCommand
                        (git baseRepoPath ["rev-parse"; "--abbrev-ref"; "HEAD"])
                        None ;;
     ret (Js.trim currentBranch =? branch))
    (fun _ => ret false).

(** The name [`${targetBranch}-worktree-${Date.now()}`]. *)
Definition fallbackBranchName (targetBranch : string) : M string :=
  now <- dateNow ;;
  ret (targetBranch ++ "-worktree-" ++ Js.ofZ now).

(** [getAvailableBranchForWorktree] *)
Definition getAvailableBranchForWorktree (baseRepoPath targetBranch : string)
  : M string :=
  tryCatch
    (currentBranch <- executeCommand
                        (git baseRepoPath ["rev-parse"; "--abbrev-ref"; "HEAD"])
                        None ;;
     let trimmedCurrent := Js.trim currentBranch in
     if trimmedCurrent =? targetBranch then
       logger Info ("Branch '" ++ targetBranch
                    ++ "' is currently checked out in main worktree") None ;;;
       defaultBranch <-
         tryCatch
           (ref <- executeCommand
                     (git baseRepoPath
                          ["rev-parse"; "--abbrev-ref"; "origin/HEAD"]) None ;;
            ret (Js.trim ref))
           (fun _ => ret "main") ;;
       let cleanDefaultBranch := Js.replace "origin/" "" defaultBranch in
       if negb (cleanDefaultBranch =? trimmedCurrent) then
         logger Info ("Switching to '" ++ cleanDefaultBranch
                      ++ "' to free up '" ++ targetBranch ++ "' for worktree")
                None ;;;
         executeCommand (git baseRepoPath ["checkout"; cleanDefaultBranch])
                        None ;;;
         ret targetBranch
       else
         logger Warn ("Cannot free up branch '" ++ targetBranch
                      ++ "' - it's the default branch") None ;;;
         fallbackBranchName targetBranch
     else ret targetBranch)
    (fun error =>
       logger Warn ("Failed to determine available branch: " ++ error) None ;;;
       fallbackBranchName targetBranch).

End EngineRest.

(* ================================================================= *)
(** ** More observations on tables and runs *)

(** Row ids are unique in the table. *)
Definition uniqueIds (d : Database) : Prop :=
  NoDup (map RepoRow.id (repos d)).

(** [cloned_at] never increases along a list of workspaces. *)
Definition newestFirst (rs : list Repo.t) : Prop :=
  Sorted (fun a b => (Repo.clonedAt b <= Repo.clonedAt a)%Z) rs.

(** A name that can stand for one directory: it has no slash. *)
Definition singleSegment (name : string) : Prop :=
  Js.includes "/" name = false.

(** No log line is singled out. *)
Definition anyLog (msg : string) : bool := false.

(** [{ ...repo, lastPulled: time }]: the workspace as the table has it
    after [updateLastPulled]. *)
Definition withLastPulled (time : Z) (r : Repo.t) : Repo.t :=
  Repo.mk (Repo.id r) (Repo.repoUrl r) (Repo.localPath r) (Repo.fullPath r)
          (Repo.branch r) (Repo.defaultBranch r) (Repo.cloneStatus r)
          (Repo.clonedAt r) (Some time) (Repo.openCodeConfigName r)
          (Repo.isWorktree r).

(** The git subcommand of a command line [git -C path sub ...]. *)
Definition subcommand (argv : list string) : option string :=
  match argv with
  | _ :: _ :: _ :: sub :: _ => Some sub
  | _ => None
  end.

(** A command failed with the error [e]. *)
Definition failedWith (e : Error) (evs : list Event) (argv : list string)
  : Prop :=
  In (argv, inr e) (execs evs).

(** The command [git -C base worktree prune]. *)
Definition pruneCommand (baseRepoPath : string) : list string :=
  git baseRepoPath ["worktree"; "prune"].

(** Some command other than the prune failed. *)
Definition failedOtherThanPrune (baseRepoPath : string) (evs : list Event)
  : Prop :=
  exists argv e, failedWith e evs argv /\ argv <> pruneCommand baseRepoPath.

(** The last command of a run and its result. *)
Definition lastCommand (evs : list Event)
  : option (list string * (string + Error)) :=
  match rev (execs evs) with
  | [] => None
  | x :: _ => Some x
  end.

(** A [git clone] command line. *)
Definition isClone (argv : list string) : bool :=
  match argv with
  | g :: c :: _ => (g =? "git") && (c =? "clone")
  | _ => false
  end.

(** The [git clone] commands of a run, with their results, in order. *)
Definition cloneAttempts (evs : list Event)
  : list (list string * (string + Error)) :=
  filter (fun x => isClone (fst x)) (execs evs).

(** A command that works inside the repository at [repoPath]. *)
Definition insideRepo (repoPath : string) (argv : list string) : Prop :=
  exists args, argv = git repoPath args.


(* ================================================================= *)
(** ** The HTTP handlers of the workspaces: [routes/repos.ts]

    A handler is given the id that [parseInt] read from the path (a
    parameter that is not a number is not modelled) and, where it reads
    one, the member of the JSON body it uses.  Its result is the response
    [c.json(body, status)]. *)

(** The JSON values the handlers answer with. *)
Inductive Body :=
| BodyError (error : string)
| BodyRepo (repo : option Repo.t)
| BodyRepoWithBranch (repo : Repo.t) (currentBranch : option string).

Module Response.
Record t := mk {
  status : nat;
  body : Body
}.
End Response.

Section Routes.
Context {host : Host}.

(** [c.json(body)] and [c.json(body, status)] *)
Definition json (body : Body) (status : nat) : M Response.t :=
  ret (Response.mk status body).

(** The [catch] of every handler. *)
Definition internalError (what : string) (error : Error) : M Response.t :=
  logger Err what (Some error) ;;;
  json (BodyError error) 500.

(** [GET /:id] *)
Definition getRepoRoute (id : Z) : M Response.t :=
  tryCatch
    (database <- readDb ;;
     match getRepoById database id with
     | None => json (BodyError "Repo not found") 404
     | Some repo =>
         currentBranch <- getCurrentBranch repo ;;
         json (BodyRepoWithBranch repo currentBranch) 200
     end)
    (internalError "Failed to get repo:").

(** [POST /:id/pull] *)
Definition pullRoute (id : Z) : M Response.t :=
  tryCatch
    (pullRepo id ;;;
     database <- readDb ;;
     json (BodyRepo (getRepoById database id)) 200)
    (internalError "Failed to pull repo:").

(** [POST /:id/branch/switch]; [branch] is the member of that name of the
    request body, a string, or absent when the body has none (a body that
    is not a JSON object is not modelled).  [updatedRepo!] is no check: on
    [null] the lookup of the branch fails on [repo.localPath], and its
    handler on [repo.id]. *)
Definition switchBranchRoute (id : Z) (branch : option string)
  : M Response.t :=
  tryCatch
    (database <- readDb ;;
     match getRepoById database id with
     | None => json (BodyError "Repo not found") 404
     | Some _ =>
         if negb (Js.truthy branch) then
           json (BodyError "branch is required") 400
         else
           switchBranch id (branchText branch) ;;;
           database <- readDb ;;
           match getRepoById database id with
           | None => throw "TypeError: null is not an object"
           | Some updatedRepo =>
               currentBranch <- getCurrentBranch updatedRepo ;;
               json (BodyRepoWithBranch updatedRepo currentBranch) 200
           end
     end)
    (internalError "Failed to switch branch:").

End Routes.

(** Runs of the other operations on the scripted host. *)
Module Runs.
#[local] Existing Instance Scripted.host.

(** A base clone and a worktree of it for [feature]. *)
Definition baseRow : RepoRow.t := Scripted.appRow 1 "app" None 0.
Definition worktreeRow : RepoRow.t :=
  Scripted.appRow 2 "app-feature" (Some "feature") 1.
Definition tracked : Database := mkDatabase [baseRow; worktreeRow] None.

(** Nothing in the table, nothing scripted. *)
Definition idle : Store := Scripted.store Scripted.emptyDb [].

(** The worktree cannot be unregistered in any of the three ways; the
    directory is then removed and found gone, and the prune succeeds. *)
Definition registrationStuck : Store :=
  Scripted.store tracked
    [inr "fatal: validation failed"; inr "fatal: validation failed";
     inr "fatal: cannot prune"; inl ""; inl "deleted"; inl ""].

(** After the fresh clone of [Provision.freshClone]: the directory is
    removed and found gone. *)
Definition afterFreshClone : Store :=
  Scripted.store (db (storeOf Provision.freshClone)) [inl ""; inl "deleted"].

(** After the fresh clone: [ls -1] lists the clone and a stray
    directory. *)
Definition listingAfterFreshClone : Store :=
  Scripted.store (db (storeOf Provision.freshClone))
                 [inl (Scripted.lines ["app"; "stray"; ""]); inl ""].

(** The fetch fails. *)
Definition offline : Store :=
  Scripted.store tracked [inr "fatal: unable to access the remote"].

(** The pull succeeds. *)
Definition upToDate : Store :=
  Scripted.store tracked [inl "Already up to date."].

(** The fetch and the two listings answer; the HEAD lookup fails. *)
Definition detached : Store :=
  Scripted.store tracked
    [inl "";
     inl (Scripted.lines ["main"; "feature"; ""]);
     inl (Scripted.lines ["origin/HEAD -> origin/main"; "origin/main";
                          "origin/dev"; ""]);
     inr "fatal: ref HEAD is not a symbolic ref"].

(** The listing of the worktrees names no such path and the prune fails. *)
Definition pruneFails : Store :=
  Scripted.store Scripted.emptyDb
    [inl Scenario.listing; inr "fatal: cannot prune"].

(** HEAD of the base repository is on [feature], the default branch is
    [main], and the checkout of [main] succeeds. *)
Definition onFeature : Store :=
  Scripted.store Scripted.emptyDb [inl "feature"; inl "origin/main"; inl ""].

(** The directory is there, and it is gone after [rm -rf]. *)
Definition staleDirectory : Store :=
  Scripted.store Scripted.emptyDb [inl "exists"; inl ""; inl "removed"].

(** The branch is unknown to the remote; the default branch is cloned and
    the branch created. *)
Definition branchUnknown : Store :=
  Scripted.store Scripted.emptyDb
    [inl "missing";
     inr "fatal: Remote branch feature not found in upstream origin";
     inl "Cloning into 'app-feature'..."; inr "fatal: Needed a single revision";
     inl "Switched to a new branch 'feature'"].

(** The base directory is a git repository, already on the branch. *)
Definition validClone : Store :=
  Scripted.store tracked [inl ".git"].
End Runs.

(* ================================================================= *)
(** ** Proof tools *)

(** One step of symbolic execution: case analysis on the answer of the
    executor to the next command. *)
Ltac exec_step :=
  match goal with
  | |- context [host_execute ?a ?c ?e] =>
      let E := fresh "Hexec" in
      destruct (host_execute a c e) as [[?out | ?err] ?env'] eqn:E; cbn
  end.

Ltac exec_in H :=
  match type of H with
  | context [host_execute ?a ?c ?e] =>
      let E := fresh "Hexec" in
      destruct (host_execute a c e) as [[?out | ?err] ?env'] eqn:E; cbn in H
  end.

(** Log texts and command lines are kept as written while a run unfolds. *)
Arguments String.append : simpl never.

Ltac unfold_monad :=
  unfold succeeds, bind, tryCatch, ret, throw, executeCommand, logger, readDb,
    dateNow, updateRepoStatus, deleteRepo, ensureDirectoryExists in *.

(* ================================================================= *)
(** ** Branch operations *)

Section BranchOperations.
Context {host : Host}.

(** C9. [getCurrentBranch] never throws: every run ends with a value, which
    is the trimmed output of the HEAD lookup when git answers, and the
    absent value when git fails; the table of rows is left as it was. *)
Theorem getCurrentBranch_never_throws :
  forall (repo : Repo.t) (s : Store),
    let res := fst (host_execute (headCommand repo) None (env s)) in
    let r := getCurrentBranch repo s in
    outcomeOf r = Ok (match res with
                      | inl out => Some (Js.trim out)
                      | inr _ => None
                      end)
    /\ commands (eventsOf r) = [headCommand repo]
    /\ db (storeOf r) = db s.
Proof.
  intros repo s. unfold getCurrentBranch, headCommand, repoPathOf.
  unfold_monad. cbn.
  exec_step; repeat split; reflexivity.
Qed.

(** C7. [switchBranch] on an existing workspace, once the fetch of all refs
    has succeeded: the local ref is looked up, then the remote ref, and
    the fourth and last command is the checkout of the tie-break: a plain
    checkout when the local ref exists, else [checkout -b] from
    [origin/branch] when the remote ref exists, else [checkout -b] from
    the current HEAD. *)
Theorem switchBranch_resolution :
  forall (repoId : Z) (branch : string) (s : Store) (repo : Repo.t)
         (out : string) (env1 : Env),
    getRepoById (db s) repoId = Some repo ->
    host_execute (git (repoPathOf repo) ["fetch"; "--all"]) None (env s)
      = (inl out, env1) ->
    exists rl rr rc,
      execs (eventsOf (switchBranch repoId branch s)) =
        [ (git (repoPathOf repo) ["fetch"; "--all"], inl out);
          (git (repoPathOf repo)
               ["rev-parse"; "--verify"; "refs/heads/" ++ branch], rl);
          (git (repoPathOf repo)
               ["rev-parse"; "--verify"; "refs/remotes/origin/" ++ branch], rr);
          (resolvedCheckout (repoPathOf repo) branch
                            (succeeded rl) (succeeded rr), rc) ]
      /\ outcomeOf (switchBranch repoId branch s)
         = match rc with
           | inl _ => Ok tt
           | inr e => Throw e
           end.
Proof.
  intros repoId branch s repo out env1 Hrepo Hfetch.
  unfold switchBranch, checkoutResolved, repoPathOf in *.
  unfold_monad. cbn. rewrite Hrepo. cbn. rewrite Hfetch. cbn.
  do 3 exec_step;
    match goal with
    | |- exists _ _ _, [_; (_, ?a); (_, ?b); (_, ?c)] = _ /\ _ =>
        exists a, b, c; split; reflexivity
    end.
Qed.

End BranchOperations.

(** A run of C7: only the remote ref exists. *)
Lemma switchBranch_resolution_witness :
  let s := Scripted.store
             (mkDatabase [Scripted.appRow 1 "app" None 0] None)
             [inl ""; inr "fatal: Needed a single revision";
              inl "4f2a9c1"; inl ""] in
  exists rl rr rc,
    execs (eventsOf (switchBranch (host := Scripted.host) 1 "feature" s)) =
      [ (["git"; "-C"; "/workspace/repos/app"; "fetch"; "--all"], inl "");
        (["git"; "-C"; "/workspace/repos/app"; "rev-parse"; "--verify";
          "refs/heads/feature"], rl);
        (["git"; "-C"; "/workspace/repos/app"; "rev-parse"; "--verify";
          "refs/remotes/origin/feature"], rr);
        (resolvedCheckout "/workspace/repos/app" "feature"
                          (succeeded rl) (succeeded rr), rc) ]
    /\ outcomeOf (switchBranch (host := Scripted.host) 1 "feature" s)
       = match rc with
         | inl _ => Ok tt
         | inr e => Throw e
         end.
Proof.
  exact (@switchBranch_resolution
           Scripted.host 1 "feature"
           (Scripted.store
              (mkDatabase [Scripted.appRow 1 "app" None 0] None)
              [inl ""; inr "fatal: Needed a single revision";
               inl "4f2a9c1"; inl ""])
           (rowToRepo (Scripted.appRow 1 "app" None 0))
           ""
           [inr "fatal: Needed a single revision"; inl "4f2a9c1"; inl ""]
           eq_refl eq_refl).
Defined.

(* ================================================================= *)
(** ** Events of composed runs *)

Lemma execs_app : forall a b, execs (a ++ b)%list = (execs a ++ execs b)%list.
Proof.
  induction a as [| e a IH]; intros b; cbn; [reflexivity |].
  destruct e; cbn; rewrite ?IH; reflexivity.
Qed.

Lemma commands_app :
  forall a b, commands (a ++ b)%list = (commands a ++ commands b)%list.
Proof. intros. unfold commands. rewrite execs_app, map_app. reflexivity. Qed.

Section Bind.
Context {host : Host}.

Lemma bind_run :
  forall A B (m : M A) (f : A -> M B) (s : Store),
    bind m f s =
    match outcomeOf (m s) with
    | Ok a => let r := f a (storeOf (m s)) in
              (outcomeOf r, storeOf r, (eventsOf (m s) ++ eventsOf r)%list)
    | Throw e => (Throw e, storeOf (m s), eventsOf (m s))
    end.
Proof.
  intros A B m f s. unfold bind, outcomeOf, storeOf, eventsOf.
  destruct (m s) as [[[a | e] s1] ev1]; cbn [fst snd]; [| reflexivity].
  destruct (f a s1) as [[r s2] ev2]. reflexivity.
Qed.
End Bind.

(* ================================================================= *)
(** ** Order of events *)

(** What [comesAfter] says, in terms of positions: whenever the events
    split around a [B]-event, an [A]-event stands in the part before it. *)
Lemma comesAfter_sound :
  forall (A B : Event -> Prop) (evs : list Event),
    comesAfter A B evs ->
    forall pre e post, evs = (pre ++ e :: post)%list -> B e -> Exists A pre.
Proof.
  intros A B evs. induction evs as [| x rest IH]; cbn.
  - intros _ pre e post H. destruct pre; discriminate H.
  - intros [HnB [HA | Hrest]] pre e post Heq Hb.
    + destruct pre as [| p pre']; cbn in Heq; inversion Heq; subst.
      * contradiction.
      * now constructor.
    + destruct pre as [| p pre']; cbn in Heq; inversion Heq; subst.
      * contradiction.
      * apply Exists_cons_tl. eapply IH; eauto.
Qed.

Lemma comesAfter_app_clean :
  forall (A B : Event -> Prop) (evs1 evs2 : list Event),
    Forall (fun e => ~ B e) evs1 ->
    comesAfter A B evs2 ->
    comesAfter A B (evs1 ++ evs2).
Proof.
  intros A B evs1 evs2 H1 H2. induction H1 as [| x l Hx Hl IH]; cbn; auto.
Qed.

Lemma comesAfter_none :
  forall (A B : Event -> Prop) (evs : list Event),
    Forall (fun e => ~ B e) evs -> comesAfter A B evs.
Proof.
  intros A B evs H. induction H as [| x l Hx Hl IH]; cbn; auto.
Qed.

Lemma comesAfter_app_after :
  forall (A B : Event -> Prop) (evs1 evs2 : list Event),
    Forall (fun e => ~ B e) evs1 ->
    Exists A evs1 ->
    comesAfter A B (evs1 ++ evs2).
Proof.
  intros A B evs1 evs2 HB HA. induction HA as [x l Hx | x l Hl IH]; cbn.
  - inversion HB; subst. split; [assumption | left; assumption].
  - inversion HB; subst. split; [assumption | right; auto].
Qed.

(* ================================================================= *)
(** ** Deletion *)

Ltac not_delete := let H := fresh in intros [? H]; discriminate H.

(** Walks a list of events for [comesAfter (confirmsGone _) isDelete]. *)
Ltac walk_events :=
  repeat (cbn; split;
          [ not_delete
          | first [ left; eexists; split; [reflexivity | eassumption]
                  | right ] ]);
  try exact I.

Ltac refute_present :=
  repeat match goal with
         | H : Exists _ (_ :: _) |- _ =>
             apply Exists_cons in H; destruct H as [H | H]
         | H : Exists _ [] |- _ => apply Exists_nil in H; contradiction
         | H : reportsPresent _ _ |- _ =>
             let Heq := fresh in
             let Htrim := fresh in
             destruct H as (? & Heq & Htrim); cbn in Heq;
             try discriminate Heq; inversion Heq; subst
         end.

Section Deletion.
Context {host : Host}.

(** C5. In every run of [deleteRepoFiles] on an existing workspace, no row
    is deleted before the existence check has answered that the directory
    is gone; and when the check answers [exists], the run throws, no row
    is deleted, and the table is left as it was.  A run that throws never
    changes the table; a run that returns has deleted the row. *)
Theorem deleteRepoFiles_row_deleted_last :
  forall (repoId : Z) (s : Store) (repo : Repo.t),
    getRepoById (db s) repoId = Some repo ->
    let r := deleteRepoFiles repoId s in
    comesAfter (confirmsGone (dirNameOf repo)) isDelete (eventsOf r)
    /\ (Exists (reportsPresent (dirNameOf repo)) (eventsOf r) ->
        outcomeOf r = Throw ("Failed to delete workspace directory: "
                             ++ dirNameOf repo)
        /\ db (storeOf r) = db s
        /\ Forall (fun e => ~ isDelete e) (eventsOf r))
    /\ (forall e, outcomeOf r = Throw e -> db (storeOf r) = db s)
    /\ (outcomeOf r = Ok tt -> db (storeOf r) = deleteRepo_db (db s) repoId).
Proof.
  intros repoId s repo Hrepo r.
  destruct r as [[o s'] evs] eqn:Hrun. subst r.
  unfold outcomeOf, storeOf, eventsOf; cbn [fst snd].
  unfold deleteRepoFiles, removeWorktreeRegistration, extractRepoName in Hrun.
  unfold_monad. cbn in Hrun. rewrite Hrepo in Hrun. cbn in Hrun.
  destruct (isBranchWorktree repo); cbn in Hrun;
    [destruct (matchRepoName (Repo.repoUrl repo)); cbn in Hrun |];
    repeat exec_in Hrun;
    try (destruct (Js.trim _ =? "exists") eqn:Htrim; cbn in Hrun);
    repeat exec_in Hrun.
  all: inversion Hrun; subst; clear Hrun.
  all: try (apply String.eqb_neq in Htrim).
  all: try (apply String.eqb_eq in Htrim).
  all: (split; [walk_events|]).
  all: (split;
    [ intro Hpres;
      first [ solve [exfalso; refute_present; congruence]
            | split; [reflexivity
                     | split; [reflexivity | repeat constructor; not_delete]] ]
    | split;
      [ intros e He; first [discriminate He | reflexivity]
      | intro Hok; first [discriminate Hok | reflexivity] ] ]).
Qed.


End Deletion.

Section DeletionRuns.
#[local] Existing Instance Scripted.host.

(** A run of C5: the directory survives [rm -rf], the row stays. *)
Lemma deleteRepoFiles_row_deleted_last_witness :
let s := Scripted.store (mkDatabase [Scripted.appRow 1 "app" None 0] None)
                        [inl ""; inl "exists"] in
let repo := rowToRepo (Scripted.appRow 1 "app" None 0) in
let r := deleteRepoFiles (host := Scripted.host) 1 s in
comesAfter (confirmsGone (dirNameOf repo)) isDelete (eventsOf r)
/\ (Exists (reportsPresent (dirNameOf repo)) (eventsOf r) ->
    outcomeOf r = Throw ("Failed to delete workspace directory: "
                         ++ dirNameOf repo)
    /\ db (storeOf r) = db s
    /\ Forall (fun e => ~ isDelete e) (eventsOf r))
/\ (forall e, outcomeOf r = Throw e -> db (storeOf r) = db s)
/\ (outcomeOf r = Ok tt -> db (storeOf r) = deleteRepo_db (db s) 1).
Proof.
exact (@deleteRepoFiles_row_deleted_last
         Scripted.host 1
         (Scripted.store (mkDatabase [Scripted.appRow 1 "app" None 0] None)
                         [inl ""; inl "exists"])
         (rowToRepo (Scripted.appRow 1 "app" None 0))
         eq_refl).
Defined.

End DeletionRuns.

(* ================================================================= *)
(** ** Orphan reconciliation *)

Section Reconciliation.
Context {host : Host}.

Lemma In_insertByClonedAt :
  forall row x sorted,
    In x (insertByClonedAt row sorted) <-> x = row \/ In x sorted.
Proof.
  intros row x sorted. induction sorted as [| r rest IH]; cbn.
  - intuition.
  - destruct (RepoRow.cloned_at r <? RepoRow.cloned_at row)%Z; cbn.
    + intuition.
    + rewrite IH. intuition.
Qed.

Lemma In_orderByClonedAtDesc :
  forall rows x, In x (orderByClonedAtDesc rows) <-> In x rows.
Proof.
  intros rows x. unfold orderByClonedAtDesc.
  assert (G : forall acc,
             In x (fold_left (fun acc row => insertByClonedAt row acc) rows acc)
             <-> In x acc \/ In x rows).
  { induction rows as [| r rest IH]; intros acc; cbn.
    - intuition.
    - rewrite IH, In_insertByClonedAt. intuition. }
  rewrite G. cbn. intuition.
Qed.

(** One removal: the command runs, and its failure is caught. *)
Lemma removeOrphan_run :
  forall (reposPath dir : string) (s : Store),
    let r := removeOrphan reposPath dir s in
    outcomeOf r = Ok tt
    /\ execs (eventsOf r)
       = [(removalCommand dir,
           fst (host_execute (removalCommand dir) (Some reposPath) (env s)))]
    /\ db (storeOf r) = db s.
Proof.
  intros reposPath dir s. unfold removeOrphan, removalCommand.
  unfold_monad. cbn. exec_step; repeat split; reflexivity.
Qed.

(** The removal loop: one [rm -rf] per directory, whatever the results. *)
Lemma removal_loop :
  forall (reposPath : string) (dirs : list string) (s : Store),
    let r := forEach dirs (removeOrphan reposPath) s in
    outcomeOf r = Ok tt
    /\ commands (eventsOf r) = map removalCommand dirs
    /\ db (storeOf r) = db s.
Proof.
  intros reposPath dirs. induction dirs as [| d rest IH]; intros s; cbn.
  - repeat split; reflexivity.
  - unfold bind.
    destruct (removeOrphan_run reposPath d s) as (Ho & Hc & Hd).
    destruct (removeOrphan reposPath d s) as [[o s1] ev1].
    unfold outcomeOf, storeOf, eventsOf in Ho, Hc, Hd.
    cbn [fst snd] in Ho, Hc, Hd. subst o.
    specialize (IH s1).
    destruct (forEach rest (removeOrphan reposPath) s1) as [[o2 s2] ev2].
    unfold outcomeOf, storeOf, eventsOf in *. cbn [fst snd] in *.
    destruct IH as (Ho2 & Hc2 & Hd2).
    repeat split; auto.
    + rewrite commands_app, Hc2. unfold commands. rewrite Hc. reflexivity.
    + congruence.
Qed.

Lemma invocations_app :
  forall a b,
    invocations (a ++ b)%list = (invocations a ++ invocations b)%list.
Proof.
  induction a as [| e a IH]; intros b; [reflexivity |].
  destruct e; cbn; rewrite IH; reflexivity.
Qed.

Lemma In_invocations :
  forall evs argv cwd,
    (exists res, In (EvExec argv cwd res) evs)
    <-> In (argv, cwd) (invocations evs).
Proof.
  induction evs as [| e evs IH]; intros argv cwd.
  - cbn. split; [intros [res []] | intros []].
  - assert (Hskip : (forall a c r, e <> EvExec a c r) ->
                    ((exists res, In (EvExec argv cwd res) (e :: evs))
                     <-> In (argv, cwd) (invocations evs))).
    { intros Hne. rewrite <- (IH argv cwd). split.
      - intros (res & [Hx | Hin]); [exfalso; exact (Hne _ _ _ Hx) |].
        exists res. exact Hin.
      - intros (res & Hin). exists res. right. exact Hin. }
    destruct e as [a c r | | | | |];
      try (cbn [invocations]; apply Hskip; intros ? ? ? Hx; discriminate Hx).
    clear Hskip. cbn [invocations In]. rewrite <- (IH argv cwd). split.
    + intros (res0 & [Hx | Hin]).
      * injection Hx as -> -> _. left. reflexivity.
      * right. exists res0. exact Hin.
    + intros [Hx | (res0 & Hin)].
      * injection Hx as -> ->. exists r. left. reflexivity.
      * exists res0. right. exact Hin.
Qed.

(** One removal runs in the directory it is given. *)
Lemma removeOrphan_invocation :
  forall (reposPath dir : string) (s : Store),
    invocations (eventsOf (removeOrphan reposPath dir s))
    = [(removalCommand dir, Some reposPath)].
Proof.
  intros reposPath dir s. unfold removeOrphan, removalCommand.
  unfold_monad. cbn. exec_step; reflexivity.
Qed.

(** The removal loop runs every [rm -rf] in the directory it is given. *)
Lemma removal_loop_invocations :
  forall (reposPath : string) (dirs : list string) (s : Store),
    invocations (eventsOf (forEach dirs (removeOrphan reposPath) s))
    = map (fun dir => (removalCommand dir, Some reposPath)) dirs.
Proof.
  intros reposPath dirs. induction dirs as [| d rest IH]; intros s; cbn.
  - reflexivity.
  - unfold bind.
    destruct (removeOrphan_run reposPath d s) as (Ho & _ & _).
    pose proof (removeOrphan_invocation reposPath d s) as Hi.
    destruct (removeOrphan reposPath d s) as [[o s1] ev1].
    unfold outcomeOf, eventsOf in Ho, Hi. cbn [fst snd] in Ho, Hi. subst o.
    specialize (IH s1).
    destruct (forEach rest (removeOrphan reposPath) s1) as [[o2 s2] ev2].
    unfold eventsOf in *. cbn [fst snd] in *.
    rewrite invocations_app, Hi, IH. reflexivity.
Qed.

Lemma isTracked_rows :
  forall (d : Database) (dir : string),
    isTracked (trackedPaths (listRepos d)) dir = true <->
    exists row, In row (repos d)
                /\ lastSegment (RepoRow.local_path row) = Some dir.
Proof.
  intros d dir. unfold isTracked, trackedPaths, listRepos, lastSegment.
  rewrite existsb_exists. split.
  - intros (t & Hin & Ht). rewrite map_map in Hin.
    apply in_map_iff in Hin. destruct Hin as (row & Heq & Hrow).
    rewrite In_orderByClonedAtDesc in Hrow. exists row. split; [exact Hrow |].
    cbn in Heq. destruct t as [name |]; [| discriminate].
    apply String.eqb_eq in Ht. subst. exact Heq.
  - intros (row & Hrow & Hseg).
    exists (Some dir). split; [| apply String.eqb_refl].
    rewrite map_map. apply in_map_iff. exists row. split.
    + cbn. exact Hseg.
    + rewrite In_orderByClonedAtDesc. exact Hrow.
Qed.

(** C4. [cleanupOrphanedDirectories], once the workspaces root is there:
    the run never throws and leaves the table alone; it lists the
    workspaces root with [ls -1] and then runs, in that root, one [rm -rf]
    for each listed entry that is not the last path segment of the
    [local_path] of any row, in listing order, and no other command; the
    commands do not depend on the result of any removal, so a failed
    removal does not stop the ones after it; no [rm -rf] is run in another
    directory than the root, and none for a tracked directory. *)
Theorem cleanupOrphanedDirectories_removes_untracked :
  forall (s : Store) (env1 : Env),
    host_ensureDirectory getReposPath (env s) = (inl tt, env1) ->
    let listing :=
      listingOf (fst (host_execute ["ls"; "-1"] (Some getReposPath) env1)) in
    let r := cleanupOrphanedDirectories s in
    outcomeOf r = Ok tt
    /\ commands (eventsOf r)
       = ["ls"; "-1"]
           :: map removalCommand
                  (orphanedDirs (listedDirectories listing)
                                (trackedPaths (listRepos (db s))))
    /\ (forall dir,
          In (removalCommand dir) (commands (eventsOf r)) <->
          In dir (listedDirectories listing)
          /\ ~ exists row, In row (repos (db s))
                           /\ lastSegment (RepoRow.local_path row) = Some dir)
    /\ db (storeOf r) = db s
    /\ invocations (eventsOf r)
       = (["ls"; "-1"], Some getReposPath)
           :: map (fun dir => (removalCommand dir, Some getReposPath))
                  (orphanedDirs (listedDirectories listing)
                                (trackedPaths (listRepos (db s))))
    /\ (forall dir cwd,
          (exists res,
              In (EvExec (removalCommand dir) cwd res) (eventsOf r)) <->
          cwd = Some getReposPath
          /\ In dir (listedDirectories listing)
          /\ ~ exists row, In row (repos (db s))
                           /\ lastSegment (RepoRow.local_path row) = Some dir).
Proof.
  intros s env1 Hens listing r.
  assert (Hcmd : forall dirs dir,
             In (removalCommand dir)
                (["ls"; "-1"] :: map removalCommand dirs) <-> In dir dirs).
  { intros dirs dir. cbn. split.
    - intros [H | H]; [discriminate H |].
      apply in_map_iff in H. destruct H as (x & Hx & Hin).
      inversion Hx; subst. exact Hin.
    - intros H. right. apply in_map. exact H. }
  assert (Horph : forall dir,
             In dir (orphanedDirs (listedDirectories listing)
                                  (trackedPaths (listRepos (db s)))) <->
             In dir (listedDirectories listing)
             /\ ~ exists row, In row (repos (db s))
                              /\ lastSegment (RepoRow.local_path row) = Some dir).
  { intros dir. unfold orphanedDirs. rewrite filter_In.
    rewrite <- isTracked_rows. rewrite negb_true_iff.
    destruct (isTracked _ dir); intuition congruence. }
  assert (Hmain :
            outcomeOf r = Ok tt
            /\ commands (eventsOf r)
               = ["ls"; "-1"]
                   :: map removalCommand
                          (orphanedDirs (listedDirectories listing)
                                        (trackedPaths (listRepos (db s))))
            /\ db (storeOf r) = db s
            /\ invocations (eventsOf r)
               = (["ls"; "-1"], Some getReposPath)
                   :: map (fun dir => (removalCommand dir, Some getReposPath))
                          (orphanedDirs (listedDirectories listing)
                                        (trackedPaths (listRepos (db s))))).
  { subst r listing.
    destruct (cleanupOrphanedDirectories s) as [[o s'] evs] eqn:Hrun.
    unfold outcomeOf, storeOf, eventsOf; cbn [fst snd].
    unfold cleanupOrphanedDirectories in Hrun. unfold_monad.
    cbn in Hrun. rewrite Hens in Hrun. cbn in Hrun.
    exec_in Hrun; cbn [fst listingOf].
    - destruct (Datatypes.length (listedDirectories out) =? 0)%nat eqn:Hlen;
        cbn in Hrun.
      + apply Nat.eqb_eq, length_zero_iff_nil in Hlen. rewrite Hlen.
        inversion Hrun; subst. repeat split; reflexivity.
      + remember (orphanedDirs (listedDirectories out)
                               (trackedPaths (listRepos (db s)))) as orph.
        destruct orph as [| d0 rest]; cbn in Hrun.
        * inversion Hrun; subst. repeat split; reflexivity.
        * change (removeOrphan getReposPath d0 ;;;
                  forEach rest (removeOrphan getReposPath))
            with (forEach (d0 :: rest) (removeOrphan getReposPath)) in Hrun.
          destruct (removal_loop getReposPath (d0 :: rest)
                                 (mkStore (db s) env')) as (Ho & Hc & Hd).
          pose proof (removal_loop_invocations
                        getReposPath (d0 :: rest) (mkStore (db s) env'))
            as Hi.
          destruct (forEach (d0 :: rest) (removeOrphan getReposPath)
                            (mkStore (db s) env')) as [[o2 s2] ev2].
          unfold outcomeOf, storeOf, eventsOf in Ho, Hc, Hd, Hi.
          cbn [fst snd] in Ho, Hc, Hd, Hi. subst o2.
          inversion Hrun; subst. repeat split; auto.
          -- unfold commands in *. cbn [execs map fst]. rewrite Hc.
             reflexivity.
          -- cbn [invocations]. rewrite Hi. reflexivity.
    - inversion Hrun; subst. repeat split; reflexivity. }
  destruct Hmain as (Ho & Hc & Hd & Hi).
  split; [exact Ho |]. split; [exact Hc |].
  split; [intros dir; rewrite Hc, Hcmd, Horph; reflexivity |].
  split; [exact Hd |]. split; [exact Hi |].
  intros dir cwd. rewrite In_invocations, Hi, <- Horph. cbn [In]. split.
  - intros [Hx | Hin]; [discriminate Hx |].
    apply in_map_iff in Hin. destruct Hin as (x & Hx & Hin).
    injection Hx as -> <-. split; [reflexivity | exact Hin].
  - intros [-> Hin]. right.
    apply (in_map (fun dir0 => (removalCommand dir0, Some getReposPath))).
    exact Hin.
Qed.

End Reconciliation.

Section ReconciliationRuns.
#[local] Existing Instance Scripted.host.

(** A run of C4: directories a, b and c on disk, rows for a and c only. *)
Lemma cleanupOrphanedDirectories_removes_untracked_witness :
let s := Scripted.store
           (mkDatabase [Scripted.appRow 1 "a" None 0;
                        Scripted.appRow 2 "c" (Some "dev") 0] None)
           [inl (Scripted.lines ["a"; "b"; "c"; ""]); inl ""] in
let r := cleanupOrphanedDirectories s in
outcomeOf r = Ok tt
/\ commands (eventsOf r) = [["ls"; "-1"]; ["rm"; "-rf"; "b"]]
/\ invocations (eventsOf r)
   = [(["ls"; "-1"], Some "/workspace/repos");
      (["rm"; "-rf"; "b"], Some "/workspace/repos")].
Proof.
destruct (@cleanupOrphanedDirectories_removes_untracked
            Scripted.host
            (Scripted.store
               (mkDatabase [Scripted.appRow 1 "a" None 0;
                            Scripted.appRow 2 "c" (Some "dev") 0] None)
               [inl (Scripted.lines ["a"; "b"; "c"; ""]); inl ""])
            [inl (Scripted.lines ["a"; "b"; "c"; ""]); inl ""]
            eq_refl) as (Ho & Hc & _ & _ & Hi & _).
split; [exact Ho |]. split; [exact Hc | exact Hi].
Defined.

End ReconciliationRuns.

(* ================================================================= *)
(** ** Worktree safety subroutines *)

Ltac not_worktree_add :=
  let H := fresh in intros (? & ? & ? & H); cbn in H; discriminate H.

Section Worktree.
Context {host : Host}.

Lemma replace_origin_prefix :
  forall name, Js.replace "origin/" "" ("origin/" ++ name) = name.
Proof. intros name. reflexivity. Qed.

Lemma switchAway_checked_out :
  forall (base branch : string) (s : Store) (out : string) (env1 : Env),
    host_execute (git base ["rev-parse"; "--abbrev-ref"; "HEAD"]) None (env s)
      = (inl out, env1) ->
    Js.trim out = branch ->
    let resolution :=
      fst (host_execute (git base ["rev-parse"; "--abbrev-ref"; "origin/HEAD"])
                        None env1) in
    let r := switchAwayIfCheckedOut base branch s in
    (exists rc rest,
       execs (eventsOf r)
       = (git base ["rev-parse"; "--abbrev-ref"; "HEAD"], inl out)
           :: (git base ["rev-parse"; "--abbrev-ref"; "origin/HEAD"],
               resolution)
           :: (git base ["checkout"; defaultBranchOf resolution], rc)
           :: rest)
    /\ Forall (fun e => ~ isWorktreeAdd base e) (eventsOf r)
    /\ (outcomeOf r = Ok tt ->
        Exists (fun e => switchedTo base (defaultBranchOf resolution) e
                         \/ switchedTo base "main" e) (eventsOf r)).
Proof.
  intros base branch s out env1 Hhead Htrim resolution r. subst r resolution.
  destruct (switchAwayIfCheckedOut base branch s) as [[o s'] evs] eqn:Hrun.
  unfold outcomeOf, storeOf, eventsOf; cbn [fst snd].
  unfold switchAwayIfCheckedOut in Hrun. unfold_monad. cbn in Hrun.
  rewrite Hhead in Hrun. cbn in Hrun.
  apply String.eqb_eq in Htrim. rewrite Htrim in Hrun. cbn in Hrun.
  repeat exec_in Hrun; inversion Hrun; subst; cbn [fst defaultBranchOf];
    (split; [eexists; eexists; reflexivity |]);
    (split; [repeat constructor; not_worktree_add |]);
    intros Hok; try discriminate Hok.
  all: repeat (first [ apply Exists_cons_hd;
                       first [ left; eexists; reflexivity
                             | right; eexists; reflexivity ]
                     | apply Exists_cons_tl ]).
Qed.

(** C6, amended.  When HEAD of the base repository is on the requested
    branch, the first three commands of [createWorktreeSafely] are the
    HEAD lookup, the lookup of [origin/HEAD], and the checkout of the
    default branch: the looked-up name with [origin/] removed, or [main]
    when the lookup fails.  Every worktree-creation attempt of the run
    comes after a successful checkout of that default branch or, when that
    checkout failed, of [main]. *)
Theorem createWorktreeSafely_switches_away_first :
  forall (base wt branch : string) (s : Store) (out : string) (env1 : Env),
    host_execute (git base ["rev-parse"; "--abbrev-ref"; "HEAD"]) None (env s)
      = (inl out, env1) ->
    Js.trim out = branch ->
    let resolution :=
      fst (host_execute (git base ["rev-parse"; "--abbrev-ref"; "origin/HEAD"])
                        None env1) in
    let r := createWorktreeSafely base wt branch s in
    (exists rc rest,
       execs (eventsOf r)
       = (git base ["rev-parse"; "--abbrev-ref"; "HEAD"], inl out)
           :: (git base ["rev-parse"; "--abbrev-ref"; "origin/HEAD"],
               resolution)
           :: (git base ["checkout"; defaultBranchOf resolution], rc)
           :: rest)
    /\ comesAfter (fun e => switchedTo base (defaultBranchOf resolution) e
                            \/ switchedTo base "main" e)
                  (isWorktreeAdd base) (eventsOf r)
    /\ (forall ref name,
           resolution = inl ref -> Js.trim ref = "origin/" ++ name ->
           defaultBranchOf resolution = name)
    /\ (forall e, resolution = inr e -> defaultBranchOf resolution = "main").
Proof.
  intros base wt branch s out env1 Hhead Htrim resolution r.
  destruct (@switchAway_checked_out base branch s out env1 Hhead Htrim)
    as ((rc & rest0 & Hex) & Hclean & Hsw).
  fold resolution in Hex, Hsw.
  split; [| split; [| split]].
  - subst r. unfold createWorktreeSafely. rewrite bind_run.
    destruct (switchAwayIfCheckedOut base branch s) as [[[[] | e1] s1] ev1];
      unfold outcomeOf, storeOf, eventsOf in *; cbn [fst snd] in *.
    + rewrite execs_app, Hex. eexists; eexists; reflexivity.
    + rewrite Hex. eexists; eexists; reflexivity.
  - subst r. unfold createWorktreeSafely. rewrite bind_run.
    destruct (switchAwayIfCheckedOut base branch s) as [[[[] | e1] s1] ev1];
      unfold outcomeOf, storeOf, eventsOf in *; cbn [fst snd] in *.
    + apply comesAfter_app_after; auto.
    + apply comesAfter_none; assumption.
  - intros ref name Hres Hpre. rewrite Hres. cbn. rewrite Hpre.
    apply replace_origin_prefix.
  - intros e Hres. rewrite Hres. reflexivity.
Qed.
End Worktree.

Lemma worktreeAddResults_app :
  forall a b,
    worktreeAddResults (a ++ b)%list
    = (worktreeAddResults a ++ worktreeAddResults b)%list.
Proof.
  intros a b. unfold worktreeAddResults.
  rewrite execs_app, filter_app, map_app. reflexivity.
Qed.

Section Attempts.
Context {host : Host}.

(** One iteration of the retry loop runs one [git worktree add]. *)
Lemma worktreeAttempt_one_add :
  forall base wt branch be attempt s,
    List.length
      (worktreeAddResults (eventsOf (worktreeAttempt base wt branch be attempt s)))
    = 1.
Proof.
  intros base wt branch be attempt s.
  destruct (worktreeAttempt base wt branch be attempt s) as [[o s'] evs]
    eqn:Hrun.
  unfold eventsOf. cbn [snd].
  unfold worktreeAttempt, cleanupStaleWorktree, pruneWorktreeReferences in Hrun.
  unfold_monad. cbn in Hrun.
  destruct be; cbn in Hrun; exec_in Hrun;
    try (destruct (Js.includes "already used by worktree" err); cbn in Hrun);
    repeat exec_in Hrun;
    repeat match type of Hrun with
           | context [match find ?p ?l with _ => _ end] =>
               destruct (find p l); cbn in Hrun; repeat exec_in Hrun
           | context [if (?a =? ?b)%nat then _ else _] =>
               destruct (a =? b)%nat; cbn in Hrun
           end;
    inversion Hrun; subst; reflexivity.
Qed.

Lemma worktreeRetryLoop_attempts :
  forall base wt branch be remaining attempt s,
    List.length
      (worktreeAddResults
         (eventsOf (worktreeRetryLoop base wt branch be remaining attempt s)))
    <= remaining.
Proof.
  intros base wt branch be remaining.
  induction remaining as [| k IH]; intros attempt s; cbn [worktreeRetryLoop].
  - cbn. lia.
  - rewrite bind_run.
    pose proof (worktreeAttempt_one_add base wt branch be attempt s) as Hone.
    destruct (worktreeAttempt base wt branch be attempt s)
      as [[[[] | e] s1] ev1];
      unfold outcomeOf, storeOf, eventsOf in *; cbn [fst snd] in *.
    + rewrite app_nil_r. lia.
    + rewrite worktreeAddResults_app, length_app, Hone.
      specialize (IH (S attempt) s1). lia.
    + lia.
Qed.

Lemma switchAway_no_add :
  forall base branch s,
    worktreeAddResults (eventsOf (switchAwayIfCheckedOut base branch s)) = [].
Proof.
  intros base branch s.
  destruct (switchAwayIfCheckedOut base branch s) as [[o s'] evs] eqn:Hrun.
  unfold eventsOf. cbn [snd].
  unfold switchAwayIfCheckedOut in Hrun. unfold_monad. cbn in Hrun.
  exec_in Hrun;
    try (destruct (Js.trim out =? branch); cbn in Hrun);
    repeat exec_in Hrun; inversion Hrun; subst; reflexivity.
Qed.

Lemma branchExistsAnywhere_no_add :
  forall base branch s,
    worktreeAddResults (eventsOf (branchExistsAnywhere base branch s)) = []
    /\ exists found, outcomeOf (branchExistsAnywhere base branch s) = Ok found.
Proof.
  intros base branch s.
  destruct (branchExistsAnywhere base branch s) as [[o s'] evs] eqn:Hrun.
  unfold eventsOf, outcomeOf. cbn [fst snd].
  unfold branchExistsAnywhere in Hrun. unfold_monad. cbn in Hrun.
  repeat exec_in Hrun; inversion Hrun; subst;
    (split; [reflexivity | eexists; reflexivity]).
Qed.

(** [createWorktreeSafely] makes at most [maxRetries] attempts. *)
Lemma createWorktreeSafely_attempts_bounded :
  forall base wt branch s,
    List.length
      (worktreeAddResults (eventsOf (createWorktreeSafely base wt branch s)))
    <= maxRetries.
Proof.
  intros base wt branch s. unfold createWorktreeSafely.
  rewrite bind_run.
  pose proof (switchAway_no_add base branch s) as Hsw.
  destruct (switchAwayIfCheckedOut base branch s) as [[[[] | e] s1] ev1];
    unfold outcomeOf, storeOf, eventsOf in *; cbn [fst snd] in *;
    [| rewrite Hsw; cbn; lia].
  rewrite worktreeAddResults_app, Hsw. cbn [app].
  rewrite bind_run.
  destruct (branchExistsAnywhere_no_add base branch s1) as [Hbe [found Hok]].
  destruct (branchExistsAnywhere base branch s1) as [[ob s2] ev2];
    unfold outcomeOf, storeOf, eventsOf in *; cbn [fst snd] in *.
  subst ob. cbn [fst snd].
  rewrite worktreeAddResults_app, Hbe. cbn [app].
  apply worktreeRetryLoop_attempts.
Qed.

(** On the last attempt, a failure that is not a worktree conflict is
    thrown to the caller. *)
Lemma worktreeAttempt_last_failure_thrown :
  forall base wt branch be s err env1,
    host_execute (worktreeAddCommand base wt branch be) None (env s)
      = (inr err, env1) ->
    Js.includes "already used by worktree" err = false ->
    outcomeOf (worktreeAttempt base wt branch be maxRetries s)
    = Throw ("Failed to create worktree after 3 attempts: " ++ err).
Proof.
  intros base wt branch be s err env1 Hadd Hother.
  destruct (worktreeAttempt base wt branch be maxRetries s) as [[o s'] evs]
    eqn:Hrun.
  unfold outcomeOf. cbn [fst].
  unfold worktreeAttempt in Hrun. unfold_monad.
  destruct be; cbn in Hrun, Hadd; rewrite Hadd in Hrun; cbn in Hrun;
    rewrite Hother in Hrun; cbn in Hrun; inversion Hrun; subst; reflexivity.
Qed.

(** On the last attempt, a worktree conflict whose cleanup fails is thrown
    with the message that names the branch. *)
Lemma worktreeAttempt_last_conflict_thrown :
  forall base wt branch be s err env1 err2 env2,
    host_execute (worktreeAddCommand base wt branch be) None (env s)
      = (inr err, env1) ->
    Js.includes "already used by worktree" err = true ->
    host_execute (git base ["worktree"; "list"; "--porcelain"]) None env1
      = (inr err2, env2) ->
    outcomeOf (worktreeAttempt base wt branch be maxRetries s)
    = Throw ("Failed to create worktree: '" ++ branch
             ++ "' is already used by a worktree and cleanup failed. Manual intervention may be required.").
Proof.
  intros base wt branch be s err env1 err2 env2 Hadd Hconflict Hlist.
  destruct (worktreeAttempt base wt branch be maxRetries s) as [[o s'] evs]
    eqn:Hrun.
  unfold outcomeOf. cbn [fst].
  unfold worktreeAttempt, cleanupStaleWorktree in Hrun. unfold_monad.
  destruct be; cbn in Hrun, Hadd; rewrite Hadd in Hrun; cbn in Hrun;
    rewrite Hconflict in Hrun; cbn in Hrun; rewrite Hlist in Hrun;
    cbn in Hrun; inversion Hrun; subst; reflexivity.
Qed.
End Attempts.

Section WorktreeRuns.
#[local] Existing Instance Scripted.host.

(** C6 as worded fails: the checkout of the default branch [develop] is
  refused, the base repository goes to [main], and the worktree is
  created all the same. *)
Lemma createWorktreeSafely_attempt_without_default :
~ switchesToDefaultFirst Scenario.base Scenario.worktree "feature"
    Scenario.defaultBusy.
Proof.
intros H. specialize (H "feature" _ eq_refl eq_refl).
vm_compute in H.
repeat match goal with
       | H : _ /\ _ |- _ => destruct H
       | H : _ \/ _ |- _ => destruct H
       | H : exists _, _ = _ |- _ => let x := fresh in destruct H as [x H]; try discriminate H
       end.
match goal with
| H : _ -> False |- _ => solve [apply H; do 3 eexists; reflexivity]
end.
Qed.

(** A run of the amended C6, on the same scenario. *)
Lemma createWorktreeSafely_switches_away_first_witness :
(exists rc rest,
   execs (eventsOf (createWorktreeSafely Scenario.base Scenario.worktree
                                         "feature" Scenario.defaultBusy))
   = (git Scenario.base ["rev-parse"; "--abbrev-ref"; "HEAD"], inl "feature")
       :: (git Scenario.base ["rev-parse"; "--abbrev-ref"; "origin/HEAD"],
           inl "origin/develop")
       :: (git Scenario.base ["checkout"; "develop"], rc)
       :: rest)
/\ comesAfter (fun e => switchedTo Scenario.base "develop" e
                        \/ switchedTo Scenario.base "main" e)
              (isWorktreeAdd Scenario.base)
              (eventsOf (createWorktreeSafely Scenario.base Scenario.worktree
                                              "feature" Scenario.defaultBusy)).
Proof.
destruct (@createWorktreeSafely_switches_away_first
            Scripted.host Scenario.base Scenario.worktree "feature"
            Scenario.defaultBusy "feature" _ eq_refl eq_refl)
  as (Hfirst & Horder & _).
split; [exact Hfirst | exact Horder].
Defined.

(** C2: a run that returns normally although none of its three attempts
  created the worktree.  Each attempt fails on a worktree conflict and
  each cleanup succeeds, so the third iteration falls out of the loop. *)
Example createWorktreeSafely_returns_without_worktree :
outcomeOf (createWorktreeSafely Scenario.base Scenario.worktree "feature"
                                Scenario.heldElsewhere) = Ok tt
/\ worktreeAddResults
     (eventsOf (createWorktreeSafely Scenario.base Scenario.worktree "feature"
                                     Scenario.heldElsewhere))
   = [Scenario.conflict; Scenario.conflict; Scenario.conflict].
Proof. vm_compute. split; reflexivity. Qed.

End WorktreeRuns.

(* ================================================================= *)
(** ** Steps that only run commands and write log lines *)

Section Quiet.
Context {host : Host}.
Variable forbidden : string -> bool.

Lemma quiet_ret : forall A (a : A), quiet forbidden (ret a).
Proof. intros A a s. split; [reflexivity | constructor]. Qed.

Lemma quiet_throw : forall A (e : Error), quiet forbidden (@throw _ A e).
Proof. intros A e s. split; [reflexivity | constructor]. Qed.

Lemma quiet_readDb : quiet forbidden readDb.
Proof. intros s. split; [reflexivity | constructor]. Qed.

Lemma quiet_dateNow : quiet forbidden dateNow.
Proof. intros s. split; [reflexivity | constructor]. Qed.

Lemma quiet_logger :
  forall lvl msg detail, forbidden msg = false -> quiet forbidden (logger lvl msg detail).
Proof.
  intros lvl msg detail H s. split; [reflexivity |].
  repeat constructor. exact H.
Qed.

Lemma quiet_executeCommand :
  forall argv cwd, quiet forbidden (executeCommand argv cwd).
Proof.
  intros argv cwd s. unfold executeCommand, storeOf, eventsOf.
  destruct (host_execute argv cwd (env s)) as [[out | err] e'];
    (split; [reflexivity | repeat constructor]).
Qed.

Lemma quiet_ensureDirectoryExists :
  forall path, quiet forbidden (ensureDirectoryExists path).
Proof.
  intros path s. unfold ensureDirectoryExists, storeOf, eventsOf.
  destruct (host_ensureDirectory path (env s)) as [[out | err] e'];
    (split; [reflexivity | repeat constructor]).
Qed.

Lemma quiet_bind :
  forall A B (m : M A) (f : A -> M B),
    quiet forbidden m -> (forall a, quiet forbidden (f a)) -> quiet forbidden (bind m f).
Proof.
  intros A B m f Hm Hf s. rewrite bind_run.
  destruct (Hm s) as [Hdb Hev].
  destruct (m s) as [[[a | e] s1] ev1];
    unfold outcomeOf, storeOf, eventsOf in *; cbn [fst snd] in *.
  - destruct (Hf a s1) as [Hdb2 Hev2].
    destruct (f a s1) as [[o2 s2] ev2];
      unfold outcomeOf, storeOf, eventsOf in *; cbn [fst snd] in *.
    split; [congruence | apply Forall_app; split; assumption].
  - split; assumption.
Qed.

Lemma quiet_tryCatch :
  forall A (m : M A) (h : Error -> M A),
    quiet forbidden m -> (forall e, quiet forbidden (h e)) -> quiet forbidden (tryCatch m h).
Proof.
  intros A m h Hm Hh s. unfold tryCatch.
  destruct (Hm s) as [Hdb Hev].
  destruct (m s) as [[[a | e] s1] ev1];
    unfold outcomeOf, storeOf, eventsOf in *; cbn [fst snd] in *.
  - split; assumption.
  - destruct (Hh e s1) as [Hdb2 Hev2].
    destruct (h e s1) as [[o2 s2] ev2];
      unfold outcomeOf, storeOf, eventsOf in *; cbn [fst snd] in *.
    split; [congruence | apply Forall_app; split; assumption].
Qed.

Lemma quiet_succeeds :
  forall A argv cwd (yes no : A), quiet forbidden (succeeds argv cwd yes no).
Proof.
  intros. unfold succeeds. apply quiet_tryCatch.
  - apply quiet_bind; [apply quiet_executeCommand | intros; apply quiet_ret].
  - intros; apply quiet_ret.
Qed.

End Quiet.

Create HintDb quiet.

(** Breaks a [quiet] goal down along the structure of the computation. *)
Ltac quiet_step solve_log :=
  first
    [ apply quiet_ret
    | apply quiet_throw
    | apply quiet_readDb
    | apply quiet_dateNow
    | apply quiet_executeCommand
    | apply quiet_ensureDirectoryExists
    | apply quiet_succeeds
    | apply quiet_logger; solve_log
    | apply quiet_bind; [| intro]
    | apply quiet_tryCatch; [| intro]
    | match goal with
      | |- quiet _ (if ?b then _ else _) => destruct b
      | |- quiet _ (match ?x with _ => _ end) => destruct x
      | |- quiet _ (let _ := _ in _) => cbv zeta
      end
    | solve [auto with quiet] ].

Section QuietSubroutines.
Context {host : Host}.
Variable forbidden : string -> bool.
Hypothesis forbidden_cases :
  forbidden = isSeparateCloneLog \/ forbidden = isWorktreePathLog.

Ltac log_ok :=
  destruct forbidden_cases as [-> | ->]; reflexivity.

Ltac quiet_auto := repeat quiet_step log_ok.

Lemma quiet_pruneWorktreeReferences :
  forall base, quiet forbidden (pruneWorktreeReferences base).
Proof. intros. unfold pruneWorktreeReferences. quiet_auto. Qed.
Hint Resolve quiet_pruneWorktreeReferences : quiet.

Lemma quiet_cleanupStaleWorktree :
  forall base wt, quiet forbidden (cleanupStaleWorktree base wt).
Proof. intros. unfold cleanupStaleWorktree. quiet_auto. Qed.
Hint Resolve quiet_cleanupStaleWorktree : quiet.

Lemma quiet_worktreeAttempt :
  forall base wt branch be attempt,
    quiet forbidden (worktreeAttempt base wt branch be attempt).
Proof. intros. unfold worktreeAttempt. quiet_auto. Qed.
Hint Resolve quiet_worktreeAttempt : quiet.

Lemma quiet_worktreeRetryLoop :
  forall base wt branch be remaining attempt,
    quiet forbidden (worktreeRetryLoop base wt branch be remaining attempt).
Proof.
  intros base wt branch be remaining.
  induction remaining as [| k IH]; intros attempt; cbn [worktreeRetryLoop].
  - apply quiet_ret.
  - apply quiet_bind; [apply quiet_worktreeAttempt |].
    intros [|]; [apply quiet_ret | apply IH].
Qed.
Hint Resolve quiet_worktreeRetryLoop : quiet.

Lemma quiet_switchAwayIfCheckedOut :
  forall base branch, quiet forbidden (switchAwayIfCheckedOut base branch).
Proof. intros. unfold switchAwayIfCheckedOut. quiet_auto. Qed.
Hint Resolve quiet_switchAwayIfCheckedOut : quiet.

Lemma quiet_branchExistsAnywhere :
  forall base branch, quiet forbidden (branchExistsAnywhere base branch).
Proof. intros. unfold branchExistsAnywhere. quiet_auto. Qed.
Hint Resolve quiet_branchExistsAnywhere : quiet.

Lemma quiet_createWorktreeSafely :
  forall base wt branch, quiet forbidden (createWorktreeSafely base wt branch).
Proof. intros. unfold createWorktreeSafely. quiet_auto. Qed.
Hint Resolve quiet_createWorktreeSafely : quiet.

Lemma quiet_checkoutResolved :
  forall p b l r, quiet forbidden (checkoutResolved p b l r).
Proof. intros. unfold checkoutResolved. quiet_auto. Qed.
Hint Resolve quiet_checkoutResolved : quiet.

Lemma quiet_switchExistingClone :
  forall p b, quiet forbidden (switchExistingClone p b).
Proof. intros. unfold switchExistingClone. quiet_auto. Qed.
Hint Resolve quiet_switchExistingClone : quiet.

Lemma quiet_removeExistingWorkspaceDir :
  forall d cwd, quiet forbidden (removeExistingWorkspaceDir d cwd).
Proof. intros. unfold removeExistingWorkspaceDir. quiet_auto. Qed.
Hint Resolve quiet_removeExistingWorkspaceDir : quiet.

Lemma quiet_cloneDefaultThenBranch :
  forall u d b, quiet forbidden (cloneDefaultThenBranch u d b).
Proof. intros. unfold cloneDefaultThenBranch. quiet_auto. Qed.
Hint Resolve quiet_cloneDefaultThenBranch : quiet.

Lemma quiet_cloneFresh :
  forall url branch cloneUrl d, quiet forbidden (cloneFresh url branch cloneUrl d).
Proof. intros. unfold cloneFresh. quiet_auto. Qed.
Hint Resolve quiet_cloneFresh : quiet.

End QuietSubroutines.

Section Inversion.
Context {host : Host}.

Lemma bind_inv :
  forall A B (m : M A) (f : A -> M B) s o s' evs,
    bind m f s = (o, s', evs) ->
    (exists a s1 ev1 ev2,
        m s = (Ok a, s1, ev1) /\ f a s1 = (o, s', ev2)
        /\ evs = (ev1 ++ ev2)%list)
    \/ (exists e, m s = (Throw e, s', evs) /\ o = Throw e).
Proof.
  intros A B m f s o s' evs H. unfold bind in H.
  destruct (m s) as [[[a | e] s1] ev1].
  - left. destruct (f a s1) as [[o2 s2] ev2] eqn:Hf. inversion H; subst.
    exists a, s1, ev1, ev2. split; [reflexivity |].
    split; [exact Hf | reflexivity].
  - right. inversion H; subst. exists e. split; reflexivity.
Qed.

Lemma quiet_run :
  forall forbidden A (m : M A) s o s' evs,
    quiet forbidden m -> m s = (o, s', evs) ->
    db s' = db s /\ Forall (benign forbidden) evs.
Proof.
  intros forbidden A m s o s' evs Hq Hrun. specialize (Hq s).
  rewrite Hrun in Hq. exact Hq.
Qed.
End Inversion.

Ltac inv_bind H :=
  apply bind_inv in H;
  destruct H as [(?a & ?s1 & ?ev1 & ?ev2 & ?Hm & H & ->) | (?e & ?Hm & ->)].

(** Replaces the variables that name the parts of a sub-run by the parts. *)
Ltac subst_new :=
  repeat match goal with
         | H : _ = ?x |- _ => is_var x; subst x
         end.

Ltac inv_run H :=
  first [ discriminate H
        | injection H; intros; subst_new; clear H ].

Ltac inv_prim H :=
  unfold logger, ret, throw, updateRepoStatus, readDb, dateNow in H;
  inv_run H.

Ltac case_if H :=
  match type of H with
  | (if ?b then _ else _) _ = _ => destruct b eqn:?
  end.

Ltac case_match H :=
  match type of H with
  | (match ?x with _ => _ end) _ = _ => destruct x
  end.

Ltac benign_tac Hf :=
  repeat first
         [ assumption
         | apply Forall_nil
         | apply Forall_app; split
         | apply Forall_cons;
           [ first [exact I | destruct Hf as [-> | ->]; reflexivity] | ] ].

(** More inversions: of a [try], and of the steps that talk to the host. *)
Section MoreInversion.
Context {host : Host}.

Lemma tryCatch_inv :
  forall A (m : M A) (h : Error -> M A) s o s' evs,
    tryCatch m h s = (o, s', evs) ->
    (exists a, m s = (Ok a, s', evs) /\ o = Ok a)
    \/ (exists e s1 ev1 ev2,
          m s = (Throw e, s1, ev1) /\ h e s1 = (o, s', ev2)
          /\ evs = (ev1 ++ ev2)%list).
Proof.
  intros A m h s o s' evs H. unfold tryCatch in H.
  destruct (m s) as [[[a | e] s1] ev1].
  - left. inversion H; subst. exists a. split; reflexivity.
  - right. destruct (h e s1) as [[o2 s2] ev2] eqn:Hh. inversion H; subst.
    exists e, s1, ev1, ev2. repeat split. exact Hh.
Qed.

Lemma executeCommand_inv :
  forall argv cwd s o s' evs,
    executeCommand argv cwd s = (o, s', evs) ->
    exists res,
      host_execute argv cwd (env s) = (res, env s')
      /\ db s' = db s
      /\ evs = [EvExec argv cwd res]
      /\ o = match res with inl out => Ok out | inr e => Throw e end.
Proof.
  intros argv cwd s o s' evs H. unfold executeCommand in H.
  destruct (host_execute argv cwd (env s)) as [[out | e] env1];
    inversion H; subst; eexists; repeat split.
Qed.

Lemma ensureDirectoryExists_inv :
  forall path s o s' evs,
    ensureDirectoryExists path s = (o, s', evs) ->
    exists res,
      host_ensureDirectory path (env s) = (res, env s')
      /\ db s' = db s
      /\ evs = [EvEnsureDir path res]
      /\ o = match res with inl _ => Ok tt | inr e => Throw e end.
Proof.
  intros path s o s' evs H. unfold ensureDirectoryExists in H.
  destruct (host_ensureDirectory path (env s)) as [[[] | e] env1];
    inversion H; subst; eexists; repeat split.
Qed.

End MoreInversion.

(** Replaces an outcome by the one a sub-run was found to have. *)
Ltac same_outcome Ho :=
  match type of Ho with
  | ?o = _ => is_var o; subst o
  | Ok ?x = Ok ?y =>
      injection Ho as Ho;
      first [ is_var y; subst y | is_var x; subst x | idtac ]
  | Throw ?x = Throw ?y =>
      injection Ho as Ho;
      first [ is_var y; subst y | is_var x; subst x | idtac ]
  | _ => discriminate Ho
  end.

Ltac inv_try H :=
  apply tryCatch_inv in H;
  destruct H as [(?a & H & ?Ho) | (?e & ?s1 & ?ev1 & ?ev2 & ?Hm & H & ->)];
  [ same_outcome Ho | ].

(** A sequence: its first step returned and the rest ran, or the first
    step threw. *)
Ltac inv_seq H :=
  apply bind_inv in H;
  destruct H as [(?a & ?s1 & ?ev1 & ?ev2 & ?Hm & H & ->) | (?e & H & ?Ho)];
  [| same_outcome Ho].

(** The command of a step that ran, with its result. *)
Ltac inv_exec H :=
  apply executeCommand_inv in H;
  destruct H as (?res & ?Hexec & ?Hdb & -> & ?Hout);
  match type of Hout with
  | _ = match ?r with _ => _ end => destruct r as [?out | ?err]
  end;
  same_outcome Hout.

Ltac inv_ensure H :=
  apply ensureDirectoryExists_inv in H;
  destruct H as (?res & ?Hens & ?Hdb & -> & ?Hout);
  match type of Hout with
  | _ = match ?r with _ => _ end => destruct r as [[] | ?err]
  end;
  same_outcome Hout.

Section Provisioning.
Context {host : Host}.

(** C10, on the guards: the guard of the [else if] is the condition of the
    [if] before it. *)
Lemma separateCloneGuard_is_shouldUseWorktree :
  forall useWorktree branch baseRepoExists,
    separateCloneGuard useWorktree branch baseRepoExists
    = shouldUseWorktree useWorktree branch baseRepoExists.
Proof.
  intros useWorktree branch baseRepoExists.
  unfold separateCloneGuard, shouldUseWorktree.
  destruct useWorktree, (Js.truthy branch),
    (Js.trim baseRepoExists =? "exists"); reflexivity.
Qed.

Lemma quiet_cloneViaWorktree :
  forall branch base d,
    quiet isSeparateCloneLog (cloneViaWorktree branch base d).
Proof.
  intros. unfold cloneViaWorktree.
  repeat first
         [ apply (@quiet_createWorktreeSafely _ _ (or_introl eq_refl))
         | quiet_step ltac:(reflexivity) ].
Qed.

Lemma reuseExistingClone_run :
  forall forbidden repo repoUrl branch base s o s' evs,
    forbidden = isSeparateCloneLog \/ forbidden = isWorktreePathLog ->
    reuseExistingClone repo repoUrl branch base s = (o, s', evs) ->
    settled forbidden repo s o s' evs.
Proof.
  intros forbidden repo repoUrl branch base s o s' evs Hf Hrun.
  unfold reuseExistingClone in Hrun.
  inv_bind Hrun; [| inv_prim Hm].
  inv_prim Hm.
  inv_bind Hrun;
    (eapply quiet_run with (forbidden := forbidden) in Hm;
     [| apply quiet_succeeds]);
    destruct Hm as [Hdb1 Hev1];
    [| split; [benign_tac Hf | cbn in *; congruence]].
  case_if Hrun.
  - inv_bind Hrun; [| inv_prim Hm]. inv_prim Hm.
    inv_bind Hrun;
      (eapply quiet_run with (forbidden := forbidden) in Hm;
       [| apply quiet_switchExistingClone; exact Hf]);
      destruct Hm as [Hdb2 Hev2];
      [| split; [benign_tac Hf | cbn in *; congruence]].
    inv_bind Hrun; [| inv_prim Hm]. inv_prim Hm. inv_prim Hrun.
    split; [benign_tac Hf |].
    split; [reflexivity | cbn in *; congruence].
  - inv_bind Hrun; [| inv_prim Hm]. inv_prim Hm.
    inv_bind Hrun;
      (eapply quiet_run with (forbidden := forbidden) in Hm;
       [| apply quiet_executeCommand]);
      destruct Hm as [Hdb2 Hev2];
      [| split; [benign_tac Hf | cbn in *; congruence]].
    inv_prim Hrun. split; [benign_tac Hf | cbn in *; congruence].
Qed.

Lemma cloneRepoPath_run :
  forall forbidden repo repoUrl branch useWorktree out base dir cloneUrl
         s o s' evs,
    forbidden = isSeparateCloneLog
    \/ (forbidden = isWorktreePathLog
        /\ shouldUseWorktree useWorktree branch out = false) ->
    cloneRepoPath repo repoUrl branch useWorktree out base dir cloneUrl s
      = (o, s', evs) ->
    settled forbidden repo s o s' evs.
Proof.
  intros forbidden repo repoUrl branch useWorktree out base dir cloneUrl
         s o s' evs Hforb Hrun.
  assert (Hf : forbidden = isSeparateCloneLog
               \/ forbidden = isWorktreePathLog) by tauto.
  unfold cloneRepoPath, cloneOrReuse in Hrun.
  rewrite separateCloneGuard_is_shouldUseWorktree in Hrun.
  destruct (shouldUseWorktree useWorktree branch out) eqn:Hshould.
  - destruct Hforb as [-> | [_ Hno]]; [| discriminate Hno].
    inv_bind Hrun;
      (eapply quiet_run in Hm; [| apply quiet_cloneViaWorktree]);
      destruct Hm as [Hdb1 Hev1].
    + inv_prim Hrun. split; [benign_tac Hf | exact Hdb1].
    + split; [benign_tac Hf | exact Hdb1].
  - inv_bind Hrun.
    + assert (Hreuse : settled forbidden repo s (Ok a) s1 ev1).
      { case_if Hm.
        - eapply reuseExistingClone_run; eauto.
        - inv_prim Hm. split; [constructor | reflexivity]. }
      destruct Hreuse as [Hev1 Hst1].
      destruct a as [ready |].
      * inv_prim Hrun. split; [benign_tac Hf | exact Hst1].
      * inv_bind Hrun;
          (eapply quiet_run with (forbidden := forbidden) in Hm0;
           [| apply quiet_cloneFresh; exact Hf]);
          destruct Hm0 as [Hdb2 Hev2].
        -- inv_prim Hrun. split; [benign_tac Hf | cbn in *; congruence].
        -- split; [benign_tac Hf | cbn in *; congruence].
    + assert (Hreuse : settled forbidden repo s (Throw e) s' evs).
      { case_if Hm.
        - eapply reuseExistingClone_run; eauto.
        - inv_prim Hm. }
      exact Hreuse.
Qed.

(** The body of the [try]: a run that returns has marked the workspace
    ready, in the table and in the value returned; a run that throws
    leaves the table as the insertion made it. *)
Lemma cloneRepoBody_run :
  forall forbidden repo repoUrl branch useWorktree out base dir s o s' evs,
    forbidden = isSeparateCloneLog
    \/ (forbidden = isWorktreePathLog
        /\ shouldUseWorktree useWorktree branch out = false) ->
    cloneRepoBody repo repoUrl branch useWorktree out base dir s
      = (o, s', evs) ->
    Forall (benign forbidden) evs
    /\ match o with
       | Ok ready =>
           ready = Repo.withCloneStatus repo "ready"
           /\ db s' = updateRepoStatus_db (db s) (Repo.id repo) "ready"
       | Throw _ => db s' = db s
       end.
Proof.
  intros forbidden repo repoUrl branch useWorktree out base dir s o s' evs
         Hforb Hrun.
  assert (Hf : forbidden = isSeparateCloneLog
               \/ forbidden = isWorktreePathLog) by tauto.
  unfold cloneRepoBody in Hrun.
  inv_bind Hrun; [| inv_prim Hm]. inv_prim Hm.
  inv_bind Hrun;
    (eapply cloneRepoPath_run in Hm; [| exact Hforb]);
    destruct Hm as [Hev1 Hst1]; [| split; [benign_tac Hf | exact Hst1]].
  case_match Hrun.
  - inv_prim Hrun. split; [benign_tac Hf | exact Hst1].
  - inv_bind Hrun; [| inv_prim Hm]. inv_prim Hm.
    inv_bind Hrun; [| inv_prim Hm]. inv_prim Hm. inv_prim Hrun.
    split; [benign_tac Hf |].
    split; [reflexivity | cbn in *; congruence].
Qed.
End Provisioning.

(* ================================================================= *)
(** ** Facts about the record store *)

Section StoreFacts.
Context {host : Host}.

Lemma lastInsertRowid_above :
  forall rows row, In row rows -> (RepoRow.id row < lastInsertRowid rows)%Z.
Proof.
  intros rows row Hin. unfold lastInsertRowid.
  induction rows as [| r rest IH]; cbn; [contradiction |].
  destruct Hin as [-> | Hin].
  - lia.
  - specialize (IH Hin). lia.
Qed.

Lemma hasId_fresh :
  forall rows row,
    In row rows -> hasId (lastInsertRowid rows) row = false.
Proof.
  intros rows row Hin. unfold hasId. apply Z.eqb_neq.
  pose proof (lastInsertRowid_above rows row Hin). lia.
Qed.

Lemma find_fresh :
  forall rows, find (hasId (lastInsertRowid rows)) rows = None.
Proof.
  intros rows. destruct (find _ rows) as [row |] eqn:Hfind; [| reflexivity].
  apply find_some in Hfind. destruct Hfind as [Hin Hid].
  rewrite (hasId_fresh rows row Hin) in Hid. discriminate Hid.
Qed.

Lemma find_app_none :
  forall A (p : A -> bool) l1 l2,
    find p l1 = None -> find p (l1 ++ l2) = find p l2.
Proof.
  intros A p l1 l2. induction l1 as [| x l IH]; cbn; [reflexivity |].
  destruct (p x); [discriminate | exact IH].
Qed.

(** The row just inserted is the one its id finds. *)
Lemma getRepoById_inserted :
  forall d input,
    let row := insertedRow (repos d) input in
    getRepoById (setRepos d (repos d ++ [row])) (RepoRow.id row)
    = Some (rowToRepo row).
Proof.
  intros d input row. unfold getRepoById. cbn [repos setRepos].
  rewrite find_app_none by apply find_fresh.
  cbn. unfold hasId. rewrite Z.eqb_refl. reflexivity.
Qed.

Lemma setRepos_same : forall d, setRepos d (repos d) = d.
Proof. intros [rows token]. reflexivity. Qed.

(** Deleting the row just inserted gives the table back. *)
Lemma deleteRepo_inserted :
  forall d input,
    let row := insertedRow (repos d) input in
    deleteRepo_db (setRepos d (repos d ++ [row])) (RepoRow.id row) = d.
Proof.
  intros d input row.
  assert (Hkeep : filter (fun r => negb (hasId (RepoRow.id row) r))
                         (repos d ++ [row]) = repos d).
  { rewrite filter_app. cbn [filter]. unfold hasId at 2.
    rewrite Z.eqb_refl. cbn [negb]. rewrite app_nil_r.
    apply forallb_filter_id. apply forallb_forall.
    intros r Hin. subst row. cbn [RepoRow.id insertedRow].
    rewrite hasId_fresh by assumption. reflexivity. }
  unfold deleteRepo_db, setRepos. cbn [repos gitToken].
  rewrite Hkeep. destruct d; reflexivity.
Qed.

Lemma find_pointwise :
  forall A (p q : A -> bool) l,
    (forall x, p x = q x) -> find p l = find q l.
Proof.
  intros A p q l H. induction l as [| x l IH]; cbn; [reflexivity |].
  rewrite H, IH. reflexivity.
Qed.

Lemma matches_orUndefined :
  forall url branch row,
    matchesUrlAndBranch url (Js.orUndefined branch) row
    = matchesUrlAndBranch url branch row.
Proof.
  intros url branch row. unfold matchesUrlAndBranch, Js.orUndefined.
  destruct (Js.truthy branch) eqn:Ht; [rewrite Ht; reflexivity |].
  reflexivity.
Qed.

Lemma lookup_orUndefined :
  forall d url branch,
    getRepoByUrlAndBranch d url (Js.orUndefined branch)
    = getRepoByUrlAndBranch d url branch.
Proof.
  intros d url branch. unfold getRepoByUrlAndBranch. f_equal.
  apply find_pointwise. intros row. apply matches_orUndefined.
Qed.
End StoreFacts.

(* ================================================================= *)
(** ** Provisioning *)

Section ProvisioningShape.
Context {host : Host}.

Lemma extractRepoName_run :
  forall url s, extractRepoName url s = (Ok (repoNameAt url s), s, []).
Proof.
  intros url s. unfold extractRepoName, repoNameAt.
  destruct (matchRepoName url); reflexivity.
Qed.

Lemma createRepoInput_repoUrl :
  forall url dir branch uw out now,
    CreateRepoInput.repoUrl (createRepoInput url dir branch uw out now) = url.
Proof.
  intros. unfold createRepoInput.
  destruct (shouldUseWorktree uw branch out); reflexivity.
Qed.

Lemma createRepoInput_branch :
  forall url dir branch uw out now,
    CreateRepoInput.branch (createRepoInput url dir branch uw out now)
    = Js.orUndefined branch.
Proof.
  intros. unfold createRepoInput.
  destruct (shouldUseWorktree uw branch out); reflexivity.
Qed.

(** Every run of [cloneRepo] has one of the shapes of [CloneRun]. *)
Lemma cloneRepo_shape :
  forall repoUrl branch useWorktree s o s' evs,
    cloneRepo repoUrl branch useWorktree s = (o, s', evs) ->
    CloneRun repoUrl branch useWorktree s o s' evs.
Proof.
  intros repoUrl branch useWorktree s o s' evs Hrun.
  unfold cloneRepo in Hrun.
  inv_bind Hrun; rewrite extractRepoName_run in Hm; inv_run Hm.
  inv_bind Hrun; [| inv_prim Hm]. inv_prim Hm.
  cbn [app].
  destruct (getRepoByUrlAndBranch (db s) repoUrl branch) as [existing |]
    eqn:Hlookup.
  - inv_bind Hrun; [| inv_prim Hm]. inv_prim Hm. inv_prim Hrun.
    apply RunExisting. exact Hlookup.
  - inv_bind Hrun; unfold ensureDirectoryExists in Hm;
      destruct (host_ensureDirectory getReposPath (env s))
        as [[[] | e0] env1] eqn:Hens; inv_run Hm;
      [| apply RunNoRoot; assumption].
    inv_bind Hrun; unfold executeCommand in Hm; cbn [env db] in Hm;
      destruct (host_execute (testDirCommand (repoNameAt repoUrl s) "missing")
                             (Some (path_resolve [getReposPath])) env1)
        as [[out | e0] env2] eqn:Hexec; inv_run Hm;
      [| eapply RunNoTest; eassumption].
    inv_bind Hrun; [| inv_prim Hm]. inv_prim Hm.
    cbn [db env] in Hrun.
    cbn [app].
    set (input := createRepoInput
                    repoUrl
                    (worktreeDirNameOf (repoNameAt repoUrl s) branch
                                       useWorktree)
                    branch useWorktree out (host_now env2)) in *.
    inv_bind Hrun; unfold createRepo in Hm; cbn [db env] in Hm;
      destruct (insert_ignored input (repos (db s))) eqn:Hign.
    + subst input.
      rewrite createRepoInput_repoUrl, createRepoInput_branch,
        lookup_orUndefined, Hlookup in Hm. inv_run Hm.
    + rewrite getRepoById_inserted in Hm. inv_run Hm.
      unfold tryCatch in Hrun.
      match type of Hrun with
      | context [cloneRepoBody ?r ?u ?b ?w ?o ?n ?d ?st] =>
          destruct (cloneRepoBody r u b w o n d st)
            as [[[ready | e] sb] evb] eqn:Hbody
      end.
      * inv_run Hrun.
        pose proof (@RunBody _ repoUrl branch useWorktree s env1 out env2
                             _ _ _ Hlookup Hens Hexec Hign Hbody) as R.
        cbn beta iota zeta in R. rewrite app_nil_r in R. exact R.
      * unfold bind, logger, deleteRepo, throw in Hrun.
        cbn [fst snd app db env] in Hrun. inv_run Hrun.
        pose proof (@RunBody _ repoUrl branch useWorktree s env1 out env2
                             _ _ _ Hlookup Hens Hexec Hign Hbody) as R.
        cbn beta iota zeta in R. exact R.
    + subst input.
      rewrite createRepoInput_repoUrl, createRepoInput_branch,
        lookup_orUndefined, Hlookup in Hm. inv_run Hm.
      eapply RunIgnored; eassumption.
    + rewrite getRepoById_inserted in Hm. inv_run Hm.
Qed.

End ProvisioningShape.

Section Idempotence.
Context {host : Host}.

Lemma find_none_forall :
  forall A (p : A -> bool) l,
    find p l = None -> Forall (fun x => p x = false) l.
Proof.
  intros A p l. induction l as [| x l IH]; cbn; intros H; [constructor |].
  destruct (p x) eqn:Hp; [discriminate |]. constructor; auto.
Qed.

Lemma lookup_none_find :
  forall d url branch,
    getRepoByUrlAndBranch d url branch = None ->
    find (matchesUrlAndBranch url branch) (repos d) = None.
Proof.
  intros d url branch H. unfold getRepoByUrlAndBranch in H.
  destruct (find _ (repos d)); [discriminate | reflexivity].
Qed.

Lemma matches_setStatus :
  forall url branch status row,
    matchesUrlAndBranch url branch (setStatus status row)
    = matchesUrlAndBranch url branch row.
Proof. intros. reflexivity. Qed.

Lemma matches_inserted :
  forall url dir branch uw out now rows,
    matchesUrlAndBranch
      url branch
      (insertedRow rows (createRepoInput url dir branch uw out now)) = true.
Proof.
  intros. unfold matchesUrlAndBranch, insertedRow.
  cbn [RepoRow.repo_url RepoRow.branch].
  rewrite createRepoInput_repoUrl, createRepoInput_branch, String.eqb_refl.
  unfold Js.orUndefined.
  destruct (Js.truthy branch) eqn:Ht; rewrite ?Ht; cbn.
  - destruct branch as [b |]; [apply String.eqb_refl | discriminate Ht].
  - reflexivity.
Qed.

Lemma find_after_status :
  forall url branch id status l,
    Forall (fun r => matchesUrlAndBranch url branch r = false) l ->
    find (matchesUrlAndBranch url branch)
         (map (fun r => if hasId id r then setStatus status r else r) l)
    = None.
Proof.
  intros url branch id status l H.
  induction H as [| r l Hr Hl IH]; cbn; [reflexivity |].
  destruct (hasId id r); rewrite ?matches_setStatus, Hr; exact IH.
Qed.

(** After the row has been inserted and marked ready, the lookup by URL
    and branch finds it, as the workspace that [cloneRepo] returns. *)
Lemma lookup_after_ready :
  forall d url dir branch uw out now,
    let row := insertedRow (repos d)
                           (createRepoInput url dir branch uw out now) in
    getRepoByUrlAndBranch d url branch = None ->
    getRepoByUrlAndBranch
      (updateRepoStatus_db (setRepos d (repos d ++ [row])) (RepoRow.id row)
                           "ready")
      url branch
    = Some (Repo.withCloneStatus (rowToRepo row) "ready").
Proof.
  intros d url dir branch uw out now row Hnone.
  apply lookup_none_find in Hnone.
  unfold getRepoByUrlAndBranch, updateRepoStatus_db.
  cbn [repos setRepos]. rewrite map_app.
  rewrite find_app_none.
  - assert (Hid : hasId (RepoRow.id row) row = true)
      by (unfold hasId; apply Z.eqb_refl).
    cbn [map]. rewrite Hid. cbn [find]. rewrite matches_setStatus.
    subst row. rewrite matches_inserted. reflexivity.
  - apply find_none_forall in Hnone. apply find_after_status. exact Hnone.
Qed.

(** C3. When a row exists for the URL and branch, [cloneRepo] returns it
    as it is; the store is untouched and the only event is a log line: no
    directory is inspected, no row inserted, no command run.  Hence a
    call that succeeded is followed by calls that return the same
    workspace. *)
Theorem cloneRepo_idempotent :
  forall (repoUrl : string) (branch : option string) (useWorktree : bool)
         (s : Store),
    (forall existing,
        getRepoByUrlAndBranch (db s) repoUrl branch = Some existing ->
        cloneRepo repoUrl branch useWorktree s
        = (Ok existing, s, [alreadyExistsLog repoUrl branch]))
    /\ (forall r s1 evs,
           cloneRepo repoUrl branch useWorktree s = (Ok r, s1, evs) ->
           getRepoByUrlAndBranch (db s1) repoUrl branch = Some r
           /\ cloneRepo repoUrl branch useWorktree s1
              = (Ok r, s1, [alreadyExistsLog repoUrl branch])).
Proof.
  intros repoUrl branch useWorktree s.
  assert (Hshort : forall s0 existing,
             getRepoByUrlAndBranch (db s0) repoUrl branch = Some existing ->
             cloneRepo repoUrl branch useWorktree s0
             = (Ok existing, s0, [alreadyExistsLog repoUrl branch])).
  { intros s0 existing Hex. unfold cloneRepo.
    unfold bind at 1. rewrite extractRepoName_run.
    unfold bind at 1. unfold readDb at 1. rewrite Hex. reflexivity. }
  split; [apply Hshort |].
  intros r s1 evs Hrun.
  assert (Hfound : getRepoByUrlAndBranch (db s1) repoUrl branch = Some r).
  { apply cloneRepo_shape in Hrun.
    inversion Hrun; subst.
    - assumption.
    - match goal with
      | Hb : cloneRepoBody _ _ _ _ _ _ _ _ = (Ok r, _, _) |- _ =>
          eapply cloneRepoBody_run with (forbidden := isSeparateCloneLog)
            in Hb; [| left; reflexivity];
          destruct Hb as [_ [-> Hdb]]
      end.
      rewrite Hdb. apply lookup_after_ready. assumption. }
  split; [exact Hfound | apply Hshort; exact Hfound].
Qed.
End Idempotence.

Section Compensation.
Context {host : Host}.

(** C1. When a call of [cloneRepo] throws after it has inserted a row, the
    last two events of the call are the failure log and the deletion of
    that row; no row with its id and no row for the URL and branch is left
    in the table, which is again the table the call started with. *)
Theorem cloneRepo_failure_compensated :
  forall (repoUrl : string) (branch : option string) (useWorktree : bool)
         (s : Store) (e : Error) (s1 : Store) (evs : list Event)
         (input : CreateRepoInput.t),
    cloneRepo repoUrl branch useWorktree s = (Throw e, s1, evs) ->
    In (EvInsert input 1) evs ->
    let id := lastInsertRowid (repos (db s)) in
    (exists before,
        evs = (before ++ [failureLog repoUrl branch e; EvDelete id])%list
        /\ In (EvInsert input 1) before)
    /\ getRepoById (db s1) id = None
    /\ Forall (fun row => matchesUrlAndBranch repoUrl branch row = false)
              (repos (db s1))
    /\ db s1 = db s.
Proof.
  intros repoUrl branch useWorktree s e s1 evs input Hrun Hin id.
  apply cloneRepo_shape in Hrun.
  inversion Hrun; subst; clear Hrun.
  - cbn in Hin. destruct Hin as [H | []]. discriminate H.
  - cbn in Hin. destruct Hin as [H | [H | []]]; discriminate H.
  - cbn in Hin. destruct Hin as [H | [H | [H | []]]]; discriminate H.
  - match goal with
    | Hb : cloneRepoBody _ _ _ _ _ _ _ _ = (Throw e, _, _) |- _ =>
        eapply cloneRepoBody_run with (forbidden := isSeparateCloneLog)
          in Hb; [| left; reflexivity];
        destruct Hb as [Hev Hdb]
    end.
    assert (Hrestored : deleteRepo_db (db sb) (RepoRow.id row) = db s).
    { rewrite Hdb. cbn [db]. apply deleteRepo_inserted. }
    cbn [db]. rewrite Hrestored.
    split; [| split; [| split]].
    + exists (insertionEvents repoName out input0 1 ++ evb)%list. split.
      * rewrite <- app_assoc. reflexivity.
      * rewrite app_assoc in Hin. apply in_app_or in Hin.
        destruct Hin as [Hin | Hin]; [exact Hin |].
        cbn in Hin. destruct Hin as [H4 | [H4 | []]]; discriminate H4.
    + unfold getRepoById. subst id. rewrite find_fresh. reflexivity.
    + apply find_none_forall. apply lookup_none_find. assumption.
    + reflexivity.
Qed.
End Compensation.

Ltac not_log :=
  let H := fresh in
  let Hm := fresh in
  intros (? & ? & ? & H & Hm);
  first [ discriminate H
        | injection H; intros; subst; cbn in Hm; discriminate Hm ].

Section Reachability.
Context {host : Host}.



Lemma benign_not_separate :
  forall e, benign isSeparateCloneLog e -> ~ entersSeparateClone e.
Proof.
  intros e Hb (lvl & msg & d & -> & Hm). unfold benign in Hb.
  rewrite Hb in Hm. discriminate Hm.
Qed.



(** C10. The guard of the [else if] of line 78 is the condition of the
    [if] before it, so the provisioning paths are two: the worktree path
    and the final [else]; no run of [cloneRepo] writes the log line that
    opens the separate clone. *)
Theorem cloneRepo_separate_clone_unreachable :
  forall (repoUrl : string) (branch : option string) (useWorktree : bool)
         (s : Store),
    (forall out,
        separateCloneGuard useWorktree branch out
        = shouldUseWorktree useWorktree branch out)
    /\ (forall repo out base dir cloneUrl,
           cloneRepoPath repo repoUrl branch useWorktree out base dir cloneUrl
           = if shouldUseWorktree useWorktree branch out
             then cloneViaWorktree branch base dir ;;; ret None
             else cloneOrReuse repo repoUrl branch out base dir cloneUrl)
    /\ Forall (fun e => ~ entersSeparateClone e)
              (eventsOf (cloneRepo repoUrl branch useWorktree s)).
Proof.
  intros repoUrl branch useWorktree s. split; [| split].
  - intros out. apply separateCloneGuard_is_shouldUseWorktree.
  - intros repo out base dir cloneUrl. unfold cloneRepoPath.
    rewrite separateCloneGuard_is_shouldUseWorktree.
    destruct (shouldUseWorktree useWorktree branch out); reflexivity.
  - destruct (cloneRepo repoUrl branch useWorktree s) as [[o s1] evs] eqn:Hrun.
    unfold eventsOf. cbn [snd].
    apply cloneRepo_shape in Hrun.
    inversion Hrun; subst; clear Hrun;
      unfold insertionEvents, failureLog.
    1-4: repeat constructor; not_log.
    match goal with
    | Hb : cloneRepoBody _ _ _ _ _ _ _ _ = _ |- _ =>
        eapply cloneRepoBody_run with (forbidden := isSeparateCloneLog)
          in Hb; [| left; reflexivity];
        destruct Hb as [Hev _]
    end.
    repeat (apply Forall_app; split).
    + repeat constructor; not_log.
    + eapply Forall_impl; [| exact Hev]. apply benign_not_separate.
    + destruct o; repeat constructor; not_log.
Qed.
End Reachability.

Section Only.
Context {host : Host}.
Variable P : Event -> Prop.












End Only.



Section WorktreePath.
Context {host : Host}.



End WorktreePath.

Section WorktreeMode.
Context {host : Host}.



End WorktreeMode.

Section ProvisioningRuns.
#[local] Existing Instance Scripted.host.

(** A run of C1: the clone fails and the row inserted for it is deleted. *)
Lemma cloneRepo_failure_compensated_witness :
(exists before,
    eventsOf Provision.failedClone
    = (before ++ [failureLog Provision.url None "fatal: repository not found";
                  EvDelete 1])%list
    /\ In (EvInsert Provision.appInput 1) before)
/\ getRepoById (db (storeOf Provision.failedClone)) 1 = None
/\ Forall (fun row => matchesUrlAndBranch Provision.url None row = false)
          (repos (db (storeOf Provision.failedClone)))
/\ db (storeOf Provision.failedClone) = Scripted.emptyDb.
Proof.
exact (@cloneRepo_failure_compensated
         Scripted.host Provision.url None false Provision.cloneFails
         "fatal: repository not found"
         (storeOf Provision.failedClone) (eventsOf Provision.failedClone)
         Provision.appInput eq_refl
         (or_intror (or_intror (or_introl eq_refl)))).
Defined.

(** A run of C3: a second call after a first success. *)
Lemma cloneRepo_idempotent_witness :
getRepoByUrlAndBranch (db (storeOf Provision.freshClone)) Provision.url None
= Some Provision.appReady
/\ cloneRepo Provision.url None false (storeOf Provision.freshClone)
   = (Ok Provision.appReady, storeOf Provision.freshClone,
      [alreadyExistsLog Provision.url None]).
Proof.
exact (proj2 (@cloneRepo_idempotent
                Scripted.host Provision.url None false Provision.cloneSucceeds)
             Provision.appReady (storeOf Provision.freshClone)
             (eventsOf Provision.freshClone) eq_refl).
Defined.

End ProvisioningRuns.

(* ================================================================= *)
(** ** The record store *)

Section StoreLookups.
Context {host : Host}.

Lemma find_hasId_unique :
  forall rows row,
    NoDup (map RepoRow.id rows) -> In row rows ->
    find (hasId (RepoRow.id row)) rows = Some row.
Proof.
  intros rows row Hnd Hin. induction rows as [| r rest IH]; [contradiction |].
  cbn in Hnd. inversion Hnd as [| x l Hnot Hnd']; subst.
  cbn [find]. unfold hasId at 1.
  destruct (RepoRow.id r =? RepoRow.id row)%Z eqn:Heq.
  - destruct Hin as [-> | Hin]; [reflexivity |].
    apply Z.eqb_eq in Heq. exfalso. apply Hnot. rewrite Heq.
    apply in_map. exact Hin.
  - destruct Hin as [-> | Hin]; [rewrite Z.eqb_refl in Heq; discriminate |].
    apply IH; assumption.
Qed.

Lemma find_map_other :
  forall (f : RepoRow.t -> RepoRow.t) id id' rows,
    id' <> id -> (forall row, RepoRow.id (f row) = RepoRow.id row) ->
    find (hasId id') (map (fun row => if hasId id row then f row else row) rows)
    = find (hasId id') rows.
Proof.
  intros f id id' rows Hne Hid. induction rows as [| r rest IH]; [reflexivity |].
  cbn [map find]. destruct (hasId id r) eqn:Hr.
  - unfold hasId at 1. rewrite Hid. unfold hasId in Hr. apply Z.eqb_eq in Hr.
    destruct (RepoRow.id r =? id')%Z eqn:Hr'.
    + apply Z.eqb_eq in Hr'. congruence.
    + change (hasId id' r) with (RepoRow.id r =? id')%Z. rewrite Hr'. exact IH.
  - destruct (hasId id' r); [reflexivity | exact IH].
Qed.

Lemma find_map_same :
  forall (f : RepoRow.t -> RepoRow.t) id rows,
    (forall row, RepoRow.id (f row) = RepoRow.id row) ->
    find (hasId id) (map (fun row => if hasId id row then f row else row) rows)
    = option_map f (find (hasId id) rows).
Proof.
  intros f id rows Hid. induction rows as [| r rest IH]; [reflexivity |].
  cbn [map find]. destruct (hasId id r) eqn:Hr.
  - unfold hasId at 1. rewrite Hid. unfold hasId in Hr. rewrite Hr. reflexivity.
  - rewrite Hr. exact IH.
Qed.

Lemma map_id_update :
  forall (f : RepoRow.t -> RepoRow.t) id rows,
    (forall row, RepoRow.id (f row) = RepoRow.id row) ->
    map RepoRow.id (map (fun row => if hasId id row then f row else row) rows)
    = map RepoRow.id rows.
Proof.
  intros f id rows Hid. rewrite map_map. apply map_ext.
  intros row. destruct (hasId id row); [apply Hid | reflexivity].
Qed.

Lemma find_filter_other :
  forall id id' rows,
    id' <> id ->
    find (hasId id') (filter (fun row => negb (hasId id row)) rows)
    = find (hasId id') rows.
Proof.
  intros id id' rows Hne. induction rows as [| r rest IH]; [reflexivity |].
  cbn [filter find]. destruct (hasId id r) eqn:Hr; cbn [negb].
  - unfold hasId in Hr. apply Z.eqb_eq in Hr.
    change (hasId id' r) with (RepoRow.id r =? id')%Z.
    destruct (RepoRow.id r =? id')%Z eqn:Hr'.
    + apply Z.eqb_eq in Hr'. congruence.
    + exact IH.
  - cbn [find]. destruct (hasId id' r); [reflexivity | exact IH].
Qed.

Lemma find_filter_same :
  forall id rows,
    find (hasId id) (filter (fun row => negb (hasId id row)) rows) = None.
Proof.
  intros id rows. induction rows as [| r rest IH]; [reflexivity |].
  cbn [filter]. destruct (hasId id r) eqn:Hr; cbn [negb]; [exact IH |].
  cbn [find]. rewrite Hr. exact IH.
Qed.

Lemma NoDup_map_filter :
  forall A B (f : A -> B) (p : A -> bool) l,
    NoDup (map f l) -> NoDup (map f (filter p l)).
Proof.
  intros A B f p l. induction l as [| x l IH]; cbn; [trivial |].
  intros Hnd. inversion Hnd as [| y m Hnot Hnd']; subst.
  destruct (p x); cbn; [| auto].
  constructor; [| auto].
  intros Hin. apply Hnot. apply in_map_iff in Hin.
  destruct Hin as (z & Hz & Hin). apply filter_In in Hin.
  apply in_map_iff. exists z. tauto.
Qed.

Lemma find_app_some :
  forall A (p : A -> bool) l1 l2 x,
    find p l1 = Some x -> find p (l1 ++ l2) = Some x.
Proof.
  intros A p l1 l2 x. induction l1 as [| y l IH]; cbn; [discriminate |].
  destruct (p y); [trivial | exact IH].
Qed.

Lemma uniqueIds_insert :
  forall d input,
    uniqueIds d ->
    uniqueIds (setRepos d (repos d ++ [insertedRow (repos d) input])).
Proof.
  intros d input Hnd. unfold uniqueIds in *. cbn [repos setRepos].
  rewrite map_app. cbn [map insertedRow RepoRow.id].
  apply NoDup_app; [exact Hnd | repeat constructor; intros [] |].
  intros x Hin [<- | []].
  apply in_map_iff in Hin. destruct Hin as (row & Hid & Hin).
  pose proof (lastInsertRowid_above (repos d) row Hin). lia.
Qed.

Lemma rowToRepo_id : forall row, Repo.id (rowToRepo row) = RepoRow.id row.
Proof. reflexivity. Qed.

Lemma matches_sound :
  forall url branch row,
    matchesUrlAndBranch url branch row = true ->
    RepoRow.repo_url row = url
    /\ RepoRow.branch row = Js.orUndefined branch.
Proof.
  intros url branch row. unfold matchesUrlAndBranch, Js.orUndefined.
  destruct (Js.truthy branch) eqn:Ht; intros H;
    apply andb_prop in H; destruct H as [Hu Hb];
    apply String.eqb_eq in Hu; (split; [exact Hu |]).
  - destruct (RepoRow.branch row) as [rb |], branch as [b |];
      try discriminate.
    apply String.eqb_eq in Hb. congruence.
  - destruct (RepoRow.branch row); [discriminate | reflexivity].
Qed.

(** X1. Whatever [createRepo] returns -- the row it inserted, or the row
    that was already there when the insertion was ignored -- is a workspace
    of the URL and branch asked for, and it is the workspace that its id
    finds in the table afterwards; the rows that were in the table are
    found as before, and ids stay unique. *)
Theorem createRepo_returns_stored_row :
  forall (input : CreateRepoInput.t) (s s' : Store) (r : Repo.t)
         (evs : list Event),
    uniqueIds (db s) ->
    createRepo input s = (Ok r, s', evs) ->
    Repo.repoUrl r = CreateRepoInput.repoUrl input
    /\ Repo.branch r = Js.orUndefined (CreateRepoInput.branch input)
    /\ getRepoById (db s') (Repo.id r) = Some r
    /\ (forall id, id <> Repo.id r ->
                   getRepoById (db s') id = getRepoById (db s) id)
    /\ uniqueIds (db s').
Proof.
  intros input s s' r evs Hnd Hrun. unfold createRepo in Hrun.
  destruct (insert_ignored input (repos (db s))).
  - destruct (getRepoByUrlAndBranch (db s) _ _) as [existing |] eqn:Hlook;
      inv_run Hrun.
    unfold getRepoByUrlAndBranch in Hlook.
    destruct (find _ (repos (db s))) as [row |] eqn:Hfind; [| discriminate].
    cbn in Hlook. injection Hlook as <-.
    apply find_some in Hfind. destruct Hfind as [Hin Hmatch].
    apply matches_sound in Hmatch. destruct Hmatch as [Hu Hb].
    repeat split; try assumption.
    unfold getRepoById. rewrite rowToRepo_id.
    rewrite (find_hasId_unique _ _ Hnd Hin). reflexivity.
  - rewrite getRepoById_inserted in Hrun. inv_run Hrun.
    cbn [db]. repeat split.
    + apply getRepoById_inserted.
    + intros id Hne. unfold getRepoById. cbn [repos setRepos].
      rewrite rowToRepo_id in Hne. cbn [insertedRow RepoRow.id] in Hne.
      destruct (find (hasId id) (repos (db s))) as [row |] eqn:Hfind.
      * rewrite (find_app_some _ _ _ Hfind). reflexivity.
      * rewrite find_app_none by exact Hfind. cbn [find].
        unfold hasId. cbn [insertedRow RepoRow.id].
        destruct (lastInsertRowid (repos (db s)) =? id)%Z eqn:Heq;
          [apply Z.eqb_eq in Heq; congruence | reflexivity].
    + apply uniqueIds_insert. exact Hnd.
Qed.

(** X2. [deleteRepo] forgets the row of the id and no other: the id is not
    found afterwards, every other id finds what it found before, and ids
    stay unique. *)
Theorem deleteRepo_forgets_only_that_row :
  forall (d : Database) (id : Z),
    getRepoById (deleteRepo_db d id) id = None
    /\ (forall id', id' <> id ->
                    getRepoById (deleteRepo_db d id) id' = getRepoById d id')
    /\ (uniqueIds d -> uniqueIds (deleteRepo_db d id)).
Proof.
  intros d id. unfold getRepoById, deleteRepo_db, uniqueIds.
  cbn [repos setRepos]. repeat split.
  - rewrite find_filter_same. reflexivity.
  - intros id' Hne. rewrite find_filter_other by exact Hne. reflexivity.
  - apply NoDup_map_filter.
Qed.

(** X3. [updateRepoStatus] changes the status of the workspace of the id
    and nothing else: the id finds the same workspace with the new status
    (nothing, when it found nothing), every other id finds what it found
    before, and the ids of the table are the same, in the same order. *)
Theorem updateRepoStatus_changes_only_status :
  forall (d : Database) (id : Z) (status : string),
    getRepoById (updateRepoStatus_db d id status) id
    = option_map (fun r => Repo.withCloneStatus r status) (getRepoById d id)
    /\ (forall id', id' <> id ->
          getRepoById (updateRepoStatus_db d id status) id'
          = getRepoById d id')
    /\ map RepoRow.id (repos (updateRepoStatus_db d id status))
       = map RepoRow.id (repos d).
Proof.
  intros d id status. unfold getRepoById, updateRepoStatus_db.
  cbn [repos setRepos]. repeat split.
  - rewrite find_map_same by reflexivity.
    destruct (find (hasId id) (repos d)); reflexivity.
  - intros id' Hne. rewrite find_map_other by (reflexivity || exact Hne).
    reflexivity.
  - apply map_id_update. reflexivity.
Qed.

Lemma insertByClonedAt_perm :
  forall row sorted, Permutation (row :: sorted) (insertByClonedAt row sorted).
Proof.
  intros row sorted. induction sorted as [| r rest IH]; cbn; [reflexivity |].
  destruct (RepoRow.cloned_at r <? RepoRow.cloned_at row)%Z; [reflexivity |].
  rewrite perm_swap. constructor. exact IH.
Qed.

Lemma insertByClonedAt_sorted :
  forall row sorted,
    Sorted (fun a b => (RepoRow.cloned_at b <= RepoRow.cloned_at a)%Z) sorted ->
    Sorted (fun a b => (RepoRow.cloned_at b <= RepoRow.cloned_at a)%Z)
           (insertByClonedAt row sorted).
Proof.
  intros row sorted Hs. induction sorted as [| r rest IH]; cbn.
  - repeat constructor.
  - destruct (RepoRow.cloned_at r <? RepoRow.cloned_at row)%Z eqn:Hlt.
    + apply Z.ltb_lt in Hlt. constructor; [exact Hs |].
      constructor. lia.
    + apply Z.ltb_ge in Hlt. inversion Hs as [| x l Hs' Hhd]; subst.
      constructor; [apply IH; exact Hs' |].
      destruct rest as [| r2 rest2]; cbn.
      * constructor. exact Hlt.
      * destruct (RepoRow.cloned_at r2 <? RepoRow.cloned_at row)%Z.
        -- constructor. exact Hlt.
        -- inversion Hhd; subst. constructor. assumption.
Qed.

Lemma orderByClonedAtDesc_spec :
  forall rows,
    Permutation rows (orderByClonedAtDesc rows)
    /\ Sorted (fun a b => (RepoRow.cloned_at b <= RepoRow.cloned_at a)%Z)
              (orderByClonedAtDesc rows).
Proof.
  intros rows. unfold orderByClonedAtDesc.
  assert (G : forall acc,
             Sorted (fun a b => (RepoRow.cloned_at b <= RepoRow.cloned_at a)%Z)
                    acc ->
             Permutation (acc ++ rows)
                         (fold_left (fun acc row => insertByClonedAt row acc)
                                    rows acc)
             /\ Sorted (fun a b => (RepoRow.cloned_at b <= RepoRow.cloned_at a)%Z)
                       (fold_left (fun acc row => insertByClonedAt row acc)
                                  rows acc)).
  { induction rows as [| r rest IH]; intros acc Hacc; cbn [fold_left].
    - rewrite app_nil_r. split; [reflexivity | exact Hacc].
    - destruct (IH (insertByClonedAt r acc)
                   (insertByClonedAt_sorted r Hacc)) as [Hp Hs].
      split; [| exact Hs].
      rewrite <- Hp. rewrite <- insertByClonedAt_perm.
      symmetry. apply Permutation_middle. }
  apply (G []). constructor.
Qed.

(** X4. [listRepos] returns every workspace of the table exactly once, the
    most recently cloned first. *)
Theorem listRepos_newest_first :
  forall d : Database,
    Permutation (map rowToRepo (repos d)) (listRepos d)
    /\ newestFirst (listRepos d).
Proof.
  intros d. unfold listRepos, newestFirst.
  destruct (orderByClonedAtDesc_spec (repos d)) as [Hp Hs].
  split; [apply Permutation_map; exact Hp |]. clear Hp.
  induction Hs as [| r rest Hs IH Hhd]; cbn [map]; constructor.
  - exact IH.
  - destruct Hhd; cbn [map]; constructor. assumption.
Qed.

Lemma find_weaker :
  forall A (p q : A -> bool) l x,
    (forall y, p y = true -> q y = true) ->
    find p l = Some x -> exists first, find q l = Some first.
Proof.
  intros A p q l x Hpq. induction l as [| y l IH]; cbn; [discriminate |].
  destruct (q y) eqn:Hq; [intros _; eexists; reflexivity |].
  destruct (p y) eqn:Hp; [rewrite (Hpq y Hp) in Hq; discriminate Hq |].
  exact IH.
Qed.

(** X5. The lookup by URL and branch finds a workspace of that URL whose
    branch is the one asked for -- no branch at all when the branch asked
    for is absent or empty -- and whenever it finds one, the lookup by URL
    alone finds a workspace of that URL too. *)
Theorem getRepoByUrlAndBranch_refines_getRepoByUrl :
  forall (d : Database) (url : string) (branch : option string) (r : Repo.t),
    getRepoByUrlAndBranch d url branch = Some r ->
    Repo.repoUrl r = url
    /\ Repo.branch r = Js.orUndefined branch
    /\ exists first,
         getRepoByUrl d url = Some first /\ Repo.repoUrl first = url.
Proof.
  intros d url branch r Hlook. unfold getRepoByUrlAndBranch in Hlook.
  destruct (find _ (repos d)) as [row |] eqn:Hfind; [| discriminate].
  cbn in Hlook. injection Hlook as <-.
  pose proof Hfind as Hweak.
  apply find_some in Hfind. destruct Hfind as [_ Hmatch].
  apply matches_sound in Hmatch. destruct Hmatch as [Hu Hb].
  split; [exact Hu |]. split; [exact Hb |].
  apply (@find_weaker _ _ (fun row => RepoRow.repo_url row =? url)) in Hweak.
  - destruct Hweak as (first & Hfirst). exists (rowToRepo first).
    unfold getRepoByUrl. rewrite Hfirst. split; [reflexivity |].
    apply find_some in Hfirst. destruct Hfirst as [_ Hfirst].
    apply String.eqb_eq in Hfirst. exact Hfirst.
  - intros y Hy. apply matches_sound in Hy. destruct Hy as [Hy _].
    apply String.eqb_eq. exact Hy.
Qed.

End StoreLookups.

(* ================================================================= *)
(** ** Directory names *)

Lemma includes_slash_cons :
  forall c r,
    Js.includes "/" (String c r) = Ascii.eqb "/" c || Js.includes "/" r.
Proof.
  intros c r. cbn [Js.includes Js.startsWith]. rewrite andb_true_r.
  reflexivity.
Qed.

Lemma singleSegment_app :
  forall a b, singleSegment a -> singleSegment b -> singleSegment (a ++ b)%string.
Proof.
  unfold singleSegment. intros a b Ha Hb. induction a as [| c r IH].
  - exact Hb.
  - change (String c r ++ b)%string with (String c (r ++ b)%string).
    rewrite includes_slash_cons in *. apply orb_false_iff in Ha.
    destruct Ha as [Hc Hr]. rewrite Hc. cbn [orb]. apply IH. exact Hr.
Qed.

Lemma singleSegment_replaceSlashes :
  forall s, singleSegment (Js.replaceSlashes s).
Proof.
  unfold singleSegment. induction s as [| c r IH]; [reflexivity |].
  cbn [Js.replaceSlashes]. rewrite includes_slash_cons, IH, orb_false_r.
  destruct (Ascii.eqb c "\" || Ascii.eqb c "/") eqn:Hc; [reflexivity |].
  apply orb_false_iff in Hc. destruct Hc as [_ Hc].
  rewrite Ascii.eqb_sym. exact Hc.
Qed.

Lemma singleSegment_uint :
  forall d, singleSegment (NilEmpty.string_of_uint d).
Proof.
  unfold singleSegment.
  induction d; cbn [NilEmpty.string_of_uint];
    [reflexivity | rewrite includes_slash_cons, IHd; reflexivity ..].
Qed.

Lemma singleSegment_ofZ : forall z, singleSegment (Js.ofZ z).
Proof.
  intros z. unfold Js.ofZ, NilZero.string_of_int, NilZero.string_of_uint.
  destruct (Z.to_int z) as [d | d].
  - destruct d; try apply singleSegment_uint; reflexivity.
  - unfold singleSegment. rewrite includes_slash_cons. cbn [Ascii.eqb orb].
    destruct d; try apply singleSegment_uint; reflexivity.
Qed.

Lemma split_singleSegment :
  forall s, singleSegment s -> Js.split "/" s = [s].
Proof.
  unfold singleSegment. induction s as [| c r IH]; intros H; [reflexivity |].
  rewrite includes_slash_cons in H. apply orb_false_iff in H.
  destruct H as [Hc Hr]. cbn [Js.split]. rewrite Ascii.eqb_sym, Hc.
  rewrite (IH Hr). reflexivity.
Qed.

Lemma split_segments :
  forall s, Forall singleSegment (Js.split "/" s).
Proof.
  induction s as [| c r IH]; [repeat constructor |].
  cbn [Js.split]. destruct (Ascii.eqb c "/") eqn:Hc.
  - constructor; [reflexivity | exact IH].
  - destruct (Js.split "/" r) as [| h t].
    + constructor; [| constructor].
      unfold singleSegment. rewrite includes_slash_cons, Ascii.eqb_sym, Hc.
      reflexivity.
    + inversion IH; subst. constructor; [| assumption].
      unfold singleSegment. rewrite includes_slash_cons, Ascii.eqb_sym, Hc.
      assumption.
Qed.

Lemma split_not_nil : forall sep s, Js.split sep s <> [].
Proof.
  intros sep s. destruct s as [| c r]; cbn [Js.split]; [discriminate |].
  destruct (Ascii.eqb c sep); [discriminate |].
  destruct (Js.split sep r); discriminate.
Qed.

Lemma split_slash_app :
  forall p s,
    Js.split "/" (p ++ String "/" s)%string
    = (Js.split "/" p ++ Js.split "/" s)%list.
Proof.
  induction p as [| c r IH]; intros s.
  - reflexivity.
  - change (String c r ++ String "/" s)%string
      with (String c (r ++ String "/" s)%string).
    cbn [Js.split]. rewrite IH. destruct (Ascii.eqb c "/"); [reflexivity |].
    destruct (Js.split "/" r) as [| h t] eqn:Hr.
    + exfalso. exact (split_not_nil _ _ Hr).
    + reflexivity.
Qed.

Lemma length_append :
  forall a b : string,
    String.length (a ++ b) = (String.length a + String.length b)%nat.
Proof.
  induction a as [| c r IH]; intros b; [reflexivity |].
  change (String c r ++ b)%string with (String c (r ++ b)%string).
  cbn [String.length]. rewrite IH. reflexivity.
Qed.

Lemma stripDotGit_suffix :
  forall name, name <> "" -> stripDotGit (name ++ ".git") = name.
Proof.
  induction name as [| c r IH]; intros Hne; [congruence |].
  change (String c r ++ ".git")%string with (String c (r ++ ".git")%string).
  cbn [stripDotGit]. destruct r as [| c' r'].
  - reflexivity.
  - destruct ((String c' r' ++ ".git") =? ".git")%string eqn:Heq.
    + apply String.eqb_eq in Heq.
      apply (f_equal String.length) in Heq.
      rewrite length_append in Heq. cbn in Heq. lia.
    + rewrite IH by discriminate. reflexivity.
Qed.

Lemma stripDotGit_other :
  forall name,
    (forall base, base <> "" -> name <> (base ++ ".git")%string) ->
    stripDotGit name = name.
Proof.
  induction name as [| c r IH]; intros Hno; [reflexivity |].
  cbn [stripDotGit]. destruct (r =? ".git")%string eqn:Heq.
  - apply String.eqb_eq in Heq. subst r.
    exfalso. apply (Hno (String c "")); [discriminate | reflexivity].
  - rewrite IH; [reflexivity |].
    intros base Hb ->. apply (Hno (String c base)); [discriminate | reflexivity].
Qed.

Lemma stripDotGit_segment :
  forall s, s <> "" -> singleSegment s ->
            stripDotGit s <> "" /\ singleSegment (stripDotGit s).
Proof.
  unfold singleSegment.
  induction s as [| c r IH]; intros Hne Hs; [congruence |].
  rewrite includes_slash_cons in Hs. apply orb_false_iff in Hs.
  destruct Hs as [Hc Hr]. cbn [stripDotGit].
  destruct (r =? ".git")%string.
  - split; [discriminate |]. rewrite includes_slash_cons, Hc. reflexivity.
  - split; [discriminate |]. rewrite includes_slash_cons, Hc. cbn [orb].
    destruct r as [| c' r']; [reflexivity |].
    apply IH; [discriminate | exact Hr].
Qed.

Section DirectoryNames.
Context {host : Host}.

Lemma matchRepoName_segment :
  forall url name,
    matchRepoName url = Some name -> name <> "" /\ singleSegment name.
Proof.
  intros url name. unfold matchRepoName.
  pose proof (split_segments url) as Hall.
  apply Forall_rev in Hall.
  destruct (rev (Js.split "/" url)) as [| last [| x rest]]; try discriminate.
  destruct (Js.nonEmpty last) eqn:Hne; [| discriminate].
  intros H. injection H as <-. inversion Hall; subst.
  apply stripDotGit_segment; [| assumption].
  intros ->. discriminate Hne.
Qed.

Lemma repoNameAt_segment :
  forall url s, repoNameAt url s <> "" /\ singleSegment (repoNameAt url s).
Proof.
  intros url s. unfold repoNameAt.
  destruct (matchRepoName url) as [name |] eqn:Hm.
  - eapply matchRepoName_segment. exact Hm.
  - split; [discriminate |].
    apply (@singleSegment_app "repo-"); [reflexivity | apply singleSegment_ofZ].
Qed.

Lemma worktreeDirNameOf_segment :
  forall name branch uw,
    singleSegment name -> singleSegment (worktreeDirNameOf name branch uw).
Proof.
  intros name branch uw Hn. unfold worktreeDirNameOf.
  destruct (Js.truthy branch && uw); [| exact Hn].
  apply singleSegment_app; [exact Hn |].
  apply (@singleSegment_app "-"); [reflexivity |].
  apply singleSegment_replaceSlashes.
Qed.

Lemma matchRepoName_last :
  forall prefix last,
    last <> "" -> singleSegment last ->
    matchRepoName (prefix ++ String "/" last) = Some (stripDotGit last).
Proof.
  intros prefix last Hne Hseg. unfold matchRepoName.
  rewrite split_slash_app, (split_singleSegment Hseg), rev_app_distr.
  cbn [rev app].
  destruct (rev (Js.split "/" prefix)) as [| x rest] eqn:Hrev.
  - exfalso. apply (f_equal (@rev string)) in Hrev.
    rewrite rev_involutive in Hrev. exact (split_not_nil _ _ Hrev).
  - destruct last; [congruence | reflexivity].
Qed.

(** X6. [extractRepoName] names a repository after the text that follows
    the last slash of its URL, without one trailing [.git]: for a URL that
    ends in [/name.git] the name is [name]; for one that ends in [/name],
    where [name] is not some text followed by [.git], it is [name]
    itself. *)
Theorem extractRepoName_last_segment :
  forall (prefix name : string) (s : Store),
    name <> "" -> singleSegment name ->
    outcomeOf (extractRepoName (prefix ++ "/" ++ name ++ ".git") s) = Ok name
    /\ ((forall base, base <> "" -> name <> base ++ ".git") ->
        outcomeOf (extractRepoName (prefix ++ "/" ++ name) s) = Ok name).
Proof.
  intros prefix name s Hne Hseg. rewrite !extractRepoName_run.
  unfold outcomeOf, repoNameAt. cbn [fst]. split.
  - change (prefix ++ "/" ++ name ++ ".git")
      with (prefix ++ String "/" (name ++ ".git")).
    rewrite matchRepoName_last.
    + rewrite stripDotGit_suffix by exact Hne. reflexivity.
    + destruct name; [congruence | discriminate].
    + apply singleSegment_app; [exact Hseg | reflexivity].
  - intros Hno.
    change (prefix ++ "/" ++ name) with (prefix ++ String "/" name).
    rewrite matchRepoName_last by assumption.
    rewrite stripDotGit_other by exact Hno. reflexivity.
Qed.

(** X7. Whatever the URL, the name [extractRepoName] returns can stand for
    one directory: it is not empty and has no slash.  (A URL without a
    slash, or one that ends in a slash, gets the name [repo-] followed by
    the time of the call.)  The call itself does nothing else. *)
Theorem extractRepoName_single_segment :
  forall (url : string) (s : Store),
    exists name,
      extractRepoName url s = (Ok name, s, [])
      /\ name <> "" /\ singleSegment name
      /\ (matchRepoName url = None ->
          name = "repo-" ++ Js.ofZ (host_now (env s))).
Proof.
  intros url s. exists (repoNameAt url s).
  split; [apply extractRepoName_run |].
  destruct (repoNameAt_segment url s) as [Hne Hseg].
  split; [exact Hne |]. split; [exact Hseg |].
  intros Hnone. unfold repoNameAt. rewrite Hnone. reflexivity.
Qed.

End DirectoryNames.

(* ================================================================= *)
(** ** Reconciliation, deletion and provisioning together *)

Lemma commands_cons_log :
  forall lvl msg detail evs,
    commands (EvLog lvl msg detail :: evs) = commands evs.
Proof. reflexivity. Qed.

Lemma commands_cons_exec :
  forall argv cwd res evs,
    commands (EvExec argv cwd res :: evs) = argv :: commands evs.
Proof. reflexivity. Qed.


Ltac quiet_any := repeat quiet_step ltac:(reflexivity).

Section Lifecycle.
Context {host : Host}.

Lemma quiet_forEach :
  forall forbidden A (xs : list A) (body : A -> M unit),
    (forall x, quiet forbidden (body x)) -> quiet forbidden (forEach xs body).
Proof.
  intros forbidden A xs body Hb. induction xs as [| x rest IH]; cbn [forEach].
  - apply quiet_ret.
  - apply quiet_bind; [apply Hb | intros _; exact IH].
Qed.

Lemma quiet_removeOrphan :
  forall root dir, quiet anyLog (removeOrphan root dir).
Proof. intros. unfold removeOrphan. quiet_any. Qed.

Lemma quiet_cleanupOrphanedDirectories : quiet anyLog cleanupOrphanedDirectories.
Proof.
  unfold cleanupOrphanedDirectories.
  repeat first [ apply quiet_forEach; intro; apply quiet_removeOrphan
               | quiet_step ltac:(reflexivity) ].
Qed.

(** Every run of the reconciliation: it returns, and each command is the
    listing or the removal of an entry that no row tracks. *)
Lemma cleanupOrphanedDirectories_run :
  forall s o s' evs,
    cleanupOrphanedDirectories s = (o, s', evs) ->
    o = Ok tt
    /\ (forall argv,
          In argv (commands evs) ->
          argv = ["ls"; "-1"]
          \/ exists dir,
               argv = removalCommand dir
               /\ isTracked (trackedPaths (listRepos (db s))) dir = false)
    /\ (forall e env1,
          host_ensureDirectory getReposPath (env s) = (inr e, env1) ->
          commands evs = []).
Proof.
  intros s o s' evs Hrun.
  unfold cleanupOrphanedDirectories in Hrun. cbv zeta in Hrun.
  match type of Hrun with
  | tryCatch ?m _ _ = _ =>
      assert (Hbody : forall o1 s1 ev1,
                 m s = (o1, s1, ev1) ->
                 (forall argv,
                     In argv (commands ev1) ->
                     argv = ["ls"; "-1"]
                     \/ exists dir,
                         argv = removalCommand dir
                         /\ isTracked (trackedPaths (listRepos (db s))) dir
                            = false)
                 /\ (forall e env1,
                       host_ensureDirectory getReposPath (env s) = (inr e, env1)
                       -> commands ev1 = []))
  end.
  { clear. intros o s' evs Hb.
    inv_bind Hb; inv_ensure Hm;
      [| split; [intros argv [] | reflexivity]].
    split; [| intros e env1 He; rewrite He in Hens; discriminate Hens].
    intros argv Hin.
    assert (Hrest : forall listing s0 ev,
               db s0 = db s ->
               (if (Datatypes.length (listedDirectories listing) =? 0)%nat
                then ret tt
                else
                  database <- readDb;;
                  (if (0 <? Datatypes.length
                              (orphanedDirs (listedDirectories listing)
                                 (trackedPaths (listRepos database))))%nat
                   then
                     logger Info
                       ("Found " ++
                        Js.ofNat
                          (Datatypes.length
                             (orphanedDirs (listedDirectories listing)
                                (trackedPaths (listRepos database)))) ++
                        " orphaned directories: " ++
                        Js.join ", "
                          (orphanedDirs (listedDirectories listing)
                             (trackedPaths (listRepos database))))
                       None;;;
                     forEach
                       (orphanedDirs (listedDirectories listing)
                          (trackedPaths (listRepos database)))
                       (removeOrphan getReposPath)
                   else ret tt)) s0 = (o, s', ev) ->
               forall argv,
                 In argv (commands ev) ->
                 exists dir,
                   argv = removalCommand dir
                   /\ isTracked (trackedPaths (listRepos (db s))) dir = false).
    { clear. intros listing s0 ev Hdb Hr argv Hin.
      case_if Hr; [inv_prim Hr; destruct Hin |].
      inv_bind Hr; [| inv_prim Hm]. inv_prim Hm. rewrite Hdb in Hr.
      case_if Hr; [| inv_prim Hr; destruct Hin].
      inv_bind Hr; [| inv_prim Hm]. inv_prim Hm.
      cbn [app] in Hin. rewrite commands_cons_log in Hin.
      match type of Hr with
      | forEach ?dirs _ ?st = _ =>
          destruct (removal_loop getReposPath dirs st) as (_ & Hc & _);
          rewrite Hr in Hc
      end.
      unfold eventsOf in Hc. cbn [snd] in Hc.
      rewrite Hc in Hin. apply in_map_iff in Hin.
      destruct Hin as (dir & <- & Hin). exists dir. split; [reflexivity |].
      unfold orphanedDirs in Hin. apply filter_In in Hin.
      destruct Hin as [_ Hneg]. apply negb_true_iff in Hneg. exact Hneg. }
    cbn [app] in Hin. change (commands (EvEnsureDir ?p ?r :: ?l))
      with (commands l) in Hin.
    inv_bind Hb.
    - inv_try Hm.
      + inv_exec Hm. cbn [app] in Hin. rewrite commands_cons_exec in Hin.
        destruct Hin as [<- | Hin]; [left; reflexivity | right].
        eapply Hrest; [| exact Hb | exact Hin]. congruence.
      + inv_exec Hm0. inv_prim Hm.
        cbn [app] in Hin. rewrite commands_cons_exec in Hin.
        destruct Hin as [<- | Hin]; [left; reflexivity | right].
        refine (Hrest ""%string _ _ _ Hb _ Hin). congruence.
    - inv_try Hm. inv_prim Hm. }
  inv_try Hrun.
  - destruct a. split; [reflexivity |]. eapply Hbody. exact Hrun.
  - inv_prim Hrun. split; [reflexivity |].
    specialize (Hbody _ _ _ Hm). destruct Hbody as [Hc Hn].
    rewrite commands_app. cbn [commands execs map app].
    rewrite app_nil_r. split; assumption.
Qed.

(** X8. [cleanupOrphanedDirectories] never throws and never changes the
    table, whatever fails; when the workspaces root cannot be ensured it
    runs no command at all: nothing is listed and nothing is removed. *)
Theorem cleanupOrphanedDirectories_never_throws :
  forall s : Store,
    let r := cleanupOrphanedDirectories s in
    outcomeOf r = Ok tt
    /\ db (storeOf r) = db s
    /\ (succeeded (fst (host_ensureDirectory getReposPath (env s))) = false ->
        commands (eventsOf r) = []).
Proof.
  intros s r. subst r.
  destruct (quiet_cleanupOrphanedDirectories s) as [Hdb _].
  destruct (cleanupOrphanedDirectories s) as [[o s'] evs] eqn:Hrun.
  apply cleanupOrphanedDirectories_run in Hrun.
  destruct Hrun as (Ho & _ & Hn).
  unfold outcomeOf, storeOf, eventsOf in *. cbn [fst snd] in *.
  split; [exact Ho |]. split; [exact Hdb |].
  destruct (host_ensureDirectory getReposPath (env s)) as [[[] | e] env1];
    cbn [fst succeeded]; [discriminate |].
  intros _. eapply Hn. reflexivity.
Qed.

End Lifecycle.

Section ProvisionedRows.
Context {host : Host}.

Lemma rowToRepo_setStatus :
  forall status row,
    rowToRepo (setStatus status row)
    = Repo.withCloneStatus (rowToRepo row) status.
Proof. reflexivity. Qed.

Lemma update_fresh_row :
  forall rows row status,
    RepoRow.id row = lastInsertRowid rows ->
    map (fun r => if hasId (RepoRow.id row) r then setStatus status r else r)
        (rows ++ [row])%list
    = (rows ++ [setStatus status row])%list.
Proof.
  intros rows row status Hid. rewrite map_app. cbn [map].
  unfold hasId at 2. rewrite Z.eqb_refl. f_equal.
  rewrite <- (map_id rows) at 2. apply map_ext_in.
  intros r Hin. rewrite Hid, hasId_fresh by exact Hin. reflexivity.
Qed.

Lemma delete_fresh_row :
  forall rows row,
    RepoRow.id row = lastInsertRowid rows ->
    filter (fun r => negb (hasId (RepoRow.id row) r)) (rows ++ [row])%list
    = rows.
Proof.
  intros rows row Hid. rewrite filter_app. cbn [filter].
  unfold hasId at 2. rewrite Z.eqb_refl. cbn [negb]. rewrite app_nil_r.
  apply forallb_filter_id. apply forallb_forall.
  intros r Hin. rewrite Hid, hasId_fresh by exact Hin. reflexivity.
Qed.

(** What a successful [cloneRepo] leaves in the table: nothing new when
    the workspace was there, one more row otherwise. *)
Lemma cloneRepo_ok_table :
  forall url branch uw s r s' evs,
    cloneRepo url branch uw s = (Ok r, s', evs) ->
    (getRepoByUrlAndBranch (db s) url branch = Some r /\ s' = s)
    \/ (getRepoByUrlAndBranch (db s) url branch = None
        /\ exists row,
            db s' = setRepos (db s) (repos (db s) ++ [row])%list
            /\ rowToRepo row = r
            /\ RepoRow.id row = lastInsertRowid (repos (db s))
            /\ RepoRow.clone_status row = "ready"
            /\ RepoRow.local_path row
               = worktreeDirNameOf (repoNameAt url s) branch uw).
Proof.
  intros url branch uw s r s' evs Hrun.
  apply cloneRepo_shape in Hrun.
  inversion Hrun; subst.
  - left. split; [assumption | reflexivity].
  - right. split; [assumption |].
    match goal with
    | Hb : cloneRepoBody _ _ _ _ _ _ _ _ = _ |- _ =>
        apply (@cloneRepoBody_run _ isSeparateCloneLog) in Hb;
        [| left; reflexivity ];
        destruct Hb as [_ [Hready Hdb]]
    end.
    exists (setStatus "ready" row). subst row.
    split.
    + rewrite Hdb. unfold updateRepoStatus_db. cbn [repos setRepos gitToken].
      rewrite rowToRepo_id. subst inserted.
      unfold setRepos. cbn [db repos gitToken].
      rewrite update_fresh_row by reflexivity. reflexivity.
    + split; [rewrite rowToRepo_setStatus; symmetry; exact Hready |].
      split; [reflexivity |]. split; [reflexivity |].
      cbn [setStatus RepoRow.local_path insertedRow].
      subst input dir repoName. unfold createRepoInput.
      destruct (shouldUseWorktree uw branch out); reflexivity.
Qed.

(** X9. A successful [cloneRepo] returns the workspace as the table holds
    it: its id finds exactly the returned value.  The rows that were there
    are untouched, at most one row is added after them, and ids stay
    unique.  A workspace that was not in the table before is returned
    ready. *)
Theorem cloneRepo_returns_stored_workspace :
  forall (url : string) (branch : option string) (uw : bool)
         (s s' : Store) (r : Repo.t) (evs : list Event),
    uniqueIds (db s) ->
    cloneRepo url branch uw s = (Ok r, s', evs) ->
    getRepoById (db s') (Repo.id r) = Some r
    /\ (exists added,
          repos (db s') = (repos (db s) ++ added)%list
          /\ List.length added <= 1)
    /\ gitToken (db s') = gitToken (db s)
    /\ uniqueIds (db s')
    /\ (getRepoByUrlAndBranch (db s) url branch = None ->
        Repo.cloneStatus r = "ready").
Proof.
  intros url branch uw s s' r evs Hnd Hrun.
  apply cloneRepo_ok_table in Hrun.
  destruct Hrun as [[Hlook ->] | [_ (row & Hdb & Hr & Hid & Hst & _)]].
  - split; [| split; [exists []; rewrite app_nil_r; split; [reflexivity | cbn; lia]
                     | split; [reflexivity | split; [exact Hnd | congruence]]]].
    unfold getRepoByUrlAndBranch in Hlook.
    destruct (find _ (repos (db s))) as [row |] eqn:Hfind; [| discriminate].
    cbn in Hlook. injection Hlook as <-.
    apply find_some in Hfind. destruct Hfind as [Hin _].
    unfold getRepoById. rewrite rowToRepo_id.
    rewrite (find_hasId_unique _ _ Hnd Hin). reflexivity.
  - rewrite Hdb. cbn [repos setRepos gitToken]. subst r.
    split; [| split; [exists [row]; split; [reflexivity | cbn; lia]
                     | split; [reflexivity | split; [| intros _; exact Hst]]]].
    + unfold getRepoById. cbn [repos setRepos]. rewrite rowToRepo_id, Hid.
      rewrite find_app_none by apply find_fresh.
      cbn [find]. unfold hasId. rewrite Hid, Z.eqb_refl. reflexivity.
    + unfold uniqueIds in *. cbn [repos setRepos]. rewrite map_app.
      cbn [map]. apply NoDup_app; [exact Hnd | repeat constructor; intros [] |].
      intros x Hin [<- | []].
      apply in_map_iff in Hin. destruct Hin as (r0 & Hid0 & Hin).
      pose proof (lastInsertRowid_above (repos (db s)) r0 Hin). lia.
Qed.

Lemma dirNameOf_single :
  forall r, singleSegment (Repo.localPath r) -> dirNameOf r = Repo.localPath r.
Proof.
  intros r Hseg. unfold dirNameOf.
  rewrite (split_singleSegment Hseg). cbn [rev app Js.pop Js.orElse].
  destruct (Js.nonEmpty (Repo.localPath r)); reflexivity.
Qed.

(** X10. The directory of a newly provisioned workspace is a direct child
    of the workspaces root -- its [localPath] has no slash, so it is the
    directory name that [deleteRepoFiles] works with -- and a later
    [cleanupOrphanedDirectories] on that table never removes it. *)
Theorem cloneRepo_workspace_survives_cleanup :
  forall (url : string) (branch : option string) (uw : bool)
         (s s' : Store) (r : Repo.t) (evs : list Event),
    getRepoByUrlAndBranch (db s) url branch = None ->
    cloneRepo url branch uw s = (Ok r, s', evs) ->
    singleSegment (Repo.localPath r)
    /\ dirNameOf r = Repo.localPath r
    /\ forall later : Store,
        db later = db s' ->
        ~ In (removalCommand (Repo.localPath r))
             (commands (eventsOf (cleanupOrphanedDirectories later))).
Proof.
  intros url branch uw s s' r evs Hnone Hrun.
  apply cloneRepo_ok_table in Hrun.
  destruct Hrun as [[Hlook _] | [_ (row & Hdb & Hr & _ & _ & Hpath)]];
    [congruence |].
  assert (Hseg : singleSegment (Repo.localPath r)).
  { subst r. cbn [rowToRepo Repo.localPath]. rewrite Hpath.
    apply worktreeDirNameOf_segment. apply repoNameAt_segment. }
  split; [exact Hseg |]. split; [apply dirNameOf_single; exact Hseg |].
  intros later Hlater Hin.
  destruct (cleanupOrphanedDirectories later) as [[o2 s2] ev2] eqn:Hc.
  apply cleanupOrphanedDirectories_run in Hc.
  destruct Hc as (_ & Hcmds & _).
  unfold eventsOf in Hin. cbn [snd] in Hin.
  apply Hcmds in Hin. destruct Hin as [Hls | (dir & Hdir & Huntracked)];
    [discriminate Hls |].
  injection Hdir as <-.
  assert (Htracked : isTracked (trackedPaths (listRepos (db later)))
                               (Repo.localPath r) = true).
  { apply isTracked_rows. exists row. split.
    - rewrite Hlater, Hdb. cbn [repos setRepos]. apply in_or_app.
      right. left. reflexivity.
    - subst r. cbn [rowToRepo Repo.localPath] in *. unfold lastSegment.
      rewrite (split_singleSegment Hseg). reflexivity. }
  congruence.
Qed.

End ProvisionedRows.

(** Finds an event in a list of events that is given by its parts. *)
Ltac in_events :=
  solve [ left; reflexivity
        | right; in_events
        | apply in_or_app; left; in_events
        | apply in_or_app; right; in_events ].

(** The table after a sub-run that only runs commands and logs. *)
Ltac quiet_db Hm tac :=
  let Hq := fresh "Hq" in
  pose proof Hm as Hq;
  eapply (@quiet_run _ anyLog) in Hq; [destruct Hq as [Hq _] | solve [tac]];
  clear Hm.

Section Deprovisioning.
Context {host : Host}.

Lemma quiet_extractRepoName : forall url, quiet anyLog (extractRepoName url).
Proof. intros url. unfold extractRepoName. quiet_any. Qed.

Lemma quiet_removeWorktreeRegistration :
  forall base full dir, quiet anyLog (removeWorktreeRegistration base full dir).
Proof. intros. unfold removeWorktreeRegistration. quiet_any. Qed.

Lemma removeWorktreeRegistration_returns :
  forall base full dir s o s' evs,
    removeWorktreeRegistration base full dir s = (o, s', evs) -> o = Ok tt.
Proof.
  intros base full dir s o s' evs Hrun. unfold removeWorktreeRegistration in Hrun.
  inv_bind Hrun; [| inv_prim Hm]. inv_prim Hm.
  inv_try Hrun.
  - destruct a. reflexivity.
  - inv_bind Hrun; [| inv_prim Hm0]. inv_prim Hm0.
    inv_try Hrun.
    + destruct a. reflexivity.
    + inv_bind Hrun; [| inv_prim Hm1]. inv_prim Hm1.
      inv_try Hrun.
      * destruct a. reflexivity.
      * inv_prim Hrun. reflexivity.
Qed.

(** The steps of [deleteRepoFiles] before the row is deleted. *)
Lemma deleteRepoFiles_run :
  forall id s o s' evs,
    deleteRepoFiles id s = (o, s', evs) ->
    match getRepoById (db s) id with
    | None => o = Throw ("Repo not found: " ++ Js.ofZ id) /\ s' = s /\ evs = []
    | Some repo =>
        (exists res,
            In (EvExec (removalCommand (dirNameOf repo)) (Some getReposPath) res)
               evs)
        /\ match o with
           | Ok _ => db s' = deleteRepo_db (db s) id
           | Throw _ => db s' = db s
           end
    end.
Proof.
  intros id s o s' evs Hrun. unfold deleteRepoFiles in Hrun.
  inv_bind Hrun; [| inv_prim Hm]. inv_prim Hm.
  destruct (getRepoById (db s) id) as [repo |]; [| inv_prim Hrun; auto].
  cbv zeta in Hrun. cbn [app].
  match type of Hrun with
  | tryCatch ?m _ _ = _ =>
      assert (Hbody : forall o1 s1 ev1,
                 m s = (o1, s1, ev1) ->
                 (exists res,
                     In (EvExec (removalCommand (dirNameOf repo))
                                (Some getReposPath) res) ev1)
                 /\ match o1 with
                    | Ok _ => db s1 = deleteRepo_db (db s) id
                    | Throw _ => db s1 = db s
                    end)
  end.
  { clear. intros o s' evs Hb.
    inv_bind Hb; [| inv_prim Hm]. inv_prim Hm.
    inv_bind Hb.
    2:{ exfalso. case_if Hm; [| inv_prim Hm].
        inv_seq Hm;
          [ rewrite extractRepoName_run in Hm0; inv_run Hm0
          | rewrite extractRepoName_run in Hm; inv_run Hm ].
        apply removeWorktreeRegistration_returns in Hm. discriminate Hm. }
    quiet_db Hm ltac:(quiet_any; first [ apply quiet_extractRepoName
                                       | apply quiet_removeWorktreeRegistration ]).
    inv_bind Hb; [| inv_prim Hm]. inv_prim Hm.
    inv_bind Hb; inv_exec Hm;
      (split; [eexists; in_events |]); [| congruence].
    inv_bind Hb; inv_exec Hm; [| congruence].
    inv_bind Hb; [| quiet_db Hm ltac:(quiet_any); congruence].
    quiet_db Hm ltac:(quiet_any).
    inv_bind Hb.
    2:{ exfalso. case_if Hm; [| inv_prim Hm].
        inv_seq Hm;
          [ rewrite extractRepoName_run in Hm0; inv_run Hm0
          | rewrite extractRepoName_run in Hm; inv_run Hm ].
        inv_try Hm. inv_prim Hm. }
    quiet_db Hm ltac:(quiet_any; apply quiet_extractRepoName).
    inv_bind Hb; [| inv_prim Hm].
    unfold deleteRepo in Hm. inv_run Hm. inv_prim Hb.
    cbn [db]. congruence. }
  inv_try Hrun.
  - apply Hbody in Hrun. exact Hrun.
  - apply Hbody in Hm. destruct Hm as [(res & Hin) Hdb].
    inv_bind Hrun; [| inv_prim Hm]. inv_prim Hm. inv_prim Hrun.
    split; [| exact Hdb].
    exists res. apply in_or_app. left. exact Hin.
Qed.

(** X11. For a workspace of the table, [deleteRepoFiles] always gets to the
    removal of the directory: [rm -rf] of the directory name is run in the
    workspaces root whatever the results of the commands before it, so the
    failure of every attempt to unregister a worktree does not stop the
    deletion. *)
Theorem deleteRepoFiles_always_removes_directory :
  forall (id : Z) (s : Store) (repo : Repo.t),
    getRepoById (db s) id = Some repo ->
    exists res,
      In (EvExec (removalCommand (dirNameOf repo)) (Some getReposPath) res)
         (eventsOf (deleteRepoFiles id s)).
Proof.
  intros id s repo Hrepo.
  destruct (deleteRepoFiles id s) as [[o s'] evs] eqn:Hrun.
  apply deleteRepoFiles_run in Hrun. rewrite Hrepo in Hrun.
  destruct Hrun as [Hin _]. exact Hin.
Qed.

(** X12. Provisioning a new workspace and then deleting it gives the table
    back: after a [cloneRepo] that created a workspace, a successful
    [deleteRepoFiles] of its id leaves exactly the rows the table had
    before the [cloneRepo], and the directory it removed is the one of the
    workspace. *)
Theorem cloneRepo_then_deleteRepoFiles :
  forall (url : string) (branch : option string) (uw : bool)
         (s s1 later s2 : Store) (r : Repo.t) (ev1 ev2 : list Event),
    getRepoByUrlAndBranch (db s) url branch = None ->
    cloneRepo url branch uw s = (Ok r, s1, ev1) ->
    db later = db s1 ->
    deleteRepoFiles (Repo.id r) later = (Ok tt, s2, ev2) ->
    db s2 = db s
    /\ exists res,
         In (EvExec (removalCommand (Repo.localPath r)) (Some getReposPath) res)
            ev2.
Proof.
  intros url branch uw s s1 later s2 r ev1 ev2 Hnone Hclone Hlater Hdel.
  apply cloneRepo_ok_table in Hclone.
  destruct Hclone as [[Hlook _] | [_ (row & Hdb & Hr & Hid & _ & Hpath)]];
    [congruence |].
  assert (Hseg : singleSegment (Repo.localPath r)).
  { subst r. cbn [rowToRepo Repo.localPath]. rewrite Hpath.
    apply worktreeDirNameOf_segment. apply repoNameAt_segment. }
  assert (Hfind : getRepoById (db later) (Repo.id r) = Some r).
  { rewrite Hlater, Hdb. subst r. unfold getRepoById. cbn [repos setRepos].
    rewrite rowToRepo_id, Hid.
    rewrite find_app_none by apply find_fresh.
    cbn [find]. unfold hasId. rewrite Hid, Z.eqb_refl. reflexivity. }
  apply deleteRepoFiles_run in Hdel. rewrite Hfind in Hdel.
  destruct Hdel as [Hin Hdb2]. rewrite (dirNameOf_single _ Hseg) in Hin.
  split; [| exact Hin].
  rewrite Hdb2, Hlater, Hdb. subst r. rewrite rowToRepo_id.
  unfold deleteRepo_db. cbn [repos setRepos gitToken].
  rewrite delete_fresh_row by exact Hid.
  unfold setRepos. cbn [gitToken]. destruct (db s); reflexivity.
Qed.

End Deprovisioning.

(* ================================================================= *)
(** ** Branch operations and pulls *)

Section Branches.
Context {host : Host}.

Lemma quiet_getCurrentBranch : forall repo, quiet anyLog (getCurrentBranch repo).
Proof. intros. unfold getCurrentBranch. quiet_any. Qed.

Lemma quiet_switchBranch : forall id branch, quiet anyLog (switchBranch id branch).
Proof. intros. unfold switchBranch, checkoutResolved. quiet_any. Qed.

Lemma quiet_listBranches : forall repo, quiet anyLog (listBranches repo).
Proof.
  intros. unfold listBranches.
  repeat first [ apply quiet_getCurrentBranch | quiet_step ltac:(reflexivity) ].
Qed.

Lemma succeeds_run :
  forall A argv cwd (yes no : A) s o s' evs,
    succeeds argv cwd yes no s = (o, s', evs) ->
    exists res,
      evs = [EvExec argv cwd res]
      /\ o = Ok (if succeeded res then yes else no).
Proof.
  intros A argv cwd yes no s o s' evs H. unfold succeeds in H.
  inv_try H.
  - inv_seq H. inv_exec Hm. inv_prim H. eexists. split; reflexivity.
  - inv_seq Hm; [inv_prim Hm |]. inv_exec Hm. inv_prim H.
    eexists. split; reflexivity.
Qed.

Lemma execs_exec :
  forall argv cwd res evs,
    execs (EvExec argv cwd res :: evs) = (argv, res) :: execs evs.
Proof. reflexivity. Qed.

Lemma execs_log :
  forall lvl msg detail evs, execs (EvLog lvl msg detail :: evs) = execs evs.
Proof. reflexivity. Qed.

Lemma failedWith_then_log :
  forall e l lvl msg detail argv,
    failedWith e l argv ->
    failedWith e (l ++ [EvLog lvl msg detail])%list argv.
Proof.
  intros e l lvl msg detail argv Hin. unfold failedWith in *.
  rewrite execs_app. apply in_or_app. left. exact Hin.
Qed.

Lemma checkoutResolved_throw :
  forall path branch l r s e s' evs,
    checkoutResolved path branch l r s = (Throw e, s', evs) ->
    failedWith e evs (resolvedCheckout path branch l r).
Proof.
  intros path branch l r s e s' evs H.
  unfold checkoutResolved, resolvedCheckout, failedWith in *.
  destruct l; [| destruct r];
    (inv_seq H; [| inv_prim H]; inv_prim Hm;
     inv_seq H; [inv_prim H |]; inv_exec H;
     cbn [app]; rewrite execs_log, execs_exec; left; reflexivity).
Qed.

(** What [switchBranch] throws for a workspace of the table. *)
Lemma switchBranch_throws :
  forall id branch s repo e s' evs,
    switchBranch id branch s = (Throw e, s', evs) ->
    getRepoById (db s) id = Some repo ->
    exists argv,
      failedWith e evs argv
      /\ (argv = git (repoPathOf repo) ["fetch"; "--all"]
          \/ exists l r, argv = resolvedCheckout (repoPathOf repo) branch l r).
Proof.
  intros id branch s repo e s' evs Hrun Hrepo. unfold switchBranch in Hrun.
  inv_seq Hrun; [| inv_prim Hrun]. inv_prim Hm. rewrite Hrepo in Hrun.
  cbv zeta in Hrun. cbn [app].
  inv_try Hrun.
  inv_seq Hrun; [| inv_prim Hrun]. inv_prim Hm0. inv_prim Hrun.
  inv_seq Hm; [| inv_prim Hm]. inv_prim Hm0.
  inv_seq Hm.
  2:{ inv_exec Hm. eexists. split.
      - apply failedWith_then_log. cbn [app]. unfold failedWith.
        rewrite execs_log, execs_exec. left. reflexivity.
      - left. reflexivity. }
  inv_exec Hm0.
  inv_seq Hm; [| apply succeeds_run in Hm;
                 destruct Hm as (res & _ & Hbad); discriminate Hbad].
  apply succeeds_run in Hm0. destruct Hm0 as (res1 & -> & _).
  inv_seq Hm; [| apply succeeds_run in Hm;
                 destruct Hm as (res & _ & Hbad); discriminate Hbad].
  apply succeeds_run in Hm0. destruct Hm0 as (res2 & -> & _).
  inv_seq Hm; [inv_prim Hm |].
  apply checkoutResolved_throw in Hm.
  eexists. split.
  - apply failedWith_then_log. unfold failedWith in *. cbn [app].
    rewrite execs_log, !execs_exec. right. right. right. exact Hm.
  - right. eexists; eexists. reflexivity.
Qed.

Lemma subcommand_resolvedCheckout :
  forall path branch l r,
    subcommand (resolvedCheckout path branch l r) = Some "checkout".
Proof. intros path branch [] []; reflexivity. Qed.

(** X13. [switchBranch] never changes the table, and it throws only for an
    id that the table does not have (before any command is run), or with
    the error of the fetch or of the checkout that failed; the two lookups
    of the branch never make it throw. *)
Theorem switchBranch_failures :
  forall (id : Z) (branch : string) (s s' : Store) (o : Outcome unit)
         (evs : list Event),
    switchBranch id branch s = (o, s', evs) ->
    db s' = db s
    /\ forall e,
        o = Throw e ->
        (getRepoById (db s) id = None
         /\ e = "Repo not found: " ++ Js.ofZ id /\ evs = [])
        \/ (exists argv,
              failedWith e evs argv
              /\ (subcommand argv = Some "fetch"
                  \/ subcommand argv = Some "checkout")).
Proof.
  intros id branch s s' o evs Hrun.
  split; [eapply (@quiet_run _ anyLog); [apply quiet_switchBranch | exact Hrun] |].
  intros e ->.
  destruct (getRepoById (db s) id) as [repo |] eqn:Hrepo.
  - right. destruct (switchBranch_throws _ _ _ Hrun Hrepo) as (argv & Hf & Hc).
    exists argv. split; [exact Hf |].
    destruct Hc as [-> | (l & r & ->)]; [left; reflexivity | right].
    apply subcommand_resolvedCheckout.
  - left. unfold switchBranch in Hrun.
    inv_seq Hrun; [| inv_prim Hrun]. inv_prim Hm. rewrite Hrepo in Hrun.
    inv_prim Hrun. auto.
Qed.

Lemma rowToRepo_setLastPulled :
  forall time row,
    rowToRepo (setLastPulled time row) = withLastPulled time (rowToRepo row).
Proof. reflexivity. Qed.

(** The runs of [pullRepo]. *)
Lemma pullRepo_run :
  forall id s o s' evs,
    pullRepo id s = (o, s', evs) ->
    match getRepoById (db s) id with
    | None =>
        o = Throw ("Repo not found: " ++ Js.ofZ id) /\ s' = s /\ evs = []
    | Some repo =>
        (o = Ok tt
         /\ db s' = updateLastPulled_db (db s) id (host_now (env s'))
         /\ commands evs = [git (repoPathOf repo) ["pull"]])
        \/ (exists e,
               o = Throw e /\ db s' = db s
               /\ failedWith e evs (git (repoPathOf repo) ["pull"]))
    end.
Proof.
  intros id s o s' evs Hrun. unfold pullRepo in Hrun.
  inv_seq Hrun; [| inv_prim Hrun]. inv_prim Hm. cbn [app].
  destruct (getRepoById (db s) id) as [repo |]; [| inv_prim Hrun; auto].
  inv_try Hrun.
  - left. destruct a. inv_seq Hrun. inv_prim Hm.
    inv_seq Hrun. inv_exec Hm.
    inv_seq Hrun. unfold updateLastPulled in Hm. inv_run Hm. inv_prim Hrun.
    cbn [db env app]. rewrite Hdb. repeat split.
  - right. inv_seq Hrun; [| inv_prim Hrun]. inv_prim Hm0. inv_prim Hrun.
    inv_seq Hm; [| inv_prim Hm]. inv_prim Hm0.
    inv_seq Hm.
    + inv_exec Hm0. inv_seq Hm; [| inv_prim Hm].
      unfold updateLastPulled in Hm0. inv_run Hm0. inv_prim Hm.
    + inv_exec Hm. eexists. split; [reflexivity |]. split; [exact Hdb |].
      unfold failedWith. cbn [app]. rewrite execs_log, execs_exec.
      left. reflexivity.
Qed.

Lemma getRepoById_updateLastPulled :
  forall d id time,
    getRepoById (updateLastPulled_db d id time) id
    = option_map (withLastPulled time) (getRepoById d id)
    /\ forall id', id' <> id ->
                   getRepoById (updateLastPulled_db d id time) id'
                   = getRepoById d id'.
Proof.
  intros d id time. unfold getRepoById, updateLastPulled_db.
  cbn [repos setRepos]. split.
  - rewrite find_map_same by reflexivity.
    destruct (find (hasId id) (repos d)); reflexivity.
  - intros id' Hne. rewrite find_map_other by (reflexivity || exact Hne).
    reflexivity.
Qed.

(** X14. [pullRepo] records the time of the pull only when [git pull]
    succeeded: on success the workspace of the id is as before except for
    [lastPulled], which is the time read after the pull, and the pull is
    the one command run; when it throws the table is the one of the call.
    No other workspace is ever changed. *)
Theorem pullRepo_stamps_on_success_only :
  forall (id : Z) (s s' : Store) (o : Outcome unit) (evs : list Event),
    pullRepo id s = (o, s', evs) ->
    (forall id', id' <> id ->
                 getRepoById (db s') id' = getRepoById (db s) id')
    /\ match o with
       | Ok _ =>
           exists repo,
             getRepoById (db s) id = Some repo
             /\ getRepoById (db s') id
                = Some (withLastPulled (host_now (env s')) repo)
             /\ commands evs = [git (repoPathOf repo) ["pull"]]
       | Throw e => db s' = db s
       end.
Proof.
  intros id s s' o evs Hrun. apply pullRepo_run in Hrun.
  destruct (getRepoById (db s) id) as [repo |] eqn:Hrepo.
  - destruct Hrun as [(-> & Hdb & Hc) | (e & -> & Hdb & _)].
    + rewrite Hdb.
      destruct (getRepoById_updateLastPulled (db s) id (host_now (env s')))
        as [Hsame Hother].
      split; [exact Hother |]. exists repo. split; [reflexivity |].
      split; [| exact Hc]. rewrite Hsame, Hrepo. reflexivity.
    + rewrite Hdb. split; [reflexivity | reflexivity].
  - destruct Hrun as (-> & -> & _). split; reflexivity.
Qed.

Lemma setFrom_acc :
  forall xs acc,
    NoDup acc ->
    NoDup (fold_left (fun acc x => if existsb (String.eqb x) acc then acc
                                   else (acc ++ [x])%list) xs acc)
    /\ (forall x,
          In x (fold_left (fun acc x => if existsb (String.eqb x) acc then acc
                                        else (acc ++ [x])%list) xs acc)
          <-> In x acc \/ In x xs).
Proof.
  induction xs as [| y rest IH]; intros acc Hnd; cbn [fold_left].
  - split; [exact Hnd |]. intros x. cbn. tauto.
  - destruct (existsb (String.eqb y) acc) eqn:Hy.
    + destruct (IH acc Hnd) as [Hn Hi]. split; [exact Hn |].
      intros x. rewrite Hi. cbn [In].
      apply existsb_exists in Hy. destruct Hy as (z & Hz & Heq).
      apply String.eqb_eq in Heq. subst z.
      split; [tauto |]. intros [H | [<- | H]]; tauto.
    + assert (Hnot : ~ In y acc).
      { intros Hin. apply Bool.not_true_iff_false in Hy. apply Hy.
        apply existsb_exists. exists y. split; [exact Hin |].
        apply String.eqb_refl. }
      assert (Hnd' : NoDup (acc ++ [y])).
      { apply NoDup_app; [exact Hnd | repeat constructor; intros [] |].
        intros x Hx [<- | []]. exact (Hnot Hx). }
      destruct (IH (acc ++ [y])%list Hnd') as [Hn Hi]. split; [exact Hn |].
      intros x. rewrite Hi, in_app_iff. cbn [In]. tauto.
Qed.

Lemma setFrom_spec :
  forall xs, NoDup (setFrom xs) /\ (forall x, In x (setFrom xs) <-> In x xs).
Proof.
  intros xs. unfold setFrom.
  destruct (setFrom_acc xs (NoDup_nil string)) as [Hn Hi].
  split; [exact Hn |]. intros x. rewrite Hi. cbn. tauto.
Qed.

(** The value of a successful [getCurrentBranch]. *)
Lemma getCurrentBranch_run :
  forall repo s o s' evs,
    getCurrentBranch repo s = (o, s', evs) ->
    exists res,
      execs evs = [(headCommand repo, res)]
      /\ o = Ok (match res with
                 | inl out => Some (Js.trim out)
                 | inr _ => None
                 end).
Proof.
  intros repo s o s' evs H. unfold getCurrentBranch in H. cbv zeta in H.
  inv_try H.
  - inv_seq H. inv_exec Hm. inv_prim H. eexists. split; reflexivity.
  - inv_seq Hm; [inv_prim Hm |]. inv_exec Hm.
    inv_seq H; [| inv_prim H]. inv_prim Hm. inv_prim H.
    eexists. split; reflexivity.
Qed.

(** X15. What [listBranches] returns: [remote] lists every local branch
    and has no branch twice, no entry of [local] is blank, and [current] is
    the trimmed output of the HEAD lookup, or absent when that lookup
    failed -- a failure that does not make [listBranches] throw.  It throws
    only with the error of the fetch or of one of the two listings. *)
Theorem listBranches_result :
  forall (repo : Repo.t) (s s' : Store) (o : Outcome BranchList.t)
         (evs : list Event),
    listBranches repo s = (o, s', evs) ->
    db s' = db s
    /\ match o with
       | Ok bl =>
           NoDup (BranchList.remote bl)
           /\ incl (BranchList.local bl) (BranchList.remote bl)
           /\ Forall (fun b => Js.trim b <> "") (BranchList.local bl)
           /\ exists res,
               In (headCommand repo, res) (execs evs)
               /\ BranchList.current bl
                  = match res with
                    | inl out => Some (Js.trim out)
                    | inr _ => None
                    end
       | Throw e =>
           exists argv,
             failedWith e evs argv
             /\ (subcommand argv = Some "fetch"
                 \/ subcommand argv = Some "branch")
       end.
Proof.
  intros repo s s' o evs Hrun.
  split; [eapply (@quiet_run _ anyLog); [apply quiet_listBranches | exact Hrun] |].
  unfold listBranches in Hrun. cbv zeta in Hrun.
  inv_try Hrun.
  - inv_seq Hrun. inv_exec Hm.
    inv_seq Hrun. inv_exec Hm.
    inv_seq Hrun. inv_exec Hm.
    inv_seq Hrun. apply getCurrentBranch_run in Hm.
    destruct Hm as (res & Hex & Ha). inv_run Ha. inv_prim Hrun.
    cbn [BranchList.local BranchList.remote BranchList.current].
    match goal with
    | |- NoDup (setFrom ?xs) /\ _ =>
        destruct (setFrom_spec xs) as [Hn Hi]
    end.
    split; [exact Hn |]. split.
    + intros b Hb. apply Hi. apply in_or_app. left. exact Hb.
    + split.
      * apply Forall_forall. intros b Hb. apply filter_In in Hb.
        destruct Hb as [_ Hb]. unfold Js.nonEmpty in Hb.
        apply negb_true_iff in Hb. apply String.eqb_neq in Hb. exact Hb.
      * exists res. split; [| assumption].
        cbn [app]. rewrite !execs_exec, execs_app, Hex.
        right. right. right. left. reflexivity.
  - inv_seq Hrun; [| inv_prim Hrun]. inv_prim Hm0. inv_prim Hrun.
    inv_seq Hm.
    2:{ inv_exec Hm. eexists. split.
        - apply failedWith_then_log. unfold failedWith.
          rewrite execs_exec. left. reflexivity.
        - left. reflexivity. }
    inv_exec Hm0.
    inv_seq Hm.
    2:{ inv_exec Hm. eexists. split.
        - apply failedWith_then_log. unfold failedWith. cbn [app].
          rewrite !execs_exec. right. left. reflexivity.
        - right. reflexivity. }
    inv_exec Hm0.
    inv_seq Hm.
    2:{ inv_exec Hm. eexists. split.
        - apply failedWith_then_log. unfold failedWith. cbn [app].
          rewrite !execs_exec. right. right. left. reflexivity.
        - right. reflexivity. }
    inv_exec Hm0.
    inv_seq Hm; [inv_prim Hm |].
    apply getCurrentBranch_run in Hm. destruct Hm as (res & _ & Hbad).
    discriminate Hbad.
Qed.

End Branches.

(* ================================================================= *)
(** ** Worktree helpers and clone preparation *)

Section WorktreeHelpers.
Context {host : Host}.

Lemma quiet_cleanupStaleWorktree_any :
  forall base wt, quiet anyLog (cleanupStaleWorktree base wt).
Proof.
  intros. unfold cleanupStaleWorktree, pruneWorktreeReferences. quiet_any.
Qed.

Lemma pruneWorktreeReferences_run :
  forall base s o s' evs,
    pruneWorktreeReferences base s = (o, s', evs) ->
    o = Ok tt /\ exists res, execs evs = [(pruneCommand base, res)].
Proof.
  intros base s o s' evs H. unfold pruneWorktreeReferences in H.
  inv_try H.
  - inv_seq H. inv_prim Hm. inv_seq H. inv_exec Hm. inv_prim H.
    split; [reflexivity | eexists; reflexivity].
  - inv_prim H. inv_seq Hm; [| inv_prim Hm]. inv_prim Hm0.
    inv_seq Hm; [inv_exec Hm0; inv_prim Hm |]. inv_exec Hm.
    split; [reflexivity | eexists; reflexivity].
Qed.

(** X16. [cleanupStaleWorktree] never throws and leaves the table alone.
    It answers [false] exactly when the listing of the worktrees or the
    forced removal failed; a prune that fails is still answered with
    [true]. *)
Theorem cleanupStaleWorktree_verdict :
  forall (base wt : string) (s s' : Store) (o : Outcome bool)
         (evs : list Event),
    cleanupStaleWorktree base wt s = (o, s', evs) ->
    db s' = db s
    /\ exists cleaned,
        o = Ok cleaned
        /\ (cleaned = false <-> failedOtherThanPrune base evs).
Proof.
  intros base wt s s' o evs Hrun.
  split; [eapply (@quiet_run _ anyLog);
          [apply quiet_cleanupStaleWorktree_any | exact Hrun] |].
  unfold cleanupStaleWorktree in Hrun. cbv zeta in Hrun.
  unfold failedOtherThanPrune, failedWith, pruneCommand.
  inv_try Hrun.
  - exists a. split; [reflexivity |].
    inv_seq Hrun. inv_prim Hm. inv_seq Hrun. inv_exec Hm.
    case_match Hrun.
    + inv_seq Hrun. inv_prim Hm. inv_seq Hrun. inv_exec Hm.
      inv_seq Hrun. inv_prim Hm. inv_prim Hrun.
      split; [discriminate |].
      intros (argv & e & Hin & _). cbn in Hin.
      destruct Hin as [Hin | [Hin | []]]; discriminate Hin.
    + inv_seq Hrun. inv_prim Hm. inv_seq Hrun.
      apply pruneWorktreeReferences_run in Hm.
      destruct Hm as (_ & res & Hex). inv_prim Hrun.
      split; [discriminate |].
      intros (argv & e & Hin & Hne). cbn [app] in Hin.
      rewrite execs_log, execs_exec, execs_log, execs_app, Hex in Hin.
      cbn in Hin. destruct Hin as [Hin | [Hin | []]]; [discriminate Hin |].
      injection Hin as <- _. exfalso. apply Hne. reflexivity.
  - inv_seq Hrun; [| inv_prim Hrun]. inv_prim Hm0. inv_prim Hrun.
    exists false. split; [reflexivity |]. split; [intros _ | reflexivity].
    inv_seq Hm; [| inv_prim Hm]. inv_prim Hm0.
    inv_seq Hm.
    2:{ inv_exec Hm. eexists; eexists. split.
        - rewrite execs_app. apply in_or_app. left. cbn. left. reflexivity.
        - discriminate. }
    inv_exec Hm0.
    case_match Hm.
    + inv_seq Hm; [| inv_prim Hm]. inv_prim Hm0.
      inv_seq Hm.
      2:{ inv_exec Hm. eexists; eexists. split.
          - rewrite execs_app. apply in_or_app. left. cbn. right. left.
            reflexivity.
          - discriminate. }
      inv_exec Hm0. inv_seq Hm; [| inv_prim Hm]. inv_prim Hm0. inv_prim Hm.
    + inv_seq Hm; [| inv_prim Hm]. inv_prim Hm0.
      inv_seq Hm; [inv_prim Hm |].
      apply pruneWorktreeReferences_run in Hm. destruct Hm as [Hbad _].
      discriminate Hbad.
Qed.

Lemma quiet_getAvailableBranchForWorktree :
  forall base target, quiet anyLog (getAvailableBranchForWorktree base target).
Proof.
  intros. unfold getAvailableBranchForWorktree, fallbackBranchName. quiet_any.
Qed.

Lemma fallbackBranchName_run :
  forall target s o s' evs,
    fallbackBranchName target s = (o, s', evs) ->
    o = Ok (target ++ "-worktree-" ++ Js.ofZ (host_now (env s')))
    /\ s' = s /\ evs = [].
Proof.
  intros target s o s' evs H. unfold fallbackBranchName in H.
  inv_seq H; [| inv_prim H]. inv_prim Hm. inv_prim H. auto.
Qed.

(** X17. [getAvailableBranchForWorktree] never throws and leaves the table
    alone: it answers the target branch, or the target followed by
    [-worktree-] and the time.  When HEAD of the base repository is on
    another branch the target is answered with no further command; a
    checkout is only ever run after HEAD was found on the target. *)
Theorem getAvailableBranchForWorktree_answers :
  forall (base target : string) (s s' : Store) (o : Outcome string)
         (evs : list Event),
    getAvailableBranchForWorktree base target s = (o, s', evs) ->
    db s' = db s
    /\ (o = Ok target
        \/ o = Ok (target ++ "-worktree-" ++ Js.ofZ (host_now (env s'))))
    /\ exists res,
        In (git base ["rev-parse"; "--abbrev-ref"; "HEAD"], res) (execs evs)
        /\ match res with
           | inl out =>
               if Js.trim out =? target then True
               else o = Ok target /\ List.length (execs evs) = 1
           | inr _ => List.length (execs evs) = 1
           end.
Proof.
  intros base target s s' o evs Hrun.
  split; [eapply (@quiet_run _ anyLog);
          [apply quiet_getAvailableBranchForWorktree | exact Hrun] |].
  unfold getAvailableBranchForWorktree in Hrun. cbv zeta in Hrun.
  inv_try Hrun.
  - inv_seq Hrun. inv_exec Hm.
    destruct (Js.trim a0 =? target) eqn:Hhead.
    + split.
      * inv_seq Hrun. inv_prim Hm. inv_seq Hrun. clear Hm.
        case_if Hrun.
        -- inv_seq Hrun. inv_prim Hm. inv_seq Hrun. inv_exec Hm.
           inv_prim Hrun. left. reflexivity.
        -- inv_seq Hrun. inv_prim Hm.
           apply fallbackBranchName_run in Hrun.
           destruct Hrun as (Ho & _ & _). injection Ho as ->.
           right. reflexivity.
      * eexists. split; [cbn [app]; rewrite execs_exec; left; reflexivity |].
        cbn iota. rewrite Hhead. exact I.
    + inv_prim Hrun. split; [left; reflexivity |].
      eexists. split; [left; reflexivity |].
      cbn iota. rewrite Hhead. split; reflexivity.
  - inv_seq Hrun; [| inv_prim Hrun]. inv_prim Hm0.
    apply fallbackBranchName_run in Hrun. destruct Hrun as (-> & -> & ->).
    split; [right; reflexivity |].
    inv_seq Hm.
    + inv_exec Hm0.
      destruct (Js.trim a =? target) eqn:Hhead; [| inv_prim Hm].
      eexists. split; [cbn [app]; rewrite execs_exec; left; reflexivity |].
      cbn iota. rewrite Hhead. exact I.
    + inv_exec Hm.
      eexists. split; [left; reflexivity | reflexivity].
Qed.

(** X18. The three worktree probes never throw and leave the table alone;
    each answers [false] when its command fails, and otherwise what the
    output says: [checkWorktreeExists], whether the listing mentions the
    path; [removeStaleWorktree], [true]; [isBranchCheckedOutInMainWorktree],
    whether the trimmed HEAD name is the branch. *)
Theorem worktree_probes_never_throw :
  forall (base arg : string) (s : Store),
    let answer (probe : M bool) (argv : list string)
               (yes : string -> bool) :=
      outcomeOf (probe s)
      = Ok (match fst (host_execute argv None (env s)) with
            | inl out => yes out
            | inr _ => false
            end)
      /\ db (storeOf (probe s)) = db s in
    answer (checkWorktreeExists base arg)
           (git base ["worktree"; "list"; "--porcelain"])
           (Js.includes arg)
    /\ answer (removeStaleWorktree base arg)
              (git base ["worktree"; "remove"; "--force"; arg])
              (fun _ => true)
    /\ answer (isBranchCheckedOutInMainWorktree base arg)
              (git base ["rev-parse"; "--abbrev-ref"; "HEAD"])
              (fun out => Js.trim out =? arg).
Proof.
  intros base arg s answer. subst answer. cbv beta.
  unfold checkWorktreeExists, removeStaleWorktree,
    isBranchCheckedOutInMainWorktree.
  unfold_monad. unfold outcomeOf, storeOf. cbn [fst snd].
  repeat split;
    match goal with
    | |- context [host_execute ?a ?c ?e] =>
        destruct (host_execute a c e) as [[out | err] env']; reflexivity
    end.
Qed.

Lemma quiet_removeExistingWorkspaceDir_any :
  forall dir cwd, quiet anyLog (removeExistingWorkspaceDir dir cwd).
Proof. intros. unfold removeExistingWorkspaceDir. quiet_any. Qed.

Lemma lastCommand_snoc :
  forall evs argv cwd res,
    lastCommand (evs ++ [EvExec argv cwd res]) = Some (argv, res).
Proof.
  intros. unfold lastCommand. rewrite execs_app. cbn [execs].
  rewrite rev_app_distr. reflexivity.
Qed.

(** X19. [removeExistingWorkspaceDir] returns only when the last test of
    the directory did not answer [exists]: either the first test, and then
    nothing is removed, or the test made after [rm -rf].  When the removal
    or its verification fails, the error thrown is not that failure but
    the message that the directory exists and could not be removed. *)
Theorem removeExistingWorkspaceDir_returns_when_absent :
  forall (dir cwd : string) (s s' : Store) (o : Outcome unit)
         (evs : list Event),
    removeExistingWorkspaceDir dir cwd s = (o, s', evs) ->
    db s' = db s
    /\ match o with
       | Ok _ =>
           exists absent out,
             lastCommand evs = Some (testDirCommand dir absent, inl out)
             /\ Js.trim out <> "exists"
             /\ (absent = "missing" -> commands evs
                                       = [testDirCommand dir "missing"])
       | Throw e =>
           failedWith e evs (testDirCommand dir "missing")
           \/ (e = "Cannot clone: directory " ++ dir
                    ++ " exists and could not be removed"
               /\ In (removalCommand dir) (commands evs))
       end.
Proof.
  intros dir cwd s s' o evs Hrun.
  split; [eapply (@quiet_run _ anyLog);
          [apply quiet_removeExistingWorkspaceDir_any | exact Hrun] |].
  unfold removeExistingWorkspaceDir in Hrun.
  inv_seq Hrun.
  2:{ inv_exec Hrun. left. unfold failedWith. left. reflexivity. }
  inv_exec Hm.
  destruct (Js.trim a =? "exists") eqn:Hfirst.
  2:{ inv_prim Hrun. exists "missing", a. split; [reflexivity |].
      split; [apply String.eqb_neq; exact Hfirst | reflexivity]. }
  inv_seq Hrun; [| inv_prim Hrun]. inv_prim Hm.
  inv_try Hrun.
  - destruct a0. inv_seq Hrun. inv_exec Hm. inv_seq Hrun. inv_exec Hm.
    destruct (Js.trim a1 =? "exists") eqn:Hsecond; [inv_prim Hrun |].
    inv_prim Hrun. exists "removed", a1. split; [reflexivity |].
    split; [apply String.eqb_neq; exact Hsecond | discriminate].
  - inv_seq Hrun; [| inv_prim Hrun]. inv_prim Hm0. inv_prim Hrun.
    right. split; [reflexivity |].
    inv_seq Hm.
    + inv_exec Hm0. cbn. right. left. reflexivity.
    + inv_exec Hm. cbn. right. left. reflexivity.
Qed.

End WorktreeHelpers.





Lemma replaceSlashes_idempotent :
  forall s, Js.replaceSlashes (Js.replaceSlashes s) = Js.replaceSlashes s.
Proof.
  induction s as [| c r IH]; [reflexivity |].
  cbn [Js.replaceSlashes]. rewrite IH.
  destruct (Ascii.eqb c "\" || Ascii.eqb c "/") eqn:Hc.
  - reflexivity.
  - rewrite Hc. reflexivity.
Qed.

Lemma replaceSlashes_nonEmpty :
  forall s, Js.nonEmpty (Js.replaceSlashes s) = Js.nonEmpty s.
Proof. intros [| c r]; reflexivity. Qed.

(** X21. The directory name of a branch workspace does not tell slashes
    from dashes: a branch and the same branch with each slash and
    backslash written as a dash get the same directory name, which has no
    slash left. *)
Theorem worktreeDirNameOf_slashes_as_dashes :
  forall (repoName branch : string) (useWorktree : bool),
    worktreeDirNameOf repoName (Some (Js.replaceSlashes branch)) useWorktree
    = worktreeDirNameOf repoName (Some branch) useWorktree
    /\ (singleSegment repoName ->
        singleSegment
          (worktreeDirNameOf repoName (Some branch) useWorktree)).
Proof.
  intros repoName branch useWorktree. split.
  - unfold worktreeDirNameOf. cbn [Js.truthy branchText].
    rewrite replaceSlashes_nonEmpty, replaceSlashes_idempotent. reflexivity.
  - apply worktreeDirNameOf_segment.
Qed.

(* ================================================================= *)
(** ** The provisioning paths *)

Lemma cloneAttempts_app :
  forall a b, cloneAttempts (a ++ b) = (cloneAttempts a ++ cloneAttempts b)%list.
Proof.
  intros a b. unfold cloneAttempts. rewrite execs_app, filter_app.
  reflexivity.
Qed.

Lemma cloneAttempts_exec :
  forall argv cwd res rest,
    cloneAttempts (EvExec argv cwd res :: rest)
    = if isClone argv then (argv, res) :: cloneAttempts rest
      else cloneAttempts rest.
Proof. reflexivity. Qed.

Lemma cloneAttempts_log :
  forall lvl msg detail rest,
    cloneAttempts (EvLog lvl msg detail :: rest) = cloneAttempts rest.
Proof. reflexivity. Qed.

Section ProvisioningPaths.
Context {host : Host}.

Lemma removeExistingWorkspaceDir_no_clone :
  forall dir cwd s o s' evs,
    removeExistingWorkspaceDir dir cwd s = (o, s', evs) ->
    cloneAttempts evs = [].
Proof.
  intros dir cwd s o s' evs H. unfold removeExistingWorkspaceDir in H.
  inv_seq H; [| inv_exec H; reflexivity]. inv_exec Hm.
  case_if H; [| inv_prim H; reflexivity].
  inv_seq H; [| inv_prim H]. inv_prim Hm.
  inv_try H.
  - inv_seq H. inv_exec Hm. inv_seq H. inv_exec Hm.
    case_if H; inv_prim H. reflexivity.
  - inv_seq H; [| inv_prim H]. inv_prim Hm0. inv_prim H.
    inv_seq Hm; [| inv_exec Hm; reflexivity]. inv_exec Hm0.
    inv_seq Hm; [| inv_exec Hm; reflexivity]. inv_exec Hm0.
    case_if Hm; inv_prim Hm. reflexivity.
Qed.

Lemma cloneDefaultThenBranch_clones :
  forall cloneUrl dir branch s o s' evs,
    cloneDefaultThenBranch cloneUrl dir branch s = (o, s', evs) ->
    exists res,
      cloneAttempts evs = [(["git"; "clone"; cloneUrl; dir], res)]
      /\ (forall a, o = Ok a -> succeeded res = true).
Proof.
  intros cloneUrl dir branch s o s' evs H. unfold cloneDefaultThenBranch in H.
  inv_seq H.
  2:{ inv_exec H. eexists. split; [reflexivity | discriminate]. }
  inv_exec Hm. cbv zeta in H.
  inv_seq H.
  2:{ apply succeeds_run in H. destruct H as (res & _ & Hbad).
      discriminate Hbad. }
  apply succeeds_run in Hm. destruct Hm as (res & -> & _).
  exists (inl a). split; [| reflexivity].
  case_if H; (inv_seq H; [inv_exec Hm; inv_prim H | inv_exec H]);
    reflexivity.
Qed.

(** X22. [cloneFresh] returns only after a [git clone] into the workspace
    directory has succeeded.  It runs at most two such commands, and a
    second one -- the clone of the default branch -- only when a branch was
    asked for and the first one failed. *)
Theorem cloneFresh_returns_after_clone :
  forall (repoUrl : string) (branch : option string)
         (cloneUrl dir : string) (s s' : Store) (o : Outcome unit)
         (evs : list Event),
    cloneFresh repoUrl branch cloneUrl dir s = (o, s', evs) ->
    (o = Ok tt ->
     exists argv out,
       In (argv, inl out) (cloneAttempts evs)
       /\ Js.pop argv = Some dir)
    /\ match cloneAttempts evs with
       | [] => o <> Ok tt
       | [_] => True
       | [(_, first); (second, _)] =>
           Js.truthy branch = true /\ succeeded first = false
           /\ second = ["git"; "clone"; cloneUrl; dir]
       | _ => False
       end.
Proof.
  intros repoUrl branch cloneUrl dir s s' o evs H. unfold cloneFresh in H.
  inv_seq H; [| inv_prim H]. inv_prim Hm. cbn [app].
  rewrite cloneAttempts_log.
  inv_seq H.
  2:{ apply removeExistingWorkspaceDir_no_clone in H. rewrite H.
      split; discriminate. }
  apply removeExistingWorkspaceDir_no_clone in Hm.
  rewrite cloneAttempts_app, Hm. cbn [app]. clear Hm.
  assert (Hcmd : forall b : bool,
             isClone (if b
                      then ["git"; "clone"; "-b"; branchText branch; cloneUrl; dir]
                      else ["git"; "clone"; cloneUrl; dir]) = true
             /\ Js.pop (if b
                        then ["git"; "clone"; "-b"; branchText branch;
                              cloneUrl; dir]
                        else ["git"; "clone"; cloneUrl; dir]) = Some dir)
    by (intros []; split; reflexivity).
  cbv zeta in H.
  inv_try H.
  - destruct a0. inv_seq H. inv_exec Hm. inv_prim H.
    destruct (Hcmd (Js.truthy branch)) as [Hc Hp].
    cbn [app]. rewrite cloneAttempts_exec, Hc.
    split; [| exact I].
    intros _. eexists; eexists. split; [left; reflexivity | exact Hp].
  - inv_seq Hm; [inv_exec Hm0; inv_prim Hm |]. inv_exec Hm.
    destruct (Hcmd (Js.truthy branch)) as [Hc _].
    cbn [app]. rewrite cloneAttempts_exec, Hc.
    case_if H.
    { inv_seq H; [| inv_prim H]. inv_prim Hm. inv_prim H.
      split; [discriminate | exact I]. }
    case_if H; [| inv_prim H; split; [discriminate | exact I]].
    inv_seq H; [| inv_prim H]. inv_prim Hm. cbn [app].
    rewrite cloneAttempts_log.
    apply cloneDefaultThenBranch_clones in H.
    destruct H as (res & -> & Hok).
    apply andb_prop in Heqb0. destruct Heqb0 as [Ht _].
    split; [| repeat split; exact Ht].
    intros ->. specialize (Hok tt eq_refl).
    destruct res as [out |]; [| discriminate Hok].
    eexists; eexists. split; [right; left; reflexivity | reflexivity].
Qed.

Lemma insideRepo_git :
  forall path args, insideRepo path (git path args).
Proof. intros path args. exists args. reflexivity. Qed.

Lemma checkoutResolved_inside :
  forall path branch l r s o s' evs,
    checkoutResolved path branch l r s = (o, s', evs) ->
    Forall (insideRepo path) (commands evs).
Proof.
  intros path branch l r s o s' evs H. unfold checkoutResolved in H.
  destruct l; [| destruct r];
    (inv_seq H; [| inv_prim H]; inv_prim Hm;
     inv_seq H; [inv_exec Hm; inv_prim H | inv_exec H];
     repeat constructor; apply insideRepo_git).
Qed.

Lemma switchExistingClone_inside :
  forall path branch s o s' evs,
    switchExistingClone path branch s = (o, s', evs) ->
    Forall (insideRepo path) (commands evs).
Proof.
  intros path branch s o s' evs H. unfold switchExistingClone in H.
  case_if H; [| inv_prim H; constructor]. cbv zeta in H.
  inv_seq H; [| inv_prim H]. inv_prim Hm.
  inv_seq H; [| inv_exec H; repeat constructor; apply insideRepo_git].
  inv_exec Hm.
  inv_seq H.
  2:{ apply succeeds_run in H. destruct H as (res & _ & Hbad).
      discriminate Hbad. }
  apply succeeds_run in Hm. destruct Hm as (res1 & -> & _).
  inv_seq H.
  2:{ apply succeeds_run in H. destruct H as (res & _ & Hbad).
      discriminate Hbad. }
  apply succeeds_run in Hm. destruct Hm as (res2 & -> & _).
  apply checkoutResolved_inside in H.
  cbn [app]. rewrite commands_cons_log, !commands_cons_exec.
  repeat (constructor; [apply insideRepo_git |]). exact H.
Qed.

(** X23. An existing base directory that is a git repository is re-used
    as it is: when [git rev-parse --git-dir] succeeds in it,
    [reuseExistingClone] runs nothing but git commands inside that
    repository -- no removal, no clone -- and answers with the workspace
    marked ready, or throws.  Only when that check fails is the directory
    removed, for the fresh clone that follows. *)
Theorem reuseExistingClone_keeps_valid_clone :
  forall (repo : Repo.t) (repoUrl : string) (branch : option string)
         (base : string) (s s' : Store) (o : Outcome (option Repo.t))
         (evs : list Event),
    reuseExistingClone repo repoUrl branch base s = (o, s', evs) ->
    let basePath := path_resolve [getReposPath; base] in
    let check := git basePath ["rev-parse"; "--git-dir"] in
    exists res rest,
      commands evs = check :: rest
      /\ fst (host_execute check (Some (path_resolve [getReposPath])) (env s))
         = res
      /\ if succeeded res
         then Forall (insideRepo basePath) rest
              /\ o <> Ok None
         else rest = [removalCommand base]
              /\ forall ready, o <> Ok (Some ready).
Proof.
  intros repo repoUrl branch base s s' o evs H basePath check.
  subst basePath check. unfold reuseExistingClone in H. cbv zeta in H.
  inv_seq H; [| inv_prim H]. inv_prim Hm.
  inv_seq H.
  2:{ apply succeeds_run in H. destruct H as (res & _ & Hbad).
      discriminate Hbad. }
  unfold succeeds in Hm. inv_try Hm.
  - inv_seq Hm. inv_exec Hm0. inv_prim Hm.
    eexists; eexists.
    split; [cbn [app]; rewrite commands_cons_log, commands_cons_exec;
            reflexivity |].
    split; [rewrite Hexec; reflexivity |].
    cbn [succeeded]. cbn in H.
    inv_seq H; [| inv_prim H]. inv_prim Hm.
    inv_seq H.
    + apply switchExistingClone_inside in Hm.
      inv_seq H; [| inv_prim H]. inv_prim Hm0. inv_prim H.
      split; [| discriminate].
      cbn [app]. rewrite commands_cons_log, commands_app. cbn [commands execs map app].
      rewrite app_nil_r. exact Hm.
    + apply switchExistingClone_inside in H.
      split; [| discriminate].
      cbn [app]. rewrite commands_cons_log. exact H.
  - inv_seq Hm0; [inv_exec Hm1; inv_prim Hm0 |]. inv_exec Hm0. inv_prim Hm.
    eexists; eexists.
    split; [cbn [app]; rewrite commands_cons_log, commands_cons_exec;
            reflexivity |].
    split; [rewrite Hexec; reflexivity |].
    cbn [succeeded]. cbn in H.
    inv_seq H; [| inv_prim H]. inv_prim Hm.
    inv_seq H.
    + inv_exec Hm. inv_prim H. split; [reflexivity | discriminate].
    + inv_exec H. split; [reflexivity | discriminate].
Qed.




End ProvisioningPaths.

(* ================================================================= *)
(** ** The HTTP handlers *)

Section RouteFacts.
Context {host : Host}.

Lemma internalError_run :
  forall what e s o s' evs,
    internalError what e s = (o, s', evs) ->
    o = Ok (Response.mk 500 (BodyError e)) /\ s' = s
    /\ evs = [EvLog Err what (Some e)].
Proof.
  intros what e s o s' evs H. unfold internalError, json in H.
  inv_seq H; [| inv_prim H]. inv_prim Hm. inv_prim H. auto.
Qed.

(** X25. [GET /:id] always answers, and never with an internal error: 404
    for an id the table does not have, with no command run, and otherwise
    200 with the workspace of the table and its current branch, which is
    absent when the HEAD lookup fails. *)
Theorem getRepoRoute_answers :
  forall (id : Z) (s : Store),
    let r := getRepoRoute id s in
    db (storeOf r) = db s
    /\ match getRepoById (db s) id with
       | None =>
           outcomeOf r = Ok (Response.mk 404 (BodyError "Repo not found"))
           /\ eventsOf r = []
       | Some repo =>
           exists res,
             execs (eventsOf r) = [(headCommand repo, res)]
             /\ outcomeOf r
                = Ok (Response.mk 200
                        (BodyRepoWithBranch
                           repo
                           (match res with
                            | inl out => Some (Js.trim out)
                            | inr _ => None
                            end)))
       end.
Proof.
  intros id s r. subst r.
  destruct (getRepoRoute id s) as [[o s'] evs] eqn:Hrun.
  unfold outcomeOf, storeOf, eventsOf. cbn [fst snd].
  unfold getRepoRoute, json in Hrun.
  inv_try Hrun.
  - inv_seq Hrun. inv_prim Hm.
    destruct (getRepoById (db s) id) as [repo |]; [| inv_prim Hrun; auto].
    inv_seq Hrun.
    pose proof Hm as Hq.
    eapply (@quiet_run _ anyLog) in Hq; [| apply quiet_getCurrentBranch].
    destruct Hq as [Hdb _].
    apply getCurrentBranch_run in Hm. destruct Hm as (res & Hex & Ha).
    injection Ha as ->. inv_prim Hrun.
    split; [exact Hdb |]. exists res. cbn [app].
    rewrite execs_app, Hex. split; reflexivity.
  - exfalso. inv_seq Hm; [| inv_prim Hm]. inv_prim Hm0.
    destruct (getRepoById (db s) id) as [repo |]; [| inv_prim Hm].
    inv_seq Hm; [inv_prim Hm |].
    apply getCurrentBranch_run in Hm. destruct Hm as (res & _ & Hbad).
    discriminate Hbad.
Qed.

(** X26. [POST /:id/pull] has no check of the id: for an id the table does
    not have it answers 500, with the message [Repo not found:] and the
    id, where the other handlers answer 404.  For a workspace of the
    table it answers 200 with the workspace as stored after the pull -- its
    [lastPulled] is the time of the pull -- or 500 with the error of the
    pull, the table being unchanged. *)
Theorem pullRoute_answers :
  forall (id : Z) (s s' : Store) (o : Outcome Response.t) (evs : list Event),
    pullRoute id s = (o, s', evs) ->
    match getRepoById (db s) id with
    | None =>
        o = Ok (Response.mk 500 (BodyError ("Repo not found: " ++ Js.ofZ id)))
        /\ db s' = db s /\ commands evs = []
    | Some repo =>
        (o = Ok (Response.mk 200
                   (BodyRepo (Some (withLastPulled (host_now (env s')) repo))))
         /\ getRepoById (db s') id
            = Some (withLastPulled (host_now (env s')) repo))
        \/ (exists e,
               o = Ok (Response.mk 500 (BodyError e))
               /\ failedWith e evs (git (repoPathOf repo) ["pull"])
               /\ db s' = db s)
    end.
Proof.
  intros id s s' o evs Hrun. unfold pullRoute, json in Hrun.
  inv_try Hrun.
  - inv_seq Hrun. apply pullRepo_run in Hm.
    inv_seq Hrun. inv_prim Hm0. inv_prim Hrun.
    destruct (getRepoById (db s) id) as [repo |] eqn:Hrepo.
    + destruct Hm as [(_ & Hdb & _) | (e & Hbad & _)]; [| discriminate Hbad].
      left. rewrite Hdb.
      match goal with
      | |- context [host_now (env ?st)] =>
          destruct (getRepoById_updateLastPulled (db s) id (host_now (env st)))
            as [Hsame _]
      end.
      rewrite Hsame, Hrepo. split; reflexivity.
    + destruct Hm as (Hbad & _). discriminate Hbad.
  - apply internalError_run in Hrun. destruct Hrun as (-> & -> & ->).
    inv_seq Hm; [inv_seq Hm; [inv_prim Hm | inv_prim Hm] |].
    apply pullRepo_run in Hm.
    destruct (getRepoById (db s) id) as [repo |].
    + destruct Hm as [(Hbad & _) | (e0 & He & Hdb & Hf)];
        [discriminate Hbad |].
      injection He as <-.
      right. exists e. split; [reflexivity |]. split; [| exact Hdb].
      apply failedWith_then_log. exact Hf.
    + destruct Hm as (He & -> & ->). injection He as ->.
      split; [reflexivity |]. split; reflexivity.
Qed.

(** X27. [POST /:id/branch/switch] always answers and never changes the
    table.  The id is checked before the body: 404 for an id the table
    does not have, then 400 when the body names no branch, both without a
    command being run.  Otherwise it answers 200 with the workspace exactly
    as the table had it before the call, together with the current branch
    ([updatedRepo] is never [null]), or 500 with the error that
    [switchBranch] threw. *)
Theorem switchBranchRoute_answers :
  forall (id : Z) (branch : option string) (s s' : Store)
         (o : Outcome Response.t) (evs : list Event),
    switchBranchRoute id branch s = (o, s', evs) ->
    db s' = db s
    /\ match getRepoById (db s) id with
       | None =>
           o = Ok (Response.mk 404 (BodyError "Repo not found")) /\ evs = []
       | Some repo =>
           if Js.truthy branch then
             (exists res,
                 lastCommand evs = Some (headCommand repo, res)
                 /\ o = Ok (Response.mk 200
                              (BodyRepoWithBranch
                                 repo
                                 (match res with
                                  | inl out => Some (Js.trim out)
                                  | inr _ => None
                                  end))))
             \/ (exists e argv,
                    o = Ok (Response.mk 500 (BodyError e))
                    /\ failedWith e evs argv)
           else
             o = Ok (Response.mk 400 (BodyError "branch is required"))
             /\ evs = []
       end.
Proof.
  intros id branch s s' o evs Hrun. unfold switchBranchRoute, json in Hrun.
  inv_try Hrun.
  - inv_seq Hrun. inv_prim Hm. cbn [app].
    destruct (getRepoById (db s) id) as [repo |] eqn:Hrepo;
      [| inv_prim Hrun; auto].
    destruct (Js.truthy branch); cbn [negb] in Hrun; [| inv_prim Hrun; auto].
    inv_seq Hrun.
    eapply (@quiet_run _ anyLog) in Hm; [| apply quiet_switchBranch].
    destruct Hm as [Hdb1 _].
    inv_seq Hrun. inv_prim Hm. rewrite Hdb1, Hrepo in Hrun.
    inv_seq Hrun.
    pose proof Hm as Hq.
    eapply (@quiet_run _ anyLog) in Hq; [| apply quiet_getCurrentBranch].
    destruct Hq as [Hdb2 _].
    apply getCurrentBranch_run in Hm. destruct Hm as (res & Hex & Ha).
    injection Ha as ->. inv_prim Hrun.
    split; [congruence |]. left. exists res. split; [| reflexivity].
    unfold lastCommand. rewrite !execs_app, Hex. cbn [execs app].
    rewrite rev_app_distr. reflexivity.
  - apply internalError_run in Hrun. destruct Hrun as (-> & -> & ->).
    inv_seq Hm; [| inv_prim Hm]. inv_prim Hm0. cbn [app].
    destruct (getRepoById (db s) id) as [repo |] eqn:Hrepo; [| inv_prim Hm].
    destruct (Js.truthy branch); cbn [negb] in Hm; [| inv_prim Hm].
    inv_seq Hm.
    + exfalso.
      eapply (@quiet_run _ anyLog) in Hm0; [| apply quiet_switchBranch].
      destruct Hm0 as [Hdb1 _].
      inv_seq Hm; [| inv_prim Hm]. inv_prim Hm0. rewrite Hdb1, Hrepo in Hm.
      inv_seq Hm; [inv_prim Hm |].
      apply getCurrentBranch_run in Hm. destruct Hm as (res & _ & Hbad).
      discriminate Hbad.
    + pose proof Hm as Hq.
      eapply (@quiet_run _ anyLog) in Hq; [| apply quiet_switchBranch].
      destruct Hq as [Hdb1 _]. split; [exact Hdb1 |].
      right. eapply switchBranch_throws in Hm; [| exact Hrepo].
      destruct Hm as (argv & Hf & _). exists e, argv.
      split; [reflexivity |]. apply failedWith_then_log. exact Hf.
Qed.

End RouteFacts.

(* ================================================================= *)
(** ** Runs of the operations above *)

Section MoreRuns.
#[local] Existing Instance Scripted.host.

Lemma uniqueIds_tracked : uniqueIds Runs.tracked.
Proof.
  unfold uniqueIds. cbn.
  repeat constructor; cbn; intuition discriminate.
Qed.

(** A run of X1: the first row of an empty table. *)
Lemma createRepo_returns_stored_row_witness :
let run := createRepo Provision.appInput Runs.idle in
getRepoById (db (storeOf run)) 1
= Some (rowToRepo (insertedRow [] Provision.appInput))
/\ uniqueIds (db (storeOf run)).
Proof.
destruct (@createRepo_returns_stored_row
            Scripted.host Provision.appInput Runs.idle
            (storeOf (createRepo Provision.appInput Runs.idle))
            (rowToRepo (insertedRow [] Provision.appInput))
            (eventsOf (createRepo Provision.appInput Runs.idle))
            (NoDup_nil Z) eq_refl)
  as (_ & _ & Hfind & _ & Hids).
split; [exact Hfind | exact Hids].
Defined.

(** A run of X6. *)
Lemma extractRepoName_last_segment_witness :
outcomeOf (extractRepoName "https://example.com/acme/app.git" Runs.idle)
= Ok "app".
Proof.
refine (proj1 (@extractRepoName_last_segment
                 Scripted.host "https://example.com/acme" "app" Runs.idle
                 _ _));
  [discriminate | reflexivity].
Defined.

(** A run of X9: the fresh clone of [Provision.freshClone]. *)
Lemma cloneRepo_returns_stored_workspace_witness :
getRepoById (db (storeOf Provision.freshClone)) 1 = Some Provision.appReady
/\ Repo.cloneStatus Provision.appReady = "ready".
Proof.
destruct (@cloneRepo_returns_stored_workspace
            Scripted.host Provision.url None false Provision.cloneSucceeds
            (storeOf Provision.freshClone) Provision.appReady
            (eventsOf Provision.freshClone) (NoDup_nil Z) eq_refl)
  as (Hfind & _ & _ & _ & Hready).
split; [exact Hfind | exact (Hready eq_refl)].
Defined.

(** A run of X10: after the fresh clone, the reconciliation removes the
    stray directory and not the clone. *)
Lemma cloneRepo_workspace_survives_cleanup_witness :
~ In (removalCommand "app")
     (commands (eventsOf (cleanupOrphanedDirectories
                            Runs.listingAfterFreshClone))).
Proof.
exact (proj2 (proj2 (@cloneRepo_workspace_survives_cleanup
                       Scripted.host Provision.url None false
                       Provision.cloneSucceeds
                       (storeOf Provision.freshClone) Provision.appReady
                       (eventsOf Provision.freshClone) eq_refl eq_refl))
             Runs.listingAfterFreshClone eq_refl).
Defined.

(** A run of X11: no way of unregistering the worktree works. *)
Lemma deleteRepoFiles_always_removes_directory_witness :
exists res,
  In (EvExec (removalCommand "app-feature") (Some getReposPath) res)
     (eventsOf (deleteRepoFiles 2 Runs.registrationStuck)).
Proof.
exact (@deleteRepoFiles_always_removes_directory
         Scripted.host 2 Runs.registrationStuck (rowToRepo Runs.worktreeRow)
         eq_refl).
Defined.

(** A run of X12: the fresh clone, then its deletion. *)
Lemma cloneRepo_then_deleteRepoFiles_witness :
db (storeOf (deleteRepoFiles 1 Runs.afterFreshClone)) = Scripted.emptyDb.
Proof.
exact (proj1 (@cloneRepo_then_deleteRepoFiles
                Scripted.host Provision.url None false
                Provision.cloneSucceeds (storeOf Provision.freshClone)
                Runs.afterFreshClone
                (storeOf (deleteRepoFiles 1 Runs.afterFreshClone))
                Provision.appReady (eventsOf Provision.freshClone)
                (eventsOf (deleteRepoFiles 1 Runs.afterFreshClone))
                eq_refl eq_refl eq_refl eq_refl)).
Defined.

(** A run of X13: the fetch fails. *)
Lemma switchBranch_failures_witness :
let run := switchBranch 1 "feature" Runs.offline in
db (storeOf run) = Runs.tracked
/\ exists argv,
     failedWith "fatal: unable to access the remote" (eventsOf run) argv
     /\ (subcommand argv = Some "fetch" \/ subcommand argv = Some "checkout").
Proof.
destruct (@switchBranch_failures
            Scripted.host 1 "feature" Runs.offline
            (storeOf (switchBranch 1 "feature" Runs.offline))
            (Throw "fatal: unable to access the remote")
            (eventsOf (switchBranch 1 "feature" Runs.offline)) eq_refl)
  as [Hdb Hthrow].
split; [exact Hdb |].
destruct (Hthrow _ eq_refl) as [(Hnone & _) | Hcmd];
  [discriminate Hnone | exact Hcmd].
Defined.

(** A run of X14: the pull succeeds. *)
Lemma pullRepo_stamps_on_success_only_witness :
let run := pullRepo 1 Runs.upToDate in
exists repo,
  getRepoById Runs.tracked 1 = Some repo
  /\ getRepoById (db (storeOf run)) 1
     = Some (withLastPulled 1700000000000 repo)
  /\ commands (eventsOf run) = [git (repoPathOf repo) ["pull"]].
Proof.
exact (proj2 (@pullRepo_stamps_on_success_only
                Scripted.host 1 Runs.upToDate
                (storeOf (pullRepo 1 Runs.upToDate)) (Ok tt)
                (eventsOf (pullRepo 1 Runs.upToDate)) eq_refl)).
Defined.

(** A run of X15: two local branches, two remote ones, no current one. *)
Lemma listBranches_result_witness :
let run := listBranches (rowToRepo Runs.baseRow) Runs.detached in
outcomeOf run
= Ok (BranchList.mk ["main"; "feature"] ["main"; "feature"; "dev"] None)
/\ NoDup ["main"; "feature"; "dev"].
Proof.
split; [reflexivity |].
exact (proj1 (proj2 (@listBranches_result
                       Scripted.host (rowToRepo Runs.baseRow) Runs.detached
                       (storeOf (listBranches (rowToRepo Runs.baseRow)
                                              Runs.detached))
                       (Ok (BranchList.mk ["main"; "feature"]
                                          ["main"; "feature"; "dev"] None))
                       (eventsOf (listBranches (rowToRepo Runs.baseRow)
                                               Runs.detached))
                       eq_refl))).
Defined.

(** A run of X16: the prune fails and the answer is still [true]. *)
Lemma cleanupStaleWorktree_verdict_witness :
let run := cleanupStaleWorktree Scenario.base Scenario.worktree
                                Runs.pruneFails in
outcomeOf run = Ok true
/\ ~ failedOtherThanPrune Scenario.base (eventsOf run).
Proof.
split; [reflexivity |].
destruct (@cleanupStaleWorktree_verdict
            Scripted.host Scenario.base Scenario.worktree Runs.pruneFails
            (storeOf (cleanupStaleWorktree Scenario.base Scenario.worktree
                                           Runs.pruneFails))
            (Ok true)
            (eventsOf (cleanupStaleWorktree Scenario.base Scenario.worktree
                                            Runs.pruneFails))
            eq_refl)
  as (_ & cleaned & Hcleaned & Hiff).
injection Hcleaned as <-.
intros Hfailed. apply Hiff in Hfailed. discriminate Hfailed.
Defined.

(** A run of X17: the base repository is switched to [main]. *)
Lemma getAvailableBranchForWorktree_answers_witness :
let run := getAvailableBranchForWorktree Scenario.base "feature"
                                         Runs.onFeature in
outcomeOf run = Ok "feature"
/\ db (storeOf run) = Scripted.emptyDb.
Proof.
split; [reflexivity |].
exact (proj1 (@getAvailableBranchForWorktree_answers
                Scripted.host Scenario.base "feature" Runs.onFeature
                (storeOf (getAvailableBranchForWorktree
                            Scenario.base "feature" Runs.onFeature))
                (Ok "feature")
                (eventsOf (getAvailableBranchForWorktree
                             Scenario.base "feature" Runs.onFeature))
                eq_refl)).
Defined.

(** A run of X19: the directory is removed and found gone. *)
Lemma removeExistingWorkspaceDir_returns_when_absent_witness :
let run := removeExistingWorkspaceDir "app-feature" getReposPath
                                      Runs.staleDirectory in
exists absent out,
  lastCommand (eventsOf run)
  = Some (testDirCommand "app-feature" absent, inl out)
  /\ Js.trim out <> "exists"
  /\ (absent = "missing" ->
      commands (eventsOf run) = [testDirCommand "app-feature" "missing"]).
Proof.
exact (proj2 (@removeExistingWorkspaceDir_returns_when_absent
                Scripted.host "app-feature" getReposPath Runs.staleDirectory
                (storeOf (removeExistingWorkspaceDir
                            "app-feature" getReposPath Runs.staleDirectory))
                (Ok tt)
                (eventsOf (removeExistingWorkspaceDir
                             "app-feature" getReposPath Runs.staleDirectory))
                eq_refl)).
Defined.


(** A run of X26: the pull of a workspace of the table. *)
Lemma pullRoute_answers_witness :
let run := pullRoute 1 Runs.upToDate in
outcomeOf run
= Ok (Response.mk 200
        (BodyRepo (Some (withLastPulled 1700000000000
                                        (rowToRepo Runs.baseRow))))).
Proof.
pose proof (@pullRoute_answers
              Scripted.host 1 Runs.upToDate
              (storeOf (pullRoute 1 Runs.upToDate))
              (outcomeOf (pullRoute 1 Runs.upToDate))
              (eventsOf (pullRoute 1 Runs.upToDate)) eq_refl) as H.
cbv beta iota in H.
destruct H as [[Hok _] | (e & Hbad & _)]; [exact Hok | discriminate Hbad].
Defined.

(** A run of X27: the fetch fails and the handler answers 500. *)
Lemma switchBranchRoute_answers_witness :
let run := switchBranchRoute 1 (Some "feature") Runs.offline in
db (storeOf run) = Runs.tracked
/\ outcomeOf run
   = Ok (Response.mk 500 (BodyError "fatal: unable to access the remote")).
Proof.
split; [| reflexivity].
exact (proj1 (@switchBranchRoute_answers
                Scripted.host 1 (Some "feature") Runs.offline
                (storeOf (switchBranchRoute 1 (Some "feature") Runs.offline))
                (outcomeOf (switchBranchRoute 1 (Some "feature")
                                              Runs.offline))
                (eventsOf (switchBranchRoute 1 (Some "feature")
                                             Runs.offline))
                eq_refl)).
Defined.

(** An instance of X5: the worktree row is found by URL and branch, the
    base row by URL. *)
Lemma getRepoByUrlAndBranch_refines_getRepoByUrl_witness :
exists first,
  getRepoByUrl Runs.tracked Provision.url = Some first
  /\ Repo.repoUrl first = Provision.url.
Proof.
exact (proj2 (proj2 (@getRepoByUrlAndBranch_refines_getRepoByUrl
                       Scripted.host Runs.tracked Provision.url
                       (Some "feature") (rowToRepo Runs.worktreeRow)
                       eq_refl))).
Defined.

(** A run of X22: the branch is unknown to the remote. *)
Lemma cloneFresh_returns_after_clone_witness :
let run := cloneFresh Provision.url (Some "feature") Provision.url
                      "app-feature" Runs.branchUnknown in
outcomeOf run = Ok tt
/\ exists argv out,
     In (argv, inl out) (cloneAttempts (eventsOf run))
     /\ Js.pop argv = Some "app-feature".
Proof.
split; [reflexivity |].
exact (proj1 (@cloneFresh_returns_after_clone
                Scripted.host Provision.url (Some "feature") Provision.url
                "app-feature" Runs.branchUnknown
                (storeOf (cloneFresh Provision.url (Some "feature")
                                     Provision.url "app-feature"
                                     Runs.branchUnknown))
                (Ok tt)
                (eventsOf (cloneFresh Provision.url (Some "feature")
                                      Provision.url "app-feature"
                                      Runs.branchUnknown))
                eq_refl)
             eq_refl).
Defined.

(** A run of X23: the base directory is a repository and no branch is
    asked for. *)
Lemma reuseExistingClone_keeps_valid_clone_witness :
let run := reuseExistingClone (rowToRepo Runs.baseRow) Provision.url None
                              "app" Runs.validClone in
exists res rest,
  commands (eventsOf run)
  = git "/workspace/repos/app" ["rev-parse"; "--git-dir"] :: rest
  /\ res = (inl ".git" : string + Error)
  /\ Forall (insideRepo "/workspace/repos/app") rest.
Proof.
destruct (@reuseExistingClone_keeps_valid_clone
            Scripted.host (rowToRepo Runs.baseRow) Provision.url None "app"
            Runs.validClone
            (storeOf (reuseExistingClone (rowToRepo Runs.baseRow)
                                         Provision.url None "app"
                                         Runs.validClone))
            (outcomeOf (reuseExistingClone (rowToRepo Runs.baseRow)
                                           Provision.url None "app"
                                           Runs.validClone))
            (eventsOf (reuseExistingClone (rowToRepo Runs.baseRow)
                                          Provision.url None "app"
                                          Runs.validClone))
            eq_refl)
  as (res & rest & Hc & Hres & Hrest).
exists res, rest. split; [exact Hc |].
cbn in Hres. subst res. split; [reflexivity |]. exact (proj1 Hrest).
Defined.


End MoreRuns.
